(** * klage-unleash-proxy: the client registry, the request validator and
      the feature handler, with the health endpoints, the request log and
      the telemetry configuration, embedded in Rocq.

    Go strings are byte sequences; they are modelled by [string], whose
    characters ([ascii]) are exactly the 256 byte values.  [len(s)] is
    [String.length s].  The registry's [map[string]*unleash.Client] is a
    [gmap string Client].  The goroutines of [Initialize] and the callers
    of the registry are interleaved by a scheduler that picks the next
    move.  The log lines of the handlers, tracing and metrics are left out;
    the request log of the logging middleware is modelled.

    The parts of the Go standard library that decide what the code does
    (net/url's [PathEscape], encoding/json's [Decoder.Decode]) are modelled
    after their sources; the Unleash SDK and the configuration are
    parameters. *)

From Stdlib Require Import Ascii String List NArith ZArith Bool Lia Permutation.
From stdpp Require Import base option gmap strings list fin_maps.
Import ListNotations.

Set Warnings "-register-all".

Local Open Scope string_scope.

(* ===================================================================== *)
(** ** Byte and string helpers (Go builtins and package [strings]) *)
(* ===================================================================== *)

(** The double quote character (byte 0x22). *)
Definition dquote : ascii := ascii_of_nat 34.

(** [c] is one of the bytes of [cs] (a Go [switch c { case ...: }]). *)
Definition oneOf (c : ascii) (cs : string) : bool :=
  existsb (Ascii.eqb c) (list_ascii_of_string cs).

(** [strings.HasPrefix] is [String.prefix]; [strings.TrimPrefix(s, prefix)]
    returns [s] without the leading [prefix], or [s] itself. *)
Definition TrimPrefix (s prefix : string) : string :=
  if String.prefix prefix s
  then String.substring (String.length prefix) (String.length s - String.length prefix) s
  else s.

(** [strings.Join(elems, sep)]. *)
Definition Join (elems : list string) (sep : string) : string :=
  String.concat sep elems.

(* ===================================================================== *)
(** ** net/url: [PathEscape]  (Go standard library, used by [IsValidName]) *)
(* ===================================================================== *)

Inductive encoding :=
  | encodePath | encodePathSegment | encodeHost | encodeZone
  | encodeUserPassword | encodeQueryComponent | encodeFragment.

Definition encoding_eqb (a b : encoding) : bool :=
  match a, b with
  | encodePath, encodePath | encodePathSegment, encodePathSegment
  | encodeHost, encodeHost | encodeZone, encodeZone
  | encodeUserPassword, encodeUserPassword
  | encodeQueryComponent, encodeQueryComponent
  | encodeFragment, encodeFragment => true
  | _, _ => false
  end.

Definition isAlnum (c : ascii) : bool :=
  (("a" <=? c) && (c <=? "z") || ("A" <=? c) && (c <=? "Z")
   || ("0" <=? c) && (c <=? "9"))%char.

(** [shouldEscape(c, mode)] of net/url: does byte [c] need percent-encoding
    in the part of a URL that [mode] names (RFC 3986). *)
Definition shouldEscape (c : ascii) (mode : encoding) : bool :=
  if isAlnum c then false
  else if (encoding_eqb mode encodeHost || encoding_eqb mode encodeZone)
          && (oneOf c "!$&'()*+,;=:[]<>" || Ascii.eqb c dquote) then false
  else if oneOf c "-_.~" then false
  else if oneOf c "$&+,/:;=?@" then
    match mode with
    | encodePath => Ascii.eqb c "?"
    | encodePathSegment => oneOf c "/;,?"
    | encodeUserPassword => oneOf c "@/?:"
    | encodeQueryComponent => true
    | encodeFragment => false
    | encodeHost | encodeZone => true
    end
  else if encoding_eqb mode encodeFragment && oneOf c "!()*" then false
  else true.

(** [upperhex[i]] for [i < 16]. *)
Definition upperhex (i : N) : ascii :=
  match String.get (N.to_nat i) "0123456789ABCDEF" with
  | Some d => d
  | None => "0"%char
  end.

(** The number of bytes of [s] that [escape] writes as [%XX] ([hexCount])
    and, in query mode, the number of spaces written as [+] ([spaceCount]). *)
Fixpoint hexCount (s : string) (mode : encoding) : nat :=
  match s with
  | EmptyString => 0
  | String c r =>
      (if shouldEscape c mode
          && negb (Ascii.eqb c " " && encoding_eqb mode encodeQueryComponent)
       then 1 else 0) + hexCount r mode
  end.

Fixpoint spaceCount (s : string) (mode : encoding) : nat :=
  match s with
  | EmptyString => 0
  | String c r =>
      (if shouldEscape c mode
          && (Ascii.eqb c " " && encoding_eqb mode encodeQueryComponent)
       then 1 else 0) + spaceCount r mode
  end.

(** The second loop of [escape]: the output bytes. *)
Fixpoint escapeBytes (s : string) (mode : encoding) : string :=
  match s with
  | EmptyString => EmptyString
  | String c r =>
      if Ascii.eqb c " " && encoding_eqb mode encodeQueryComponent then
        String "+" (escapeBytes r mode)
      else if shouldEscape c mode then
        String "%" (String (upperhex (N.shiftr (N_of_ascii c) 4))
                      (String (upperhex (N.land (N_of_ascii c) 15))
                         (escapeBytes r mode)))
      else String c (escapeBytes r mode)
  end.

(** [escape(s, mode)]: [s] itself when nothing needs escaping. *)
Definition escape (s : string) (mode : encoding) : string :=
  if (spaceCount s mode =? 0)%nat && (hexCount s mode =? 0)%nat then s
  else escapeBytes s mode.

(** [url.PathEscape]: escape [s] for use as one path segment. *)
Definition PathEscape (s : string) : string := escape s encodePathSegment.

(* ===================================================================== *)
(** ** package feature: [IsValidName] *)
(* ===================================================================== *)

Definition IsValidName (name : string) : bool :=
  if (String.length name <? 1)%nat || (100 <? String.length name)%nat then false
  else if String.eqb name "." || String.eqb name ".." then false
  else
    let encoded := PathEscape name in
    String.eqb encoded name.

(* ===================================================================== *)
(** ** unicode/utf8 and unicode/utf16 (Go standard library), as far as
       encoding/json's string unquoting uses them.  Runes are [Z]. *)
(* ===================================================================== *)

Local Open Scope Z_scope.

Definition byteZ (c : ascii) : Z := Z.of_N (N_of_ascii c).
Definition ofByteZ (z : Z) : ascii := ascii_of_N (Z.to_N z).

Definition RuneError : Z := 0xFFFD.
Definition MaxRune : Z := 0x10FFFF.

(** [utf8.EncodeRune]: the UTF-8 bytes of [r]; surrogates and values out of
    range are written as U+FFFD. *)
Definition EncodeRune (r : Z) : string :=
  let cont (x : Z) : ascii := ofByteZ (Z.lor 0x80 (Z.land x 0x3F)) in
  let three (r : Z) : string :=
    String (ofByteZ (Z.lor 0xE0 (Z.shiftr r 12)))
      (String (cont (Z.shiftr r 6)) (String (cont r) EmptyString)) in
  if (0 <=? r) && (r <=? 0x7F) then String (ofByteZ r) EmptyString
  else if (0 <=? r) && (r <=? 0x7FF) then
    String (ofByteZ (Z.lor 0xC0 (Z.shiftr r 6))) (String (cont r) EmptyString)
  else if (r <? 0) || (MaxRune <? r) || ((0xD800 <=? r) && (r <=? 0xDFFF)) then
    three RuneError
  else if r <=? 0xFFFF then three r
  else
    String (ofByteZ (Z.lor 0xF0 (Z.shiftr r 18)))
      (String (cont (Z.shiftr r 12))
         (String (cont (Z.shiftr r 6)) (String (cont r) EmptyString))).

(** The [first] and [acceptRanges] tables of unicode/utf8: for a leading
    byte, the length of its sequence and the range allowed for the second
    byte; [None] for a byte that starts no sequence. *)
Definition utf8First (p0 : Z) : option (nat * Z * Z) :=
  if (0xC2 <=? p0) && (p0 <=? 0xDF) then Some (2%nat, 0x80, 0xBF)
  else if p0 =? 0xE0 then Some (3%nat, 0xA0, 0xBF)
  else if p0 =? 0xED then Some (3%nat, 0x80, 0x9F)
  else if (0xE1 <=? p0) && (p0 <=? 0xEF) then Some (3%nat, 0x80, 0xBF)
  else if p0 =? 0xF0 then Some (4%nat, 0x90, 0xBF)
  else if (0xF1 <=? p0) && (p0 <=? 0xF3) then Some (4%nat, 0x80, 0xBF)
  else if p0 =? 0xF4 then Some (4%nat, 0x80, 0x8F)
  else None.

Definition isCont (b : Z) : bool := (0x80 <=? b) && (b <=? 0xBF).

(** [utf8.DecodeRune(p)]: the first rune of [p] and its width in bytes;
    [(RuneError, 1)] for an encoding that is not valid, [(RuneError, 0)]
    for the empty string. *)
Definition DecodeRune (p : string) : Z * nat :=
  match p with
  | EmptyString => (RuneError, 0%nat)
  | String c0 p1 =>
      let p0 := byteZ c0 in
      if p0 <? 0x80 then (p0, 1%nat)
      else
        match utf8First p0 with
        | None => (RuneError, 1%nat)
        | Some (sz, lo, hi) =>
            match p1 with
            | EmptyString => (RuneError, 1%nat)
            | String c1 p2 =>
                let b1 := byteZ c1 in
                if (String.length p <? sz)%nat then (RuneError, 1%nat)
                else if (b1 <? lo) || (hi <? b1) then (RuneError, 1%nat)
                else if (sz <=? 2)%nat then
                  (Z.lor (Z.shiftl (Z.land p0 0x1F) 6) (Z.land b1 0x3F), 2%nat)
                else
                  match p2 with
                  | EmptyString => (RuneError, 1%nat)
                  | String c2 p3 =>
                      let b2 := byteZ c2 in
                      if negb (isCont b2) then (RuneError, 1%nat)
                      else if (sz <=? 3)%nat then
                        (Z.lor (Z.lor (Z.shiftl (Z.land p0 0x0F) 12)
                                  (Z.shiftl (Z.land b1 0x3F) 6))
                           (Z.land b2 0x3F), 3%nat)
                      else
                        match p3 with
                        | EmptyString => (RuneError, 1%nat)
                        | String c3 _ =>
                            let b3 := byteZ c3 in
                            if negb (isCont b3) then (RuneError, 1%nat)
                            else
                              (Z.lor (Z.lor (Z.lor
                                 (Z.shiftl (Z.land p0 0x07) 18)
                                 (Z.shiftl (Z.land b1 0x3F) 12))
                                 (Z.shiftl (Z.land b2 0x3F) 6))
                                 (Z.land b3 0x3F), 4%nat)
                        end
                  end
            end
        end
  end.

(** [utf16.IsSurrogate] and [utf16.DecodeRune]. *)
Definition IsSurrogate (r : Z) : bool := (0xD800 <=? r) && (r <? 0xE000).

Definition utf16DecodeRune (r1 r2 : Z) : Z :=
  if (0xD800 <=? r1) && (r1 <? 0xDC00) && (0xDC00 <=? r2) && (r2 <? 0xE000)
  then Z.lor (Z.shiftl (r1 - 0xD800) 10) (r2 - 0xDC00) + 0x10000
  else RuneError.

(* ===================================================================== *)
(** ** encoding/json (Go standard library): [Decoder.Decode] into the
       handler's [Request] struct.

    [Decode] reads the first JSON value of the stream (scanner.go: the
    grammar of RFC 8259, at most [maxNestingDepth] open arrays and objects;
    bytes after that value are not read) and stores it into the struct
    (decode.go).  Values are parsed here by recursive descent over the same
    grammar. *)
(* ===================================================================== *)

Definition backslash : ascii := ascii_of_nat 92.

Inductive json :=
  | JNull
  | JBool (b : bool)
  | JNumber (lit : string)
  | JString (s : string)
  | JArray (elems : list json)
  | JObject (members : list (string * json)).

(** [isSpace] of scanner.go. *)
Definition isSpace (c : ascii) : bool :=
  (byteZ c <=? 0x20)
  && (Ascii.eqb c " " || (byteZ c =? 9) || (byteZ c =? 13) || (byteZ c =? 10)).

Fixpoint skipSpace (s : string) : string :=
  match s with
  | String c r => if isSpace c then skipSpace r else s
  | EmptyString => EmptyString
  end.

Definition isDigit (c : ascii) : bool := (("0" <=? c) && (c <=? "9"))%char.

Definition isHex (c : ascii) : bool :=
  (("0" <=? c) && (c <=? "9") || ("a" <=? c) && (c <=? "f")
   || ("A" <=? c) && (c <=? "F"))%char.

(** The scanner's states inside a string literal: [stateInString],
    [stateInStringEsc] and [stateInStringEscU], [...U1], [...U12],
    [...U123] (here: the number of hex digits still to come). *)
Inductive strState := InString | InStringEsc | InStringEscU (todo : nat).

(** Scan a string literal after its opening quote: the raw bytes between
    the quotes and the input after the closing quote. *)
Fixpoint scanString (st : strState) (s : string) : option (string * string) :=
  match s with
  | EmptyString => None
  | String c r =>
      let keep st' :=
        match scanString st' r with
        | Some (raw, rest) => Some (String c raw, rest)
        | None => None
        end in
      match st with
      | InString =>
          if Ascii.eqb c dquote then Some (EmptyString, r)
          else if Ascii.eqb c backslash then keep InStringEsc
          else if byteZ c <? 0x20 then None
          else keep InString
      | InStringEsc =>
          if oneOf c "bfnrt/" || Ascii.eqb c backslash || Ascii.eqb c dquote
          then keep InString
          else if Ascii.eqb c "u" then keep (InStringEscU 4)
          else None
      | InStringEscU n =>
          if isHex c then
            match n with
            | S (S n') => keep (InStringEscU (S n'))
            | _ => keep InString
            end
          else None
      end
  end.

(** The scanner's states inside a number: [stateNeg], [state0], [state1],
    [stateDot], [stateDot0], [stateE], [stateESign], [stateE0]. *)
Inductive numState := NNeg | N0 | N1 | NDot | NDot0 | NE | NESign | NE0.

(** The next state on byte [c]; [None] when [c] cannot continue the number
    ([stateEndValue] in an accepting state, an error otherwise). *)
Definition numStep (st : numState) (c : ascii) : option numState :=
  match st with
  | NNeg => if Ascii.eqb c "0" then Some N0 else if isDigit c then Some N1 else None
  | N0 => if Ascii.eqb c "." then Some NDot else if oneOf c "eE" then Some NE else None
  | N1 => if isDigit c then Some N1
          else if Ascii.eqb c "." then Some NDot else if oneOf c "eE" then Some NE else None
  | NDot => if isDigit c then Some NDot0 else None
  | NDot0 => if isDigit c then Some NDot0 else if oneOf c "eE" then Some NE else None
  | NE => if oneOf c "+-" then Some NESign else if isDigit c then Some NE0 else None
  | NESign => if isDigit c then Some NE0 else None
  | NE0 => if isDigit c then Some NE0 else None
  end.

Definition numAccepting (st : numState) : bool :=
  match st with N0 | N1 | NDot0 | NE0 => true | _ => false end.

(** Scan the rest of a number in state [st]: its remaining text and the
    input after it. *)
Fixpoint scanNumber (st : numState) (s : string) : option (string * string) :=
  match s with
  | EmptyString => if numAccepting st then Some (EmptyString, EmptyString) else None
  | String c r =>
      match numStep st c with
      | Some st' =>
          match scanNumber st' r with
          | Some (lit, rest) => Some (String c lit, rest)
          | None => None
          end
      | None => if numAccepting st then Some (EmptyString, s) else None
      end
  end.

(** [getu4]: the rune of a [\uXXXX] escape at the head of [s], or [-1]. *)
Definition hexVal (c : ascii) : Z :=
  if isDigit c then byteZ c - 48
  else if (("a" <=? c) && (c <=? "f"))%char then byteZ c - 97 + 10
  else byteZ c - 65 + 10.

Definition getu4 (s : string) : Z :=
  match s with
  | String b (String u (String h1 (String h2 (String h3 (String h4 _))))) =>
      if Ascii.eqb b backslash && Ascii.eqb u "u"
         && isHex h1 && isHex h2 && isHex h3 && isHex h4
      then ((hexVal h1 * 16 + hexVal h2) * 16 + hexVal h3) * 16 + hexVal h4
      else -1
  | _ => -1
  end.

(** One round of the loop of [unquoteBytes] at the head of [s] (not empty):
    the bytes written and the number of input bytes consumed. *)
Definition unquoteStep (s : string) : string * nat :=
  match s with
  | EmptyString => (EmptyString, 0%nat)
  | String c r =>
      if Ascii.eqb c backslash then
        match r with
        | EmptyString => (EmptyString, 1%nat)
        | String e r' =>
            if Ascii.eqb e "u" then
              let rr := getu4 s in
              if IsSurrogate rr then
                let dec := utf16DecodeRune rr (getu4 (String.substring 6 (String.length s - 6) s)) in
                if negb (dec =? RuneError) then (EncodeRune dec, 12%nat)
                else (EncodeRune RuneError, 6%nat)
              else (EncodeRune rr, 6%nat)
            else
              let out :=
                if Ascii.eqb e "b" then ofByteZ 8
                else if Ascii.eqb e "f" then ofByteZ 12
                else if Ascii.eqb e "n" then ofByteZ 10
                else if Ascii.eqb e "r" then ofByteZ 13
                else if Ascii.eqb e "t" then ofByteZ 9
                else e in
              (String out EmptyString, 2%nat)
        end
      else if byteZ c <? 0x80 then (String c EmptyString, 1%nat)
      else let '(rr, size) := DecodeRune s in (EncodeRune rr, size)
  end.

(** [unquoteBytes] on the raw bytes of a literal the scanner accepted:
    [skip] bytes of [s] belong to the round before. *)
Fixpoint unquoteFrom (skip : nat) (s : string) : string :=
  match s with
  | EmptyString => EmptyString
  | String _ r =>
      match skip with
      | S k => unquoteFrom k r
      | O => let '(out, n) := unquoteStep s in (out ++ unquoteFrom (Nat.pred n) r)%string
      end
  end.

Definition unquote (raw : string) : string := unquoteFrom 0 raw.

Definition maxNestingDepth : N := 10000.

(** The literals [true], [false] and [null]. *)
Definition scanLiteral (s : string) : option (json * string) :=
  match s with
  | String "t" (String "r" (String "u" (String "e" rest))) =>
      Some (JBool true, rest)
  | String "f" (String "a" (String "l" (String "s" (String "e" rest)))) =>
      Some (JBool false, rest)
  | String "n" (String "u" (String "l" (String "l" rest))) =>
      Some (JNull, rest)
  | _ => None
  end.

(** The first JSON value of [s] and the input after it.  [depth] is the
    number of arrays and objects open around the value. *)
Fixpoint parseValue (fuel : nat) (depth : N) (s : string) : option (json * string) :=
  match fuel with
  | O => None
  | S fuel =>
      match skipSpace s with
      | EmptyString => None
      | String c r =>
          if Ascii.eqb c "{" then
            if (maxNestingDepth <? depth + 1)%N then None
            else
              match skipSpace r with
              | EmptyString => None
              | String c' r' =>
                  if Ascii.eqb c' "}" then Some (JObject [], r')
                  else
                    match parseMembers fuel (depth + 1)%N r with
                    | Some (ms, rest) => Some (JObject ms, rest)
                    | None => None
                    end
              end
          else if Ascii.eqb c "[" then
            if (maxNestingDepth <? depth + 1)%N then None
            else
              match skipSpace r with
              | EmptyString => None
              | String c' r' =>
                  if Ascii.eqb c' "]" then Some (JArray [], r')
                  else
                    match parseElements fuel (depth + 1)%N r with
                    | Some (vs, rest) => Some (JArray vs, rest)
                    | None => None
                    end
              end
          else if Ascii.eqb c dquote then
            match scanString InString r with
            | Some (raw, rest) => Some (JString (unquote raw), rest)
            | None => None
            end
          else if Ascii.eqb c "-" || isDigit c then
            let st := if Ascii.eqb c "-" then NNeg
                      else if Ascii.eqb c "0" then N0 else N1 in
            match scanNumber st r with
            | Some (lit, rest) => Some (JNumber (String c lit), rest)
            | None => None
            end
          else scanLiteral (String c r)
      end
  end

with parseMembers (fuel : nat) (depth : N) (s : string)
  : option (list (string * json) * string) :=
  match fuel with
  | O => None
  | S fuel =>
      match skipSpace s with
      | EmptyString => None
      | String q r =>
          if Ascii.eqb q dquote then
            match scanString InString r with
            | None => None
            | Some (raw, r1) =>
                match skipSpace r1 with
                | EmptyString => None
                | String colon r2 =>
                    if Ascii.eqb colon ":" then
                      match parseValue fuel depth r2 with
                      | None => None
                      | Some (v, r3) =>
                          match skipSpace r3 with
                          | EmptyString => None
                          | String d r4 =>
                              if Ascii.eqb d "," then
                                match parseMembers fuel depth r4 with
                                | Some (ms, rest) => Some ((unquote raw, v) :: ms, rest)
                                | None => None
                                end
                              else if Ascii.eqb d "}" then Some ([(unquote raw, v)], r4)
                              else None
                          end
                      end
                    else None
                end
            end
          else None
      end
  end

with parseElements (fuel : nat) (depth : N) (s : string)
  : option (list json * string) :=
  match fuel with
  | O => None
  | S fuel =>
      match parseValue fuel depth s with
      | None => None
      | Some (v, r1) =>
          match skipSpace r1 with
          | EmptyString => None
          | String d r2 =>
              if Ascii.eqb d "," then
                match parseElements fuel depth r2 with
                | Some (vs, rest) => Some (v :: vs, rest)
                | None => None
                end
              else if Ascii.eqb d "]" then Some ([v], r2)
              else None
          end
      end
  end.

Close Scope Z_scope.

(** The handler's request body (struct [Request] with its json tags). *)
Record Request := mkRequest {
  NavIdent : string;   (* `json:"navIdent"` *)
  AppName : string;    (* `json:"appName"` *)
  PodName : string;    (* `json:"podName"` *)
}.

Definition zeroRequest : Request := mkRequest "" "" "".

Inductive field := FNavIdent | FAppName | FPodName.

Definition fieldName (f : field) : string :=
  match f with
  | FNavIdent => "navIdent" | FAppName => "appName" | FPodName => "podName"
  end.

(** [foldName]: JSON names are matched without regard to ASCII case.  (The
    two non-ASCII runes that fold to ASCII letters fold to [K] and [S],
    which occur in none of the three names.) *)
Definition toUpper (c : ascii) : ascii :=
  if (("a" <=? c) && (c <=? "z"))%char then ascii_of_N (N_of_ascii c - 32) else c.

Fixpoint foldName (s : string) : string :=
  match s with
  | EmptyString => EmptyString
  | String c r => String (toUpper c) (foldName r)
  end.

(** The struct field a member name selects: an exact match first, then a
    match of the folded names. *)
Definition lookupField (key : string) : option field :=
  let exact :=
    List.find (fun f => String.eqb key (fieldName f)) [FNavIdent; FAppName; FPodName] in
  match exact with
  | Some f => Some f
  | None =>
      List.find (fun f => String.eqb (foldName key) (foldName (fieldName f)))
        [FNavIdent; FAppName; FPodName]
  end.

Definition setField (f : field) (s : string) (req : Request) : Request :=
  match f with
  | FNavIdent => mkRequest s (AppName req) (PodName req)
  | FAppName => mkRequest (NavIdent req) s (PodName req)
  | FPodName => mkRequest (NavIdent req) (AppName req) s
  end.

Inductive DecodeError :=
  | SyntaxError                       (* scanner error, io.EOF, io.ErrUnexpectedEOF *)
  | UnmarshalTypeError (Value : string) (Field : string).

(** [d.saveError]: the first error is the one [Decode] returns. *)
Definition saveError (saved : option DecodeError) (e : DecodeError) : option DecodeError :=
  match saved with
  | Some _ => saved
  | None => Some e
  end.

(** The JSON kind of a value, as [UnmarshalTypeError.Value] names it. *)
Definition kindOf (v : json) : string :=
  match v with
  | JNull => "null" | JBool _ => "bool" | JNumber _ => "number"
  | JString _ => "string" | JArray _ => "array" | JObject _ => "object"
  end.

(** Store a member's value into a string field: a string is assigned,
    [null] leaves the field alone, any other value is a type error that is
    saved while decoding goes on. *)
Definition storeField (f : field) (v : json) (st : Request * option DecodeError)
  : Request * option DecodeError :=
  let '(req, saved) := st in
  match v with
  | JString s => (setField f s req, saved)
  | JNull => (req, saved)
  | _ => (req, saveError saved (UnmarshalTypeError (kindOf v) (fieldName f)))
  end.

(** [d.object] for the struct: the members in order; a name that selects no
    field is skipped with its value. *)
Fixpoint storeMembers (ms : list (string * json)) (st : Request * option DecodeError)
  : Request * option DecodeError :=
  match ms with
  | [] => st
  | (key, v) :: ms' =>
      match lookupField key with
      | Some f => storeMembers ms' (storeField f v st)
      | None => storeMembers ms' st
      end
  end.

(** [d.unmarshal] into a zero [Request]. *)
Definition unmarshal (v : json) : Request + DecodeError :=
  match v with
  | JObject ms =>
      match storeMembers ms (zeroRequest, None) with
      | (req, None) => inl req
      | (_, Some e) => inr e
      end
  | JNull => inl zeroRequest
  | _ => inr (UnmarshalTypeError (kindOf v) "")
  end.

(** Fuel for [parseValue]: two units per byte of input are enough (see
    [fuelFor_enough]), so the parser never stops for lack of fuel. *)
Definition fuelFor (s : string) : nat := 2 * String.length s + 2.

(** The first JSON value of the body, if the body starts with one. *)
Definition firstValue (body : string) : option json :=
  match parseValue (fuelFor body) 0 body with
  | Some (v, _) => Some v
  | None => None
  end.

(** [json.NewDecoder(r.Body).Decode(&req)]. *)
Definition Decode (body : string) : Request + DecodeError :=
  match firstValue body with
  | Some v => unmarshal v
  | None => inr SyntaxError
  end.

(** A value that is no number.  (A number is the one value that further
    input bytes can extend.) *)
Definition notNumber (v : json) : Prop := forall lit, v <> JNumber lit.

(** A member that selects one of the three fields. *)
Definition isKnown (m : string * json) : bool :=
  match lookupField (fst m) with
  | Some _ => true
  | None => false
  end.

(** A member that [d.object] stores without a type error: its name selects
    no field, or its value is a string or [null]. *)
Definition storable (m : string * json) : bool :=
  match lookupField (fst m), snd m with
  | None, _ => true
  | Some _, (JString _ | JNull) => true
  | Some _, _ => false
  end.

Definition getField (f : field) (req : Request) : string :=
  match f with
  | FNavIdent => NavIdent req | FAppName => AppName req | FPodName => PodName req
  end.

(** JSON text is written with ['] for the double quote. *)
Definition dq (s : string) : string :=
  string_of_list_ascii
    (List.map (fun c => if Ascii.eqb c "'" then dquote else c) (list_ascii_of_string s)).

(* ===================================================================== *)
(** ** External collaborators: the Unleash SDK and the configuration *)
(* ===================================================================== *)

(** The options [Initialize] passes to [unleash.NewClient]:
    [WithListener(logging.NewSlogListener(app))], [WithAppName(app)],
    [WithUrl(url)], [WithCustomHeaders(http.Header{"Authorization": {token}})]. *)
Record ClientOptions := mkClientOptions {
  optListener : string;
  optAppName : string;
  optUrl : string;
  optAuthorization : string;
}.

(** [unleashcontext.Context] as the handler fills it. *)
Record UnleashContext := mkUnleashContext {
  ctxEnvironment : string;
  ctxUserId : string;
  ctxAppName : string;
  ctxRemoteAddress : string;
  ctxProperties : gmap string string;
}.

(** The SDK (github.com/Unleash/unleash-go-sdk/v5): the client type,
    [unleash.NewClient(options...)], which returns a client or an error (an
    error is modelled by its message; the outcome is taken to depend on the
    options only), and [client.IsEnabled(feature, WithContext(ctx))].

    In Go every call of [NewClient] returns a client of its own, so the two
    constructions of an application that the rules list twice give two
    clients, which this model cannot tell apart.  No property below
    compares the clients of two constructions; where the identity of the
    stored client matters, the applications are taken to be distinct and
    the proof follows the goroutine that stored the client. *)
Class Unleash := {
  Client : Type;
  NewClient : ClientOptions -> Client + string;
  IsEnabled : Client -> string -> UnleashContext -> bool;
}.

(** Package env (the process environment) and the [application] entries of
    [spec.accessPolicy.inbound.rules] of the embedded nais.yaml, in order
    (the empty string for a rule without one). *)
Class Env := {
  UnleashServerAPIURL : string;
  UnleashServerAPIToken : string;
  UnleashServerAPIEnv : string;
  Rules : list string;
}.

Section Proxy.

Context {U : Unleash} {E : Env}.

(* ===================================================================== *)
(** ** package nais *)
(* ===================================================================== *)

(** [nais.InboundApps], as [init] builds it: the non-empty applications of
    the rules.  ([init] panics when the list comes out empty.) *)
Definition InboundApps : list string :=
  List.filter (fun application => negb (String.eqb application "")) Rules.

(* ===================================================================== *)
(** ** package clients: the registry *)
(* ===================================================================== *)

(** The package-level variables [clientMap] and [ready]. *)
Record registry := mkRegistry {
  clientMap : gmap string Client;
  ready : bool;
}.

Definition url : string := UnleashServerAPIURL ++ "/api".

(** [Ready()]. *)
Definition Ready (r : registry) : bool := ready r.

(** [Get(appName)]: [Some client] is [(client, true)], [None] is
    [(nil, false)]. *)
Definition Get (r : registry) (appName : string) : option Client :=
  clientMap r !! appName.

(** [Close()]: every client of the map is closed, then the map is replaced
    by an empty one.  [closedBy] lists the clients [client.Close()] is
    called on (Go ranges over the map in no fixed order). *)
Definition closedBy (r : registry) : list (string * Client) :=
  map_to_list (clientMap r).

Definition Close (r : registry) : registry :=
  mkRegistry ∅ (ready r).

(** [IsValidApp(appName)]: [slices.Contains(nais.InboundApps, appName)]. *)
Definition IsValidApp (appName : string) : bool :=
  existsb (String.eqb appName) InboundApps.

Definition clientOptions (app : string) : ClientOptions :=
  mkClientOptions app app url UnleashServerAPIToken.

(** [fmt.Errorf("failed to create Unleash client for %s: %w", app, err)]. *)
Definition createError (app err : string) : string :=
  "failed to create Unleash client for " ++ app ++ ": " ++ err.

(** [fmt.Errorf("failed to initialize some Unleash clients: %v", errs)]:
    [%v] prints a slice of errors as its messages between brackets,
    separated by spaces. *)
Definition aggregateError (errs : list string) : string :=
  "failed to initialize some Unleash clients: [" ++ Join errs " " ++ "]".

(** *** [Initialize] and its goroutines, as a transition system

    [Initialize] starts one goroutine per inbound application and waits for
    all of them on a [sync.WaitGroup]; other goroutines (the HTTP server is
    already running) may call [Get], [Ready] and [Close] in between.  A
    state holds the package variables, the program counter of [Initialize],
    the WaitGroup counter, the goroutines started so far and the buffered
    channel [errChan]; an [action] is the scheduler's choice of who moves. *)

Inductive gstate :=
  | GSpawned                      (* started; unleash.NewClient has not returned *)
  | GWaitForReady (c : Client)    (* client created; blocked in client.WaitForReady() *)
  | GFailed (err : string)        (* sent its error to errChan and returned *)
  | GStored (c : Client).         (* stored its client in clientMap and returned *)

Record goroutine := mkGoroutine {
  gApp : string;
  gState : gstate;
}.

Inductive initPc :=
  | InitNotCalled
  | InitLoop (rest : list string)       (* the for loop; [InitLoop []] is wg.Wait() *)
  | InitReturned (err : option string). (* [None] is a nil error *)

Record state := mkState {
  reg : registry;
  pc : initPc;
  wg : nat;
  goroutines : list goroutine;
  errChan : list string;
}.

Inductive action :=
  | ACallInitialize          (* clients.Initialize() is called *)
  | ALoop                    (* one iteration: wg.Add(1); go func(app) *)
  | ANewClient (i : nat)     (* goroutine i: unleash.NewClient returns *)
  | AClientReady (i : nat)   (* goroutine i: its client signals readiness,
                                WaitForReady returns, the client is stored *)
  | AWaitReturn              (* wg.Wait() returns; Initialize runs to its return *)
  | AGet (appName : string)  (* another goroutine calls clients.Get *)
  | AReady                   (* another goroutine calls clients.Ready *)
  | AClose.                  (* another goroutine calls clients.Close *)

Definition initState : state :=
  mkState (mkRegistry ∅ false) InitNotCalled 0 [] [].

Definition isDone (g : goroutine) : bool :=
  match gState g with
  | GFailed _ | GStored _ => true
  | _ => false
  end.

(** The moves of [Initialize] itself.  [None]: the move is not enabled
    where [Initialize] stands. *)
Definition Initialize (a : action) (s : state) : option state :=
  match a with
  | ACallInitialize =>
      match pc s with
      | InitNotCalled =>
          (* var wg sync.WaitGroup; errChan := make(chan error, len(nais.InboundApps)) *)
          Some (mkState (reg s) (InitLoop InboundApps) 0 [] [])
      | _ => None
      end
  | ALoop =>
      (* for _, appName := range nais.InboundApps { wg.Add(1); go func(app) {...}(appName) } *)
      match pc s with
      | InitLoop (appName :: rest) =>
          Some (mkState (reg s) (InitLoop rest) (S (wg s))
                  (goroutines s ++ [mkGoroutine appName GSpawned]) (errChan s))
      | _ => None
      end
  | AWaitReturn =>
      match pc s with
      | InitLoop [] =>
          (* wg.Wait() *)
          if (wg s =? 0)%nat then
            (* close(errChan); for err := range errChan { errs = append(errs, err) } *)
            let errs := errChan s in
            if (0 <? length errs)%nat then
              Some (mkState (reg s) (InitReturned (Some (aggregateError errs)))
                      (wg s) (goroutines s) (errChan s))
            else
              (* ready.Store(true); return nil *)
              Some (mkState (mkRegistry (clientMap (reg s)) true) (InitReturned None)
                      (wg s) (goroutines s) (errChan s))
          else None
      | _ => None
      end
  | _ => None
  end.

(** The moves of the goroutine [go func(app string) {...}] that
    [Initialize] started as the [i]-th.  [None]: the goroutine is not at
    that point, or it is blocked. *)
Definition goFunc (a : action) (s : state) : option state :=
  match a with
  | ANewClient i =>
      match goroutines s !! i with
      | Some (mkGoroutine app GSpawned) =>
          match NewClient (clientOptions app) with
          | inr err =>
              (* errChan <- fmt.Errorf(...): blocks while the buffer is full;
                 return, with the deferred wg.Done() *)
              if (length (errChan s) <? length InboundApps)%nat then
                Some (mkState (reg s) (pc s) (Nat.pred (wg s))
                        (<[i := mkGoroutine app (GFailed err)]> (goroutines s))
                        (errChan s ++ [createError app err]))
              else None
          | inl client =>
              (* client.WaitForReady() *)
              Some (mkState (reg s) (pc s) (wg s)
                      (<[i := mkGoroutine app (GWaitForReady client)]> (goroutines s))
                      (errChan s))
          end
      | _ => None
      end
  | AClientReady i =>
      match goroutines s !! i with
      | Some (mkGoroutine app (GWaitForReady client)) =>
          (* mu.Lock(); clientMap[app] = client; mu.Unlock(); wg.Done() *)
          Some (mkState (mkRegistry (<[app := client]> (clientMap (reg s))) (ready (reg s)))
                  (pc s) (Nat.pred (wg s))
                  (<[i := mkGoroutine app (GStored client)]> (goroutines s))
                  (errChan s))
      | _ => None
      end
  | _ => None
  end.

(** One move of the system. *)
Definition step (a : action) (s : state) : option state :=
  match a with
  | ACallInitialize | ALoop | AWaitReturn => Initialize a s
  | ANewClient _ | AClientReady _ => goFunc a s
  | AGet _ => Some s
  | AReady => Some s
  | AClose => Some (mkState (Close (reg s)) (pc s) (wg s) (goroutines s) (errChan s))
  end.

(** A schedule is run from left to right; [None] when a move of it is not
    enabled where it stands. *)
Fixpoint run (sched : list action) (s : state) : option state :=
  match sched with
  | [] => Some s
  | a :: sched' =>
      match step a s with
      | Some s' => run sched' s'
      | None => None
      end
  end.

(** The construction failures of a list of applications: application and
    cause, in the order of the list. *)
Fixpoint failures (apps : list string) : list (string * string) :=
  match apps with
  | [] => []
  | app :: apps' =>
      match NewClient (clientOptions app) with
      | inr err => (app, err) :: failures apps'
      | inl _ => failures apps'
      end
  end.

(** *** Vocabulary for the properties of [Initialize] *)

(** A goroutine's state agrees with what [NewClient] returned to it. *)
Definition constructed (g : goroutine) : Prop :=
  match gState g with
  | GSpawned => True
  | GWaitForReady c | GStored c => NewClient (clientOptions (gApp g)) = inl c
  | GFailed err => NewClient (clientOptions (gApp g)) = inr err
  end.

(** What a goroutine has sent to [errChan]. *)
Definition sentBy (g : goroutine) : list string :=
  match gState g with
  | GFailed err => [createError (gApp g) err]
  | _ => []
  end.

(** [unleash.NewClient] has returned to the goroutine. *)
Definition started (g : goroutine) : bool :=
  match gState g with
  | GSpawned => false
  | _ => true
  end.

Definition isStored (g : goroutine) : bool :=
  match gState g with
  | GStored _ => true
  | _ => false
  end.

Definition isClose (a : action) : bool :=
  match a with AClose => true | _ => false end.

Definition isNewClient (a : action) : bool :=
  match a with ANewClient _ => true | _ => false end.

Definition isLoop (a : action) : bool :=
  match a with ALoop => true | _ => false end.

(* ===================================================================== *)
(** ** package feature: [Handler] *)
(* ===================================================================== *)

(** What the handler reads of [*http.Request]. *)
Record HttpRequest := mkHttpRequest {
  Method : string;
  URLPath : string;      (* r.URL.Path *)
  Body : string;         (* the bytes of r.Body *)
  RemoteAddr : string;
}.

(** What the handler writes to [http.ResponseWriter]. *)
Record HttpResponse := mkHttpResponse {
  StatusCode : nat;
  ContentType : string;
  ResponseBody : string;
}.

Definition newline : string := String (ascii_of_nat 10) EmptyString.

Definition StatusOK : nat := 200.
Definition StatusBadRequest : nat := 400.
Definition StatusMethodNotAllowed : nat := 405.

(** [http.Error(w, msg, code)]: a plain-text reply, the message followed by
    a newline. *)
Definition httpError (msg : string) (code : nat) : HttpResponse :=
  mkHttpResponse code "text/plain; charset=utf-8" (msg ++ newline).

(** [json.NewEncoder(w).Encode(Response{Enabled: enabled})]. *)
Definition encodeResponse (enabled : bool) : string :=
  dq "{'enabled':" ++ (if enabled then "true" else "false") ++ "}" ++ newline.

Definition PathPrefix : string := "/features/".

(** The calls the handler makes on the registry and on the resolved client,
    in order. *)
Inductive event :=
  | EvGet (appName : string)
  | EvIsEnabled (client : Client) (feature : string) (ctx : UnleashContext).

(** The outcome of one request: the description of the error status set on
    the handler's span ([None] when no error was recorded), the calls made
    and the reply.  (Logging and the span's attributes are left out.) *)
Record outcome := mkOutcome {
  spanStatus : option string;
  events : list event;
  response : HttpResponse;
}.

(** The messages of the replies that list the allowed applications. *)
Definition missingAppNameMessage : string :=
  "app_name is required in request body, must be one of the allowed inbound applications: "
  ++ Join InboundApps ", ".

Definition unknownAppNameMessage : string :=
  "Unknown app_name: must be one of the allowed inbound applications: "
  ++ Join InboundApps ", ".

Definition invalidFeatureMessage : string :=
  "Invalid feature name: must be URL-friendly, 1-100 characters, and not '.' or '..'".

(** The context of the evaluation. *)
Definition unleashCtx (r : HttpRequest) (req : Request) : UnleashContext :=
  mkUnleashContext UnleashServerAPIEnv (NavIdent req) (AppName req) (RemoteAddr r)
    {[ "podName" := PodName req ]}.

(** [Handler(w, r)], run against the registry as it stands. *)
Definition Handler (rg : registry) (r : HttpRequest) : outcome :=
  if negb (String.eqb (Method r) "POST") && negb (String.eqb (Method r) "QUERY") then
    mkOutcome (Some "method not allowed") []
      (httpError "Method not allowed" StatusMethodNotAllowed)
  else
    let featureName := TrimPrefix (URLPath r) PathPrefix in
    if String.eqb featureName "" then
      mkOutcome (Some "missing feature name") []
        (httpError "Feature name is required" StatusBadRequest)
    else if negb (IsValidName featureName) then
      mkOutcome (Some "invalid feature name") []
        (httpError invalidFeatureMessage StatusBadRequest)
    else
      match Decode (Body r) with
      | inr _ =>
          mkOutcome (Some "invalid JSON body") []
            (httpError "Invalid JSON body" StatusBadRequest)
      | inl req =>
          if String.eqb (AppName req) "" then
            mkOutcome (Some "missing app_name") []
              (httpError missingAppNameMessage StatusBadRequest)
          else
            match Get rg (AppName req) with
            | None =>
                mkOutcome (Some "unknown app_name") [EvGet (AppName req)]
                  (httpError unknownAppNameMessage StatusBadRequest)
            | Some client =>
                let ctx := unleashCtx r req in
                let enabled := IsEnabled client featureName ctx in
                mkOutcome None
                  [EvGet (AppName req); EvIsEnabled client featureName ctx]
                  (mkHttpResponse StatusOK "application/json" (encodeResponse enabled))
            end
      end.

(** The client-error class of status codes. *)
Definition isClientError (code : nat) : bool :=
  ((400 <=? code) && (code <? 500))%nat.

(** What holds of a state reached from [initState] by the moves [hist]. *)
Record Inv (hist : list action) (s : state) : Prop := mkInv {
  (* the goroutines are those of the applications the loop has passed *)
  inv_apps :
    match pc s with
    | InitNotCalled => goroutines s = [] /\ errChan s = [] /\ wg s = 0
    | InitLoop rest => (List.map gApp (goroutines s) ++ rest)%list = InboundApps
    | InitReturned _ => List.map gApp (goroutines s) = InboundApps
    end;
  inv_constructed : Forall constructed (goroutines s);
  (* the WaitGroup counts the goroutines that have not returned *)
  inv_wg : wg s = length (List.filter (fun g => negb (isDone g)) (goroutines s));
  (* errChan holds what the failed goroutines sent, in the order of sending *)
  inv_errChan : Permutation (errChan s) (List.concat (List.map sentBy (goroutines s)));
  (* only a return without error sets the readiness flag *)
  inv_ready :
    ready (reg s) = match pc s with InitReturned None => true | _ => false end;
  (* Initialize returns past the barrier, with the errors of the channel *)
  inv_returned :
    match pc s with
    | InitReturned err =>
        Forall (fun g => isDone g = true) (goroutines s)
        /\ err = match errChan s with
                 | [] => None
                 | _ => Some (aggregateError (errChan s))
                 end
    | _ => True
    end;
  (* the keys of the map are inbound applications *)
  inv_keys : forall app, is_Some (clientMap (reg s) !! app) -> In app InboundApps;
  (* until Close is called, a stored client is in the map *)
  inv_stored :
    existsb isClose hist = false ->
    Forall (fun g => isStored g = true -> is_Some (clientMap (reg s) !! gApp g))
      (goroutines s);
  (* one iteration of the loop and one construction per goroutine *)
  inv_loops : length (List.filter isLoop hist) = length (goroutines s);
  inv_news :
    length (List.filter isNewClient hist)
    = length (List.filter started (goroutines s));
  (* a goroutine that returned has gone through NewClient and, when it
     stored a client, through the client's readiness *)
  inv_moves :
    forall i g, goroutines s !! i = Some g ->
      (started g = true -> In (ANewClient i) hist)
      /\ (isStored g = true -> In (AClientReady i) hist);
}.

(** *** Vocabulary for the properties of the handler *)

(** The method is one of the two accepted verbs. *)
Definition accepted (r : HttpRequest) : bool :=
  String.eqb (Method r) "POST" || String.eqb (Method r) "QUERY".

(** The flag name of a request: the path after the prefix. *)
Definition featureOf (r : HttpRequest) : string :=
  TrimPrefix (URLPath r) PathPrefix.

(** The outcomes of the rejected requests, by the error they report. *)
Definition methodNotAllowed : outcome :=
  mkOutcome (Some "method not allowed") []
    (httpError "Method not allowed" StatusMethodNotAllowed).

Definition missingFlagName : outcome :=
  mkOutcome (Some "missing feature name") []
    (httpError "Feature name is required" StatusBadRequest).

Definition invalidFlagName : outcome :=
  mkOutcome (Some "invalid feature name") []
    (httpError invalidFeatureMessage StatusBadRequest).

Definition malformedBody : outcome :=
  mkOutcome (Some "invalid JSON body") []
    (httpError "Invalid JSON body" StatusBadRequest).

Definition missingCallerIdentity : outcome :=
  mkOutcome (Some "missing app_name") []
    (httpError missingAppNameMessage StatusBadRequest).

Definition unknownCaller (appName : string) : outcome :=
  mkOutcome (Some "unknown app_name") [EvGet appName]
    (httpError unknownAppNameMessage StatusBadRequest).

(** [sub] occurs in [s]. *)
Definition occursIn (sub s : string) : Prop :=
  exists pre post, s = (pre ++ sub ++ post)%string.

End Proxy.

(* ===================================================================== *)
(** ** Vocabulary for the flag names and the request bodies *)
(* ===================================================================== *)

(** The bytes of a flag name, written out: the ASCII letters, the digits
    and the ten marks [-_.~$&+:=@]. *)
Definition pathSafeBytes : string :=
  "abcdefghijklmnopqrstuvwxyzABCDEFGHIJKLMNOPQRSTUVWXYZ0123456789-_.~$&+:=@".

(** The bytes [url.PathEscape] leaves alone in a path segment: the ASCII
    letters and digits and ten marks. *)
Definition flagNameByte (c : ascii) : bool :=
  isAlnum c || oneOf c "-_.~$&+:=@".

(** A byte that a JSON string literal holds as itself: printable ASCII
    other than the quote and the backslash. *)
Definition plainByte (c : ascii) : bool :=
  (0x20 <=? byteZ c)%Z && (byteZ c <? 0x80)%Z
  && negb (Ascii.eqb c dquote) && negb (Ascii.eqb c backslash).

Definition plain (s : string) : bool :=
  forallb plainByte (list_ascii_of_string s).

(** The string literal of a plain string, followed by [rest]. *)
Definition quoted (s rest : string) : string :=
  String dquote (s ++ String dquote rest).

(** The request body of the README, without white space: an object with
    the members [navIdent], [appName] and [podName], in this order. *)
Definition requestBody (navIdent appName podName : string) : string :=
  String "{"
    (quoted "navIdent" (String ":" (quoted navIdent (String ","
    (quoted "appName" (String ":" (quoted appName (String ","
    (quoted "podName" (String ":" (quoted podName "}"))))))))))).

(* ===================================================================== *)
(** ** package nais: [init]; package main: the health endpoints and the
       startup *)
(* ===================================================================== *)

Section Main.

Context {U : Unleash} {E : Env}.

(** [init] of package nais, once the embedded YAML is parsed: [None] is the
    panic on an empty list of applications. *)
Definition init : option (list string) :=
  if (length InboundApps =? 0)%nat then None else Some InboundApps.

Definition StatusServiceUnavailable : nat := 503.

Definition okBytes : string := "OK".

(** [livenessHandler(w, r)]: the reply does not depend on the request. *)
Definition livenessHandler : HttpResponse :=
  mkHttpResponse StatusOK "text/plain" okBytes.

(** [readinessHandler(w, r)], run against the registry as it stands. *)
Definition readinessHandler (rg : registry) : HttpResponse :=
  if negb (Ready rg) then
    mkHttpResponse StatusServiceUnavailable "text/plain" "NOT READY"
  else mkHttpResponse StatusOK "text/plain" okBytes.

(** [initializeClients()], from the return of [clients.Initialize()] on:
    [Some 1] is [os.Exit(1)], [None] is the return to [main]. *)
Definition initializeClients (err : option string) : option nat :=
  match err with
  | Some _ => Some 1
  | None => None
  end.

(** *** Vocabulary for further properties of [Initialize] *)

(** Every client of the map was stored by a goroutine of its key. *)
Definition storedBy (s : state) : Prop :=
  forall app c, clientMap (reg s) !! app = Some c ->
    exists i, goroutines s !! i = Some (mkGoroutine app (GStored c)).

(** Every client of the map was constructed with the options of its key. *)
Definition ownClients (rg : registry) : Prop :=
  forall app c, clientMap rg !! app = Some c -> NewClient (clientOptions app) = inl c.

(** A move of [Initialize] or of one of its goroutines (the other moves are
    calls from outside). *)
Definition isInternal (a : action) : bool :=
  match a with
  | AGet _ | AReady | AClose => false
  | _ => true
  end.

(** The moves a goroutine has left. *)
Definition movesLeft (g : goroutine) : nat :=
  match gState g with
  | GSpawned => 2
  | GWaitForReady _ => 1
  | GFailed _ | GStored _ => 0
  end.

(** A bound on the moves [Initialize] and its goroutines have left. *)
Definition potential (s : state) : nat :=
  match pc s with
  | InitNotCalled => 3 * length InboundApps + 2
  | InitLoop rest => 3 * length rest + 1 + list_sum (List.map movesLeft (goroutines s))
  | InitReturned _ => list_sum (List.map movesLeft (goroutines s))
  end.

End Main.

(* ===================================================================== *)
(** ** package telemetry: [ConfigFromEnv]; the server address of [main] *)
(* ===================================================================== *)

(** The rest of package env: the variables the telemetry configuration and
    the server address are read from. *)
Class ServerEnv := {
  NaisAppName : string;
  NaisClusterName : string;
  OtelServiceName : string;
  OtelServiceVersion : string;
  OtelExporterOTLPEndpoint : string;
  Port : string;
}.

Definition DefaultServiceName : string := "klage-unleash-proxy".
Definition DefaultPort : string := "8080".

(** [telemetry.Config]. *)
Record Config := mkConfig {
  ServiceName : string;
  ServiceVersion : string;
  Environment : string;
  OTLPEndpoint : string;
}.

Section Telemetry.

Context {E : Env} {V : ServerEnv}.

(** [telemetry.ConfigFromEnv()]. *)
Definition ConfigFromEnv : Config :=
  let serviceName := OtelServiceName in
  let serviceName := if String.eqb serviceName "" then NaisAppName else serviceName in
  let serviceName := if String.eqb serviceName "" then DefaultServiceName else serviceName in
  let serviceVersion := OtelServiceVersion in
  let serviceVersion := if String.eqb serviceVersion "" then "unknown" else serviceVersion in
  let environment := NaisClusterName in
  let environment := if String.eqb environment "" then UnleashServerAPIEnv else environment in
  let environment := if String.eqb environment "" then "development" else environment in
  let otlpEndpoint := OtelExporterOTLPEndpoint in
  mkConfig serviceName serviceVersion environment otlpEndpoint.

(** The address [main] gives the server: [":" + port], where [port] is
    [env.Port] or, when that is empty, [env.DefaultPort]. *)
Definition serverAddr : string :=
  let port := Port in
  let port := if String.eqb port "" then DefaultPort else port in
  ":" ++ port.

End Telemetry.

(* ===================================================================== *)
(** ** package logging: the request log of [Middleware]

    (The version of the package that has [FromContext], which the handler
    calls.) *)
(* ===================================================================== *)

(** A call a handler makes on its [http.ResponseWriter]. *)
Inductive writerCall :=
  | CallHeaderSet (key value : string)   (* w.Header().Set(key, value) *)
  | CallWriteHeader (code : nat)         (* w.WriteHeader(code) *)
  | CallWrite (bytes : string).          (* w.Write(bytes) *)

(** [responseWriter]: the calls passed on to the embedded writer and the
    status code captured. *)
Record responseWriter := mkResponseWriter {
  passedOn : list writerCall;
  statusCode : nat;
}.

(** [(rw *responseWriter) WriteHeader(code)]. *)
Definition WriteHeader (rw : responseWriter) (code : nat) : responseWriter :=
  mkResponseWriter (passedOn rw ++ [CallWriteHeader code]) code.

(** A call on the wrapper: [WriteHeader] is the wrapper's own method, the
    other methods are those of the embedded writer. *)
Definition callOn (rw : responseWriter) (c : writerCall) : responseWriter :=
  match c with
  | CallWriteHeader code => WriteHeader rw code
  | _ => mkResponseWriter (passedOn rw ++ [c]) (statusCode rw)
  end.

(** [shouldSkipLogging(path)]. *)
Definition shouldSkipLogging (path : string) : bool :=
  String.eqb path "/isAlive" || String.eqb path "/isReady" || String.eqb path "/metrics".

(** The attributes of the line [Request completed] (the duration, the user
    agent and the trace ids are left out). *)
Record logEntry := mkLogEntry {
  logMethod : string;
  logPath : string;
  logStatus : nat;
  logRemoteAddr : string;
}.

(** [Middleware(next)]: a handler is given by the calls it makes on its
    writer; the result is the calls that reach the outer writer and the
    line logged, if any. *)
Definition Middleware (next : HttpRequest -> list writerCall) (r : HttpRequest)
  : list writerCall * option logEntry :=
  if shouldSkipLogging (URLPath r) then (next r, None)
  else
    let wrapped := fold_left callOn (next r) (mkResponseWriter [] StatusOK) in
    (passedOn wrapped,
     Some (mkLogEntry (Method r) (URLPath r) (statusCode wrapped) (RemoteAddr r))).

(** How the handlers of the proxy write a reply: the content type, the
    status, the body. *)
Definition writeReply (resp : HttpResponse) : list writerCall :=
  [CallHeaderSet "Content-Type" (ContentType resp);
   CallWriteHeader (StatusCode resp);
   CallWrite (ResponseBody resp)].

(** The status codes a handler passes to [WriteHeader], in order. *)
Definition headerCodes (calls : list writerCall) : list nat :=
  flat_map (fun c => match c with CallWriteHeader code => [code] | _ => [] end) calls.

(* ===================================================================== *)
(** ** Stub collaborators for the examples *)
(* ===================================================================== *)

(** A stub SDK: a client is the name it was created for, construction
    fails for the application [broken], and a flag is enabled for the user
    [U1] only. *)
Definition stubUnleash : Unleash := {|
  Client := string;
  NewClient := fun o =>
    if String.eqb (optAppName o) "broken" then inr "unleash server URL missing"
    else inl (optAppName o);
  IsEnabled := fun _ _ ctx => String.eqb (ctxUserId ctx) "U1";
|}.

Definition stubEnv (rules : list string) : Env := {|
  UnleashServerAPIURL := "http://unleash";
  UnleashServerAPIToken := "token";
  UnleashServerAPIEnv := "development";
  Rules := rules;
|}.

Definition twoApps : Env := stubEnv ["app1"; ""; "app2"].
Definition threeApps : Env := stubEnv ["app1"; "broken"; "app2"].

(** The state a schedule leads to from the initial one (the initial state
    itself when the schedule cannot be run). *)
Definition finalState (U : Unleash) (E : Env) (sched : list action) : state :=
  match run sched initState with
  | Some s => s
  | None => initState
  end.

(** A startup with two applications, in which the goroutines overlap. *)
Definition startup : list action :=
  [ACallInitialize; ALoop; AGet "app1"; ALoop; ANewClient 1; ANewClient 0;
   AReady; AClientReady 1; AGet "app2"; AClientReady 0; AWaitReturn].

(** The same startup, stopped while the client of [app2] is not ready. *)
Definition startingUp : list action :=
  [ACallInitialize; ALoop; ALoop; ANewClient 1; ANewClient 0; AClientReady 0].

(** A startup with three applications, the second of which fails. *)
Definition failedStartup : list action :=
  [ACallInitialize; ALoop; ALoop; ALoop; ANewClient 1; ANewClient 2;
   ANewClient 0; AClientReady 2; AClientReady 0; AWaitReturn].

Definition postFlag (path body : string) : HttpRequest :=
  mkHttpRequest "POST" path body "10.0.0.7:51234".

(* ===================================================================== *)
(** * Properties *)
(* ===================================================================== *)

(** ** The request validator *)

Lemma escapeBytes_length s mode :
  String.length (escapeBytes s mode) = String.length s + 2 * hexCount s mode.
Proof.
  induction s as [|c r IH]; simpl; [reflexivity|].
  destruct (Ascii.eqb c " " && encoding_eqb mode encodeQueryComponent) eqn:Hq.
  - rewrite andb_false_r. simpl. rewrite IH. lia.
  - rewrite andb_true_r. destruct (shouldEscape c mode); simpl; rewrite IH; lia.
Qed.

Lemma spaceCount_segment s : spaceCount s encodePathSegment = 0.
Proof.
  induction s as [|c r IH]; simpl; [reflexivity|].
  rewrite IH. rewrite !andb_false_r. reflexivity.
Qed.

Lemma hexCount_segment_zero s :
  hexCount s encodePathSegment = 0 <->
  forall c, In c (list_ascii_of_string s) -> shouldEscape c encodePathSegment = false.
Proof.
  induction s as [|c r IH]; simpl.
  - split; [intros _ c []|reflexivity].
  - rewrite andb_false_r, andb_true_r. split.
    + intros H d [<-|Hd].
      * destruct (shouldEscape c encodePathSegment); [discriminate|reflexivity].
      * apply IH; [|exact Hd]. destruct (shouldEscape c encodePathSegment); [discriminate|exact H].
    + intros H. rewrite (H c) by (left; reflexivity). simpl.
      apply IH. intros d Hd. apply H. right. exact Hd.
Qed.

(** [PathEscape] returns its argument exactly when no byte needs escaping. *)
Lemma PathEscape_fixed s :
  PathEscape s = s <-> hexCount s encodePathSegment = 0.
Proof.
  unfold PathEscape, escape. rewrite spaceCount_segment. simpl.
  destruct (hexCount s encodePathSegment) as [|n] eqn:Hn; simpl.
  - split; reflexivity.
  - split; [|discriminate]. intros Heq.
    pose proof (escapeBytes_length s encodePathSegment) as Hlen.
    rewrite Heq, Hn in Hlen. lia.
Qed.

Lemma PathEscape_byte c :
  PathEscape (String c EmptyString) = String c EmptyString <->
  shouldEscape c encodePathSegment = false.
Proof.
  rewrite PathEscape_fixed, hexCount_segment_zero. simpl. split.
  - intros H. apply H. left. reflexivity.
  - intros H d [<-|[]]. exact H.
Qed.

Lemma PathEscape_bytes s :
  PathEscape s = s <->
  forall c, In c (list_ascii_of_string s) ->
            PathEscape (String c EmptyString) = String c EmptyString.
Proof.
  rewrite PathEscape_fixed, hexCount_segment_zero.
  split; intros H c Hc; apply PathEscape_byte; auto.
Qed.

Example IsValidName_my_flag : IsValidName "my-flag" = true.
Proof. reflexivity. Qed.

Example IsValidName_dotdot_etc : IsValidName "../etc" = false.
Proof. reflexivity. Qed.

Lemma oneOf_In (c : ascii) (cs : string) :
  oneOf c cs = true <-> In c (list_ascii_of_string cs).
Proof.
  unfold oneOf. rewrite existsb_exists. split.
  - intros (x & Hx & Heq). apply Ascii.eqb_eq in Heq. subst x. exact Hx.
  - intros H. exists c. split; [exact H|apply Ascii.eqb_refl].
Qed.

Lemma shouldEscape_pathSafe (c : ascii) :
  shouldEscape c encodePathSegment = negb (oneOf c pathSafeBytes).
Proof.
  destruct c as [[] [] [] [] [] [] [] []]; vm_compute; reflexivity.
Qed.

Lemma pathSafe_byte (c : ascii) :
  In c (list_ascii_of_string pathSafeBytes) <->
  PathEscape (String c EmptyString) = String c EmptyString.
Proof.
  rewrite PathEscape_byte, shouldEscape_pathSafe, negb_false_iff. symmetry. apply oneOf_In.
Qed.

Lemma unsafe_byte (safe s : string) :
  (forall c, In c (list_ascii_of_string s) -> In c (list_ascii_of_string safe))
  \/ exists c, In c (list_ascii_of_string s) /\ ~ In c (list_ascii_of_string safe).
Proof.
  induction s as [|c s IH]; simpl.
  - left. intros c [].
  - destruct (oneOf c safe) eqn:Hc.
    + destruct IH as [IH|(d & Hd & Hn)].
      * left. intros d [<-|Hd]; [apply oneOf_In; exact Hc|auto].
      * right. exists d. auto.
    + right. exists c. split; [auto|]. intros H. apply oneOf_In in H. congruence.
Qed.

(** C2.  [IsValidName] is false exactly for the names of length 0, of
    length at least 101, equal to "." or "..", or holding a byte other
    than an ASCII letter, a digit or one of the marks [-_.~$&+:=@]; it is
    true for every other name, that is for the names of length 1 to 100
    made of these bytes.  These bytes are exactly the ones that
    percent-encoding for a single path segment leaves as they are, and a
    name is made of them exactly when re-encoding it gives the name
    back. *)
Theorem IsValidName_spec (name : string) :
  (IsValidName name = false <->
     String.length name = 0 \/ 101 <= String.length name \/
     name = "." \/ name = ".." \/
     exists c, In c (list_ascii_of_string name)
               /\ ~ In c (list_ascii_of_string pathSafeBytes))
  /\ (IsValidName name = true <->
        1 <= String.length name <= 100 /\ name <> "." /\ name <> ".." /\
        forall c, In c (list_ascii_of_string name) ->
                  In c (list_ascii_of_string pathSafeBytes))
  /\ (forall c, In c (list_ascii_of_string pathSafeBytes) <->
                PathEscape (String c EmptyString) = String c EmptyString)
  /\ (PathEscape name = name <->
        forall c, In c (list_ascii_of_string name) ->
                  In c (list_ascii_of_string pathSafeBytes)).
Proof.
  assert (Hesc : PathEscape name = name <->
            forall c, In c (list_ascii_of_string name) ->
                      In c (list_ascii_of_string pathSafeBytes)).
  { rewrite PathEscape_bytes. split; intros H c Hc; apply pathSafe_byte, H, Hc. }
  assert (Htrue : IsValidName name = true <->
            1 <= String.length name <= 100 /\ name <> "." /\ name <> ".." /\
            forall c, In c (list_ascii_of_string name) ->
                      In c (list_ascii_of_string pathSafeBytes)).
  { rewrite <- Hesc. unfold IsValidName.
    destruct (String.length name <? 1)%nat eqn:H1; simpl.
    { apply Nat.ltb_lt in H1. split; [discriminate|lia]. }
    destruct (100 <? String.length name)%nat eqn:H2; simpl.
    { apply Nat.ltb_lt in H2. split; [discriminate|lia]. }
    apply Nat.ltb_ge in H1, H2.
    destruct (String.eqb name ".") eqn:Hd1; simpl.
    { apply String.eqb_eq in Hd1. split; [discriminate|tauto]. }
    destruct (String.eqb name "..") eqn:Hd2; simpl.
    { apply String.eqb_eq in Hd2. split; [discriminate|tauto]. }
    apply String.eqb_neq in Hd1, Hd2. rewrite String.eqb_eq. tauto. }
  split; [|split; [exact Htrue|split; [exact pathSafe_byte|exact Hesc]]].
  destruct (IsValidName name) eqn:Hv.
  - destruct Htrue as [Ht _]. destruct (Ht eq_refl) as (Hlen & Hd1 & Hd2 & Hsafe).
    split; [discriminate|].
    intros [H|[H|[H|[H|(c & Hc & Hne)]]]]; try lia; try contradiction.
    exfalso. exact (Hne (Hsafe c Hc)).
  - split; [intros _|reflexivity].
    destruct (Nat.eq_dec (String.length name) 0) as [|Hn0]; [tauto|].
    destruct (le_dec 101 (String.length name)) as [|Hn101]; [tauto|].
    destruct (String.string_dec name ".") as [|Hd1]; [tauto|].
    destruct (String.string_dec name "..") as [|Hd2]; [tauto|].
    do 4 right.
    destruct (unsafe_byte pathSafeBytes name) as [Hall|Hex]; [|exact Hex].
    assert (false = true) as Habs; [|discriminate].
    apply Htrue. repeat split; auto; lia.
Qed.

Ltac not_in_bytes :=
  let H := fresh in
  intros H; simpl in H; repeat (destruct H as [H|H]; [discriminate H|]); exact H.

(** A path with a separator, a space, a quote and a percent sign are
    rejected, which they would not be if escaping changed nothing. *)
Lemma IsValidName_spec_witness :
  IsValidName "../etc" = false /\ IsValidName "a b" = false
  /\ IsValidName "it's" = false /\ IsValidName "50%" = false
  /\ IsValidName "my-flag" = true /\ IsValidName "a+b:c@d" = true
  /\ PathEscape "/" = "%2F" /\ PathEscape " " = "%20".
Proof.
  split; [apply (proj1 (IsValidName_spec "../etc")); do 4 right;
          exists "/"%char; split; [simpl; auto | not_in_bytes]|].
  split; [apply (proj1 (IsValidName_spec "a b")); do 4 right;
          exists " "%char; split; [simpl; auto | not_in_bytes]|].
  split; [apply (proj1 (IsValidName_spec "it's")); do 4 right;
          exists "'"%char; split; [simpl; auto | not_in_bytes]|].
  split; [apply (proj1 (IsValidName_spec "50%")); do 4 right;
          exists "%"%char; split; [simpl; auto | not_in_bytes]|].
  split; [apply (proj1 (proj2 (IsValidName_spec "my-flag")));
          split; [simpl; lia|]; split; [discriminate|]; split; [discriminate|];
          intros c Hc; apply oneOf_In; simpl in Hc;
          repeat (destruct Hc as [<-|Hc]; [reflexivity|]); destruct Hc|].
  split; [apply (proj1 (proj2 (IsValidName_spec "a+b:c@d")));
          split; [simpl; lia|]; split; [discriminate|]; split; [discriminate|];
          intros c Hc; apply oneOf_In; simpl in Hc;
          repeat (destruct Hc as [<-|Hc]; [reflexivity|]); destruct Hc|].
  split; reflexivity.
Defined.

(** ** The JSON decoder: bytes after the first value are not read *)

Lemma skipSpace_app s t :
  skipSpace s <> EmptyString -> skipSpace (s ++ t) = (skipSpace s ++ t)%string.
Proof.
  induction s as [|c r IH]; simpl; [congruence|].
  destruct (isSpace c); [exact IH|reflexivity].
Qed.

Lemma scanString_app st s raw r t :
  scanString st s = Some (raw, r) ->
  scanString st (s ++ t) = Some (raw, (r ++ t)%string).
Proof.
  revert st raw. induction s as [|c s IH]; intros st raw H; simpl in *; [discriminate|].
  assert (Hkeep : forall st',
    match scanString st' s with
    | Some (raw0, rest) => Some (String c raw0, rest)
    | None => None
    end = Some (raw, r) ->
    match scanString st' (s ++ t) with
    | Some (raw0, rest) => Some (String c raw0, rest)
    | None => None
    end = Some (raw, (r ++ t)%string)).
  { intros st' H'. destruct (scanString st' s) as [[raw0 rest]|] eqn:E; [|discriminate].
    inversion H'; subst. rewrite (IH _ _ E). reflexivity. }
  destruct st as [| |n].
  - destruct (Ascii.eqb c dquote); [inversion H; reflexivity|].
    destruct (Ascii.eqb c backslash); [auto|].
    destruct (byteZ c <? 32)%Z; [discriminate|auto].
  - destruct (oneOf c "bfnrt/" || Ascii.eqb c backslash || Ascii.eqb c dquote); [auto|].
    destruct (Ascii.eqb c "u"); [auto|discriminate].
  - destruct (isHex c); [|discriminate].
    destruct n as [|[|n]]; auto.
Qed.

Lemma scanNumber_app st s lit r t :
  scanNumber st s = Some (lit, r) -> r <> EmptyString ->
  scanNumber st (s ++ t) = Some (lit, (r ++ t)%string).
Proof.
  revert st lit. induction s as [|c s IH]; intros st lit H Hr; simpl in *.
  - destruct (numAccepting st); [inversion H; subst; congruence|discriminate].
  - destruct (numStep st c) as [st'|].
    + destruct (scanNumber st' s) as [[lit0 rest]|] eqn:E; [|discriminate].
      inversion H; subst. rewrite (IH _ _ E Hr). reflexivity.
    + destruct (numAccepting st); [|discriminate]. inversion H; subst. reflexivity.
Qed.

Lemma scanLiteral_app s v r t :
  scanLiteral s = Some (v, r) -> scanLiteral (s ++ t) = Some (v, (r ++ t)%string).
Proof.
  intros H.
  destruct s as [|c0 [|c1 [|c2 [|c3 s]]]]; try discriminate;
    try (destruct c0 as [[] [] [] [] [] [] [] []]; discriminate).
  - destruct c0 as [[] [] [] [] [] [] [] []]; try discriminate;
      destruct c1 as [[] [] [] [] [] [] [] []]; discriminate.
  - destruct c0 as [[] [] [] [] [] [] [] []]; try discriminate;
      destruct c1 as [[] [] [] [] [] [] [] []]; try discriminate;
      destruct c2 as [[] [] [] [] [] [] [] []]; discriminate.
  - destruct c0 as [[] [] [] [] [] [] [] []]; try discriminate;
      destruct c1 as [[] [] [] [] [] [] [] []]; try discriminate;
      destruct c2 as [[] [] [] [] [] [] [] []]; try discriminate;
      destruct c3 as [[] [] [] [] [] [] [] []]; try discriminate;
      try (inversion H; subst; reflexivity).
    destruct s as [|c4 s]; [discriminate|].
    destruct c4 as [[] [] [] [] [] [] [] []]; try discriminate.
    inversion H; subst; reflexivity.
Qed.


(** The parser gives the same value, with more input left over, when bytes
    are appended to its input and fuel is added.  (A number that ends with
    the input is the one value that more bytes could extend.) *)
Lemma parse_app fuel :
  (forall fuel' d s v r t, fuel <= fuel' ->
     parseValue fuel d s = Some (v, r) -> r <> EmptyString \/ notNumber v ->
     parseValue fuel' d (s ++ t) = Some (v, (r ++ t)%string))
  /\ (forall fuel' d s ms r t, fuel <= fuel' ->
        parseMembers fuel d s = Some (ms, r) ->
        parseMembers fuel' d (s ++ t) = Some (ms, (r ++ t)%string))
  /\ (forall fuel' d s vs r t, fuel <= fuel' ->
        parseElements fuel d s = Some (vs, r) ->
        parseElements fuel' d (s ++ t) = Some (vs, (r ++ t)%string)).
Proof.
  induction fuel as [|fuel (IHv & IHm & IHe)].
  { repeat split; intros; discriminate. }
  assert (Hafter : forall r3 d0 r4 t,
            skipSpace r3 = String d0 r4 ->
            r3 <> EmptyString /\ skipSpace (r3 ++ t) = String d0 (r4 ++ t)).
  { intros r3 d0 r4 t E. split; [intros ->; discriminate|].
    rewrite skipSpace_app by (rewrite E; discriminate). rewrite E. reflexivity. }
  repeat split.
  - intros [|fuel'] d s v r t Hle H Hcond; [lia|]. apply le_S_n in Hle.
    simpl in H |- *.
    destruct (skipSpace s) as [|c r0] eqn:Hs; [discriminate|].
    destruct (Hafter _ _ _ t Hs) as [_ ->].
    destruct (Ascii.eqb c "{").
    { destruct (maxNestingDepth <? d + 1)%N; [discriminate|].
      destruct (skipSpace r0) as [|c' r'] eqn:Hr0; [discriminate|].
      destruct (Hafter _ _ _ t Hr0) as [_ ->].
      destruct (Ascii.eqb c' "}"); [inversion H; reflexivity|].
      destruct (parseMembers fuel (d + 1) r0) as [[ms rest]|] eqn:Hm; [|discriminate].
      inversion H; subst. rewrite (IHm fuel' _ _ _ _ t Hle Hm). reflexivity. }
    destruct (Ascii.eqb c "[").
    { destruct (maxNestingDepth <? d + 1)%N; [discriminate|].
      destruct (skipSpace r0) as [|c' r'] eqn:Hr0; [discriminate|].
      destruct (Hafter _ _ _ t Hr0) as [_ ->].
      destruct (Ascii.eqb c' "]"); [inversion H; reflexivity|].
      destruct (parseElements fuel (d + 1) r0) as [[vs rest]|] eqn:He; [|discriminate].
      inversion H; subst. rewrite (IHe fuel' _ _ _ _ t Hle He). reflexivity. }
    destruct (Ascii.eqb c dquote).
    { destruct (scanString InString r0) as [[raw rest]|] eqn:Hstr; [|discriminate].
      inversion H; subst. rewrite (scanString_app _ _ _ _ t Hstr). reflexivity. }
    destruct (Ascii.eqb c "-" || isDigit c).
    { destruct (scanNumber _ r0) as [[lit rest]|] eqn:Hnum; [|discriminate].
      inversion H; subst.
      destruct Hcond as [Hr|Hn]; [|exfalso; eapply Hn; reflexivity].
      rewrite (scanNumber_app _ _ _ _ t Hnum Hr). reflexivity. }
    exact (scanLiteral_app (String c r0) _ _ t H).
  - intros [|fuel'] d s ms r t Hle H; [lia|]. apply le_S_n in Hle.
    simpl in H |- *.
    destruct (skipSpace s) as [|q r0] eqn:Hs; [discriminate|].
    destruct (Hafter _ _ _ t Hs) as [_ ->].
    destruct (Ascii.eqb q dquote); [|discriminate].
    destruct (scanString InString r0) as [[raw r1]|] eqn:Hstr; [|discriminate].
    rewrite (scanString_app _ _ _ _ t Hstr).
    destruct (skipSpace r1) as [|colon r2] eqn:Hr1; [discriminate|].
    destruct (Hafter _ _ _ t Hr1) as [_ ->].
    destruct (Ascii.eqb colon ":"); [|discriminate].
    destruct (parseValue fuel d r2) as [[v r3]|] eqn:Hv; [|discriminate].
    destruct (skipSpace r3) as [|d0 r4] eqn:Hr3; [discriminate|].
    destruct (Hafter _ _ _ t Hr3) as [Hne Hskip].
    rewrite (IHv fuel' _ _ _ _ t Hle Hv (or_introl Hne)), Hskip.
    destruct (Ascii.eqb d0 ",").
    { destruct (parseMembers fuel d r4) as [[ms' rest]|] eqn:Hm; [|discriminate].
      inversion H; subst. rewrite (IHm fuel' _ _ _ _ t Hle Hm). reflexivity. }
    destruct (Ascii.eqb d0 "}"); [|discriminate].
    inversion H; subst. reflexivity.
  - intros [|fuel'] d s vs r t Hle H; [lia|]. apply le_S_n in Hle.
    simpl in H |- *.
    destruct (parseValue fuel d s) as [[v r1]|] eqn:Hv; [|discriminate].
    destruct (skipSpace r1) as [|d0 r2] eqn:Hr1; [discriminate|].
    destruct (Hafter _ _ _ t Hr1) as [Hne Hskip].
    rewrite (IHv fuel' _ _ _ _ t Hle Hv (or_introl Hne)), Hskip.
    destruct (Ascii.eqb d0 ",").
    { destruct (parseElements fuel d r2) as [[vs' rest]|] eqn:He; [|discriminate].
      inversion H; subst. rewrite (IHe fuel' _ _ _ _ t Hle He). reflexivity. }
    destruct (Ascii.eqb d0 "]"); [|discriminate].
    inversion H; subst. reflexivity.
Qed.

Lemma length_app_string (s t : string) :
  String.length (s ++ t) = String.length s + String.length t.
Proof. induction s as [|c s IH]; simpl; [reflexivity|]. rewrite IH. reflexivity. Qed.

(** A body whose first value is an array, an object, a string or a literal
    keeps that first value when bytes are appended. *)
Lemma firstValue_app body v t :
  firstValue body = Some v -> notNumber v -> firstValue (body ++ t) = Some v.
Proof.
  unfold firstValue. intros H Hn.
  destruct (parseValue (fuelFor body) 0 body) as [[v' r]|] eqn:E; [|discriminate].
  inversion H; subst.
  destruct (parse_app (fuelFor body)) as (Hv & _ & _).
  rewrite (Hv (fuelFor (body ++ t)) 0%N body v r t); [reflexivity| |exact E|right; exact Hn].
  unfold fuelFor. rewrite length_app_string. lia.
Qed.

(** ** The JSON decoder: the fuel is enough *)

Lemma skipSpace_length s : String.length (skipSpace s) <= String.length s.
Proof.
  induction s as [|c r IH]; simpl; [lia|].
  destruct (isSpace c); simpl; lia.
Qed.

Lemma skipSpace_cons s c r :
  skipSpace s = String c r -> String.length r < String.length s.
Proof.
  intros H. pose proof (skipSpace_length s) as Hl. rewrite H in Hl. simpl in Hl. lia.
Qed.

Lemma scanString_length st s raw r :
  scanString st s = Some (raw, r) -> String.length r < String.length s.
Proof.
  revert st raw. induction s as [|c s IH]; intros st raw H; simpl in *; [discriminate|].
  assert (Hkeep : forall st',
    match scanString st' s with
    | Some (raw0, rest) => Some (String c raw0, rest)
    | None => None
    end = Some (raw, r) -> String.length r < S (String.length s)).
  { intros st' H'. destruct (scanString st' s) as [[raw0 rest]|] eqn:E; [|discriminate].
    inversion H'; subst. specialize (IH _ _ E). lia. }
  destruct st as [| |n].
  - destruct (Ascii.eqb c dquote); [inversion H; subst; lia|].
    destruct (Ascii.eqb c backslash); [eauto|].
    destruct (byteZ c <? 32)%Z; [discriminate|eauto].
  - destruct (oneOf c "bfnrt/" || Ascii.eqb c backslash || Ascii.eqb c dquote); [eauto|].
    destruct (Ascii.eqb c "u"); [eauto|discriminate].
  - destruct (isHex c); [|discriminate].
    destruct n as [|[|n]]; eauto.
Qed.

Lemma scanNumber_length st s lit r :
  scanNumber st s = Some (lit, r) -> String.length r <= String.length s.
Proof.
  revert st lit. induction s as [|c s IH]; intros st lit H; simpl in *.
  - destruct (numAccepting st); [inversion H; subst; simpl; lia|discriminate].
  - destruct (numStep st c) as [st'|].
    + destruct (scanNumber st' s) as [[lit0 rest]|] eqn:E; [|discriminate].
      inversion H; subst. specialize (IH _ _ E). lia.
    + destruct (numAccepting st); [|discriminate]. inversion H; subst. simpl. lia.
Qed.

Lemma scanLiteral_length s v r :
  scanLiteral s = Some (v, r) -> String.length r < String.length s.
Proof.
  intros H.
  destruct s as [|c0 [|c1 [|c2 [|c3 s]]]]; try discriminate;
    try (destruct c0 as [[] [] [] [] [] [] [] []]; discriminate).
  - destruct c0 as [[] [] [] [] [] [] [] []]; try discriminate;
      destruct c1 as [[] [] [] [] [] [] [] []]; discriminate.
  - destruct c0 as [[] [] [] [] [] [] [] []]; try discriminate;
      destruct c1 as [[] [] [] [] [] [] [] []]; try discriminate;
      destruct c2 as [[] [] [] [] [] [] [] []]; discriminate.
  - destruct c0 as [[] [] [] [] [] [] [] []]; try discriminate;
      destruct c1 as [[] [] [] [] [] [] [] []]; try discriminate;
      destruct c2 as [[] [] [] [] [] [] [] []]; try discriminate;
      destruct c3 as [[] [] [] [] [] [] [] []]; try discriminate;
      try (inversion H; subst; simpl; lia).
    destruct s as [|c4 s]; [discriminate|].
    destruct c4 as [[] [] [] [] [] [] [] []]; try discriminate.
    inversion H; subst; simpl; lia.
Qed.

(** A successful parse consumes input, and twice as much fuel as it
    consumes bytes is enough for it. *)
Lemma parse_fuel fuel :
  (forall d s v r, parseValue fuel d s = Some (v, r) ->
     String.length r < String.length s
     /\ forall f, 2 * (String.length s - String.length r) <= f ->
                  parseValue f d s = Some (v, r))
  /\ (forall d s ms r, parseMembers fuel d s = Some (ms, r) ->
        String.length r < String.length s
        /\ forall f, 2 * (String.length s - String.length r) <= f ->
                     parseMembers f d s = Some (ms, r))
  /\ (forall d s vs r, parseElements fuel d s = Some (vs, r) ->
        String.length r < String.length s
        /\ forall f, 2 * (String.length s - String.length r) <= f ->
                     parseElements f d s = Some (vs, r)).
Proof.
  induction fuel as [|fuel (IHv & IHm & IHe)].
  { repeat split; intros; discriminate. }
  repeat apply conj.
  - intros d s v r H. simpl in H.
    destruct (skipSpace s) as [|c r0] eqn:Hs; [discriminate|].
    pose proof (skipSpace_cons _ _ _ Hs) as Hl0.
    assert (Hgoal :
      (String.length r <= String.length r0) ->
      (forall f, 2 * (String.length s - String.length r) <= S f ->
                 parseValue (S f) d s = Some (v, r)) ->
      String.length r < String.length s
      /\ forall f, 2 * (String.length s - String.length r) <= f ->
                   parseValue f d s = Some (v, r)).
    { intros Hr Hf. split; [lia|]. intros [|f] Hle; [lia|]. apply Hf. exact Hle. }
    apply Hgoal; clear Hgoal.
    + destruct (Ascii.eqb c "{").
      { destruct (maxNestingDepth <? d + 1)%N; [discriminate|].
        destruct (skipSpace r0) as [|c' r'] eqn:Hr0; [discriminate|].
        pose proof (skipSpace_cons _ _ _ Hr0).
        destruct (Ascii.eqb c' "}"); [inversion H; subst; lia|].
        destruct (parseMembers fuel (d + 1) r0) as [[ms rest]|] eqn:Hm; [|discriminate].
        inversion H; subst. destruct (IHm _ _ _ _ Hm). lia. }
      destruct (Ascii.eqb c "[").
      { destruct (maxNestingDepth <? d + 1)%N; [discriminate|].
        destruct (skipSpace r0) as [|c' r'] eqn:Hr0; [discriminate|].
        pose proof (skipSpace_cons _ _ _ Hr0).
        destruct (Ascii.eqb c' "]"); [inversion H; subst; lia|].
        destruct (parseElements fuel (d + 1) r0) as [[vs rest]|] eqn:He; [|discriminate].
        inversion H; subst. destruct (IHe _ _ _ _ He). lia. }
      destruct (Ascii.eqb c dquote).
      { destruct (scanString InString r0) as [[raw rest]|] eqn:Hstr; [|discriminate].
        inversion H; subst. pose proof (scanString_length _ _ _ _ Hstr). lia. }
      destruct (Ascii.eqb c "-" || isDigit c).
      { destruct (scanNumber _ r0) as [[lit rest]|] eqn:Hnum; [|discriminate].
        inversion H; subst. exact (scanNumber_length _ _ _ _ Hnum). }
      pose proof (scanLiteral_length (String c r0) _ _ H) as Hl. simpl in Hl. lia.
    + intros f Hle. simpl. rewrite Hs.
      destruct (Ascii.eqb c "{").
      { destruct (maxNestingDepth <? d + 1)%N; [discriminate|].
        destruct (skipSpace r0) as [|c' r'] eqn:Hr0; [discriminate|].
        destruct (Ascii.eqb c' "}"); [exact H|].
        destruct (parseMembers fuel (d + 1) r0) as [[ms rest]|] eqn:Hm; [|discriminate].
        inversion H; subst. destruct (IHm _ _ _ _ Hm) as [Hlt Hf].
        rewrite Hf by lia. reflexivity. }
      destruct (Ascii.eqb c "[").
      { destruct (maxNestingDepth <? d + 1)%N; [discriminate|].
        destruct (skipSpace r0) as [|c' r'] eqn:Hr0; [discriminate|].
        destruct (Ascii.eqb c' "]"); [exact H|].
        destruct (parseElements fuel (d + 1) r0) as [[vs rest]|] eqn:He; [|discriminate].
        inversion H; subst. destruct (IHe _ _ _ _ He) as [Hlt Hf].
        rewrite Hf by lia. reflexivity. }
      exact H.
  - intros d s ms r H. simpl in H.
    destruct (skipSpace s) as [|q r0] eqn:Hs; [discriminate|].
    pose proof (skipSpace_cons _ _ _ Hs) as Hl0.
    destruct (Ascii.eqb q dquote) eqn:Hq; [|discriminate].
    destruct (scanString InString r0) as [[raw r1]|] eqn:Hstr; [|discriminate].
    pose proof (scanString_length _ _ _ _ Hstr) as Hl1.
    destruct (skipSpace r1) as [|colon r2] eqn:Hr1; [discriminate|].
    pose proof (skipSpace_cons _ _ _ Hr1) as Hl2.
    destruct (Ascii.eqb colon ":") eqn:Hcolon; [|discriminate].
    destruct (parseValue fuel d r2) as [[v r3]|] eqn:Hv; [|discriminate].
    destruct (IHv _ _ _ _ Hv) as [Hl3 Hfv].
    destruct (skipSpace r3) as [|d0 r4] eqn:Hr3; [discriminate|].
    pose proof (skipSpace_cons _ _ _ Hr3) as Hl4.
    destruct (Ascii.eqb d0 ",") eqn:Hcomma.
    { destruct (parseMembers fuel d r4) as [[ms' rest]|] eqn:Hm; [|discriminate].
      inversion H; subst. destruct (IHm _ _ _ _ Hm) as [Hl5 Hfm].
      split; [lia|]. intros [|f] Hle; [lia|]. simpl.
      rewrite Hs, Hq, Hstr, Hr1, Hcolon, Hfv, Hr3, Hcomma, Hfm by lia. reflexivity. }
    destruct (Ascii.eqb d0 "}") eqn:Hclose; [|discriminate].
    inversion H; subst. split; [lia|]. intros [|f] Hle; [lia|]. simpl.
    rewrite Hs, Hq, Hstr, Hr1, Hcolon, Hfv, Hr3, Hcomma, Hclose by lia. reflexivity.
  - intros d s vs r H. simpl in H.
    destruct (parseValue fuel d s) as [[v r1]|] eqn:Hv; [|discriminate].
    destruct (IHv _ _ _ _ Hv) as [Hl1 Hfv].
    destruct (skipSpace r1) as [|d0 r2] eqn:Hr1; [discriminate|].
    pose proof (skipSpace_cons _ _ _ Hr1) as Hl2.
    destruct (Ascii.eqb d0 ",") eqn:Hcomma.
    { destruct (parseElements fuel d r2) as [[vs' rest]|] eqn:He; [|discriminate].
      inversion H; subst. destruct (IHe _ _ _ _ He) as [Hl3 Hfe].
      split; [lia|]. intros [|f] Hle; [lia|]. simpl.
      rewrite Hfv, Hr1, Hcomma, Hfe by lia. reflexivity. }
    destruct (Ascii.eqb d0 "]") eqn:Hclose; [|discriminate].
    inversion H; subst. split; [lia|]. intros [|f] Hle; [lia|]. simpl.
    rewrite Hfv, Hr1, Hcomma, Hclose by lia. reflexivity.
Qed.

(** [fuelFor] is enough: more fuel never changes what [parseValue] returns,
    so [Decode] fails on a body only when no first value can be read. *)
Lemma fuelFor_enough (body : string) (fuel : nat) :
  fuelFor body <= fuel ->
  parseValue fuel 0 body = parseValue (fuelFor body) 0 body.
Proof.
  intros Hle.
  destruct (parseValue fuel 0 body) as [[v r]|] eqn:H1.
  - destruct (parse_fuel fuel) as (Hv & _ & _).
    destruct (Hv _ _ _ _ H1) as [_ Hf]. symmetry. apply Hf. unfold fuelFor. lia.
  - destruct (parseValue (fuelFor body) 0 body) as [[v r]|] eqn:H2; [|reflexivity].
    destruct (parse_fuel (fuelFor body)) as (Hv & _ & _).
    destruct (Hv _ _ _ _ H2) as [_ Hf]. rewrite Hf in H1; [discriminate|].
    unfold fuelFor in Hle. lia.
Qed.

(** ** Storing the members of an object into the request *)

Lemma storeField_saved f v st e :
  snd st = Some e -> snd (storeField f v st) = Some e.
Proof. destruct st as [req saved]; simpl; intros ->. destruct v; reflexivity. Qed.

Lemma storeMembers_saved ms st e :
  snd st = Some e -> snd (storeMembers ms st) = Some e.
Proof.
  revert st. induction ms as [|[k v] ms IH]; intros st Hst; simpl; [exact Hst|].
  destruct (lookupField k) as [f|]; apply IH; [|exact Hst].
  apply storeField_saved. exact Hst.
Qed.

(** No type error is saved when every member is storable, and one is saved
    when some member is not. *)
Lemma storeMembers_storable ms req :
  snd (storeMembers ms (req, None)) = None <-> forallb storable ms = true.
Proof.
  revert req. induction ms as [|[k v] ms IH]; intros req; simpl; [tauto|].
  unfold storable at 1. simpl.
  destruct (lookupField k) as [f|]; simpl; [|apply IH].
  destruct v; simpl; try apply IH;
    (rewrite (storeMembers_saved ms (req, Some _) _ eq_refl); split; discriminate).
Qed.

(** Members whose name selects no field are ignored. *)
Lemma storeMembers_known ms st :
  storeMembers ms st = storeMembers (List.filter isKnown ms) st.
Proof.
  revert st. induction ms as [|[k v] ms IH]; intros st; simpl; [reflexivity|].
  unfold isKnown at 1. simpl.
  destruct (lookupField k) as [f|] eqn:Hk; simpl; [rewrite Hk|]; apply IH.
Qed.

Lemma getField_setField f g s req :
  f <> g -> getField f (setField g s req) = getField f req.
Proof. destruct f, g; simpl; congruence. Qed.

(** A field that no member selects keeps the value it had. *)
Lemma storeMembers_absent f ms st :
  (forall m, In m ms -> lookupField (fst m) <> Some f) ->
  getField f (fst (storeMembers ms st)) = getField f (fst st).
Proof.
  revert st. induction ms as [|[k v] ms IH]; intros st H; simpl; [reflexivity|].
  assert (Hms : forall m, In m ms -> lookupField (fst m) <> Some f)
    by (intros m Hm; apply H; right; exact Hm).
  specialize (H (k, v) (or_introl eq_refl)). simpl in H.
  destruct (lookupField k) as [g|]; [|apply IH; exact Hms].
  rewrite (IH _ Hms). destruct st as [req saved].
  destruct v; simpl; try reflexivity.
  apply getField_setField. congruence.
Qed.

(** The errors that storing members saves are type errors. *)
Lemma storeMembers_error ms st :
  match snd st with Some SyntaxError => False | _ => True end ->
  match snd (storeMembers ms st) with Some SyntaxError => False | _ => True end.
Proof.
  revert st. induction ms as [|[k v] ms IH]; intros st Hst; simpl; [exact Hst|].
  destruct (lookupField k) as [f|]; apply IH; [|exact Hst].
  destruct st as [req [e|]]; destruct v; simpl in *; auto.
Qed.

(** What [Decode] returns for a body whose first value is an object. *)
Lemma Decode_object (body : string) (ms : list (string * json)) :
  firstValue body = Some (JObject ms) ->
  (forallb storable ms = true ->
     Decode body = inl (fst (storeMembers (List.filter isKnown ms) (zeroRequest, None))))
  /\ (forallb storable ms = false ->
        exists value fieldName, Decode body = inr (UnmarshalTypeError value fieldName)).
Proof.
  intros Hfirst. unfold Decode. rewrite Hfirst. simpl.
  pose proof (storeMembers_storable ms zeroRequest) as Hst.
  rewrite <- (storeMembers_known ms).
  destruct (storeMembers ms (zeroRequest, None)) as [req [e|]] eqn:Hs; simpl in *.
  - split; intros Hall.
    + apply Hst in Hall. discriminate.
    + pose proof (storeMembers_error ms (zeroRequest, None) I) as He.
      rewrite Hs in He. destruct e as [|value fld]; [destruct He|eauto].
  - split; intros Hall; [reflexivity|].
    destruct Hst as [Hst _]. rewrite Hst in Hall by reflexivity. discriminate.
Qed.

(* ===================================================================== *)
(** ** The handler *)
(* ===================================================================== *)

Lemma append_assoc (x y z : string) : ((x ++ y) ++ z = x ++ y ++ z)%string.
Proof.
  induction x as [|c x IH]; [reflexivity|].
  change (String c ((x ++ y) ++ z) = String c (x ++ y ++ z))%string.
  rewrite IH. reflexivity.
Qed.

Lemma append_empty_r (x : string) : (x ++ "" = x)%string.
Proof.
  induction x as [|c x IH]; [reflexivity|].
  change (String c (x ++ "") = String c x)%string. rewrite IH. reflexivity.
Qed.

Lemma occursIn_append_l (sub s p : string) :
  occursIn sub s -> occursIn sub (p ++ s).
Proof.
  intros (pre & post & ->). exists (p ++ pre)%string, post.
  rewrite append_assoc. reflexivity.
Qed.

Lemma occursIn_append_r (sub s q : string) :
  occursIn sub s -> occursIn sub (s ++ q).
Proof.
  intros (pre & post & ->). exists pre, (post ++ q)%string.
  rewrite !append_assoc. reflexivity.
Qed.

Lemma occursIn_Join (app : string) (apps : list string) (sep : string) :
  In app apps -> occursIn app (Join apps sep).
Proof.
  unfold Join. induction apps as [|a apps IH]; intros Hin; [destruct Hin|].
  destruct apps as [|b apps].
  - destruct Hin as [->|[]]. exists EmptyString, EmptyString. simpl.
    rewrite append_empty_r. reflexivity.
  - change (String.concat sep (a :: b :: apps))
      with (a ++ sep ++ String.concat sep (b :: apps))%string.
    destruct Hin as [->|Hin].
    + exists EmptyString, (sep ++ String.concat sep (b :: apps))%string. reflexivity.
    + rewrite <- append_assoc. apply occursIn_append_l, IH, Hin.
Qed.

Section HandlerProperties.

Context {U : Unleash} {E : Env}.

(** Past the checks of the method and of the flag name, the handler is
    decided by the body and by the registry. *)
Lemma Handler_checked (rg : registry) (r : HttpRequest) :
  accepted r = true -> IsValidName (featureOf r) = true ->
  Handler rg r =
    match Decode (Body r) with
    | inr _ => malformedBody
    | inl req =>
        if String.eqb (AppName req) "" then missingCallerIdentity
        else
          match Get rg (AppName req) with
          | None => unknownCaller (AppName req)
          | Some client =>
              mkOutcome None
                [EvGet (AppName req);
                 EvIsEnabled client (featureOf r) (unleashCtx r req)]
                (mkHttpResponse StatusOK "application/json"
                   (encodeResponse (IsEnabled client (featureOf r) (unleashCtx r req))))
          end
    end.
Proof.
  unfold accepted, featureOf, Handler. intros Hm Hv.
  destruct (String.eqb (Method r) "POST"), (String.eqb (Method r) "QUERY");
    try discriminate; simpl; rewrite Hv; simpl;
    (destruct (String.eqb (TrimPrefix (URLPath r) PathPrefix) "") eqn:He;
     [apply String.eqb_eq in He; rewrite He in Hv; discriminate|reflexivity]).
Qed.

(** A request that fails one of the first three checks gets no further. *)
Lemma Handler_rejected (rg : registry) (r : HttpRequest) :
  IsValidName (featureOf r) = false ->
  Handler rg r =
    if negb (accepted r) then methodNotAllowed
    else if String.eqb (featureOf r) "" then missingFlagName
    else invalidFlagName.
Proof.
  unfold accepted, featureOf, Handler. intros Hv.
  destruct (String.eqb (Method r) "POST"), (String.eqb (Method r) "QUERY");
    simpl; try reflexivity; rewrite Hv; reflexivity.
Qed.

(** C3.  A request with an accepted method, a valid flag name, a body that
    decodes and names a caller whose client the registry holds, is answered
    with status 200 and the body [{"enabled": b}], [b] being what that
    client's [IsEnabled] returns for the flag under the context built from
    the request (environment, user id, application name, remote address and
    the property [podName]).  The handler looks the client up once and
    evaluates once. *)
Theorem Handler_success (rg : registry) (r : HttpRequest) (req : Request)
    (client : Client) :
  Method r = "POST" \/ Method r = "QUERY" ->
  IsValidName (TrimPrefix (URLPath r) PathPrefix) = true ->
  Decode (Body r) = inl req ->
  AppName req <> "" ->
  Get rg (AppName req) = Some client ->
  let feature := TrimPrefix (URLPath r) PathPrefix in
  let ctx :=
    mkUnleashContext UnleashServerAPIEnv (NavIdent req) (AppName req)
      (RemoteAddr r) {[ "podName" := PodName req ]} in
  let b := IsEnabled client feature ctx in
  Handler rg r =
    mkOutcome None [EvGet (AppName req); EvIsEnabled client feature ctx]
      (mkHttpResponse 200 "application/json"
         (dq "{'enabled':" ++ (if b then "true" else "false") ++ "}" ++ newline)).
Proof.
  intros Hm Hv Hd Hne Hget. simpl.
  rewrite Handler_checked.
  - rewrite Hd. apply String.eqb_neq in Hne. rewrite Hne, Hget. reflexivity.
  - unfold accepted. destruct Hm as [-> | ->]; reflexivity.
  - exact Hv.
Qed.


(** C7 (amended).  A request whose path after the prefix fails
    [IsValidName] is rejected with a client-error status and without a
    lookup in the registry; when its method is accepted and that path is
    not empty, the rejection is the invalid-flag-name error (status 400). *)
Theorem Handler_invalid_name (rg : registry) (r : HttpRequest) :
  IsValidName (featureOf r) = false ->
  events (Handler rg r) = []
  /\ isClientError (StatusCode (response (Handler rg r))) = true
  /\ (accepted r = true -> featureOf r <> "" -> Handler rg r = invalidFlagName).
Proof.
  intros Hv. rewrite (Handler_rejected rg r Hv).
  destruct (accepted r); simpl.
  - destruct (String.eqb (featureOf r) "") eqn:He; repeat split; try reflexivity.
    + intros _ Hne. apply String.eqb_eq in He. contradiction.
  - repeat split; discriminate.
Qed.

(** C8.  When the handler has parsed the body (the method is accepted, the
    flag name is valid, the body decodes) and the caller identity is
    empty, it fails with the missing-caller-identity error: status 400, a
    message in which every allowed identity occurs, no lookup in the
    registry and no evaluation. *)
Theorem Handler_missing_caller (rg : registry) (r : HttpRequest) (req : Request) :
  accepted r = true ->
  IsValidName (featureOf r) = true ->
  Decode (Body r) = inl req ->
  AppName req = "" ->
  Handler rg r = missingCallerIdentity
  /\ events (Handler rg r) = []
  /\ StatusCode (response (Handler rg r)) = 400
  /\ isClientError (StatusCode (response (Handler rg r))) = true
  /\ forall app, In app InboundApps -> occursIn app (ResponseBody (response (Handler rg r))).
Proof.
  intros Ha Hv Hd Hempty.
  assert (Handler rg r = missingCallerIdentity) as ->.
  { rewrite (Handler_checked rg r Ha Hv), Hd, Hempty. reflexivity. }
  repeat split; try reflexivity.
  intros app Hin.
  change (ResponseBody (response missingCallerIdentity))
    with (missingAppNameMessage ++ newline)%string.
  apply occursIn_append_r. unfold missingAppNameMessage.
  apply occursIn_append_l, occursIn_Join, Hin.
Qed.

(** C10 (amended).  For a request that reaches the decoding of its body:
    the malformed-body error is the outcome exactly when [Decode] fails,
    as it does on the empty body.  A body whose first value is an object
    decodes as the same body followed by any bytes; it is accepted exactly
    when each member that selects one of the three fields holds a string or
    [null]; members that select no field are ignored and a field that no
    member selects is the empty string.  The body [{}] gives the
    missing-caller-identity error. *)
Theorem Handler_body (rg : registry) (r : HttpRequest) :
  accepted r = true ->
  IsValidName (featureOf r) = true ->
  (Handler rg r = malformedBody <-> exists e, Decode (Body r) = inr e)
  /\ Decode "" = inr SyntaxError
  /\ (forall ms, firstValue (Body r) = Some (JObject ms) ->
        (forall t, Decode (Body r ++ t) = Decode (Body r))
        /\ (forallb storable ms = true ->
              exists req,
                Decode (Body r) = inl req
                /\ (req, None) = storeMembers (List.filter isKnown ms) (zeroRequest, None)
                /\ forall f, (forall m, In m ms -> lookupField (fst m) <> Some f) ->
                             getField f req = "")
        /\ (forallb storable ms = false -> Handler rg r = malformedBody))
  /\ (Body r = "{}" -> Handler rg r = missingCallerIdentity).
Proof.
  intros Ha Hv. rewrite (Handler_checked rg r Ha Hv).
  split; [|split; [reflexivity|split]].
  - destruct (Decode (Body r)) as [req|e].
    + split; [|intros [e He]; discriminate].
      destruct (String.eqb (AppName req) ""); [discriminate|].
      destruct (Get rg (AppName req)); discriminate.
    + split; eauto.
  - intros ms Hfirst.
    destruct (Decode_object _ _ Hfirst) as [Hok Hbad].
    split; [|split].
    + intros t. unfold Decode.
      rewrite (firstValue_app _ _ t Hfirst), Hfirst; [reflexivity|].
      intros lit. discriminate.
    + intros Hall. rewrite (Hok Hall). eexists. split; [reflexivity|].
      pose proof (storeMembers_storable ms zeroRequest) as [_ Hst].
      specialize (Hst Hall). rewrite (storeMembers_known ms) in Hst.
      split.
      * rewrite (surjective_pairing (storeMembers _ _)), Hst. reflexivity.
      * intros f Habsent. rewrite <- (storeMembers_known ms).
        rewrite (storeMembers_absent f ms _ Habsent). destruct f; reflexivity.
    + intros Hall. destruct (Hbad Hall) as (value & fld & ->). reflexivity.
  - intros ->. reflexivity.
Qed.

End HandlerProperties.

(* ===================================================================== *)
(** ** The registry: [Initialize], [Get], [Ready], [Close] *)
(* ===================================================================== *)

Section RegistryProperties.

Context {U : Unleash} {E : Env}.

Local Open Scope list_scope.

Lemma insert_middle {A} (l1 l2 : list A) (x y : A) :
  <[length l1 := y]> (l1 ++ x :: l2) = l1 ++ y :: l2.
Proof. induction l1 as [|z l1 IH]; simpl; [reflexivity|]. rewrite IH. reflexivity. Qed.

Lemma lookup_middle {A} (l : list A) (i : nat) (x : A) :
  l !! i = Some x -> exists l1 l2, l = l1 ++ x :: l2 /\ i = length l1.
Proof. apply list_elem_of_split_length. Qed.

Lemma lookup_middle_inv {A} (l1 l2 : list A) (x : A) (i : nat) (y : A) :
  (l1 ++ x :: l2) !! i = Some y ->
  i = length l1 /\ y = x \/ (i <> length l1 /\ forall z, (l1 ++ z :: l2) !! i = Some y).
Proof.
  intros H. destruct (Nat.eq_dec i (length l1)) as [->|Hne].
  - left. rewrite list_lookup_middle in H by reflexivity. inversion H. auto.
  - right. split; [exact Hne|]. intros z.
    destruct (Nat.lt_ge_cases i (length l1)) as [Hlt|Hge].
    + rewrite lookup_app_l in H |- * by exact Hlt. exact H.
    + rewrite lookup_app_r in H |- * by exact Hge.
      destruct (i - length l1) as [|k] eqn:Hk; [lia|]. exact H.
Qed.

Lemma run_app (sched1 sched2 : list action) (s : state) :
  run (sched1 ++ sched2) s =
    match run sched1 s with
    | Some s1 => run sched2 s1
    | None => None
    end.
Proof.
  revert s. induction sched1 as [|a sched1 IH]; intros s; simpl; [reflexivity|].
  destruct (step a s); [apply IH|reflexivity].
Qed.

Lemma Inv_init : Inv [] initState.
Proof.
  constructor; simpl; auto using Permutation_refl.
  - intros app [c Hc]. rewrite lookup_empty in Hc. discriminate.
  - intros i g Hg. rewrite lookup_nil in Hg. discriminate.
Qed.

(** The moves that leave the goroutines and [errChan] alone. *)
Lemma Inv_frame hist s a rg' pc' :
  Inv hist s ->
  isLoop a = false -> isNewClient a = false ->
  (existsb isClose (hist ++ [a]) = false -> clientMap rg' = clientMap (reg s)) ->
  (forall app, is_Some (clientMap rg' !! app) -> is_Some (clientMap (reg s) !! app)) ->
  ready rg' = match pc' with InitReturned None => true | _ => false end ->
  match pc' with
  | InitNotCalled => goroutines s = [] /\ errChan s = [] /\ wg s = 0
  | InitLoop rest => (List.map gApp (goroutines s) ++ rest)%list = InboundApps
  | InitReturned err =>
      List.map gApp (goroutines s) = InboundApps
      /\ Forall (fun g => isDone g = true) (goroutines s)
      /\ err = match errChan s with
               | [] => None
               | _ => Some (aggregateError (errChan s))
               end
  end ->
  Inv (hist ++ [a]) (mkState rg' pc' (wg s) (goroutines s) (errChan s)).
Proof.
  intros [] Hl Hn Hmap Hkeys Hready Hpc.
  constructor; simpl; auto.
  - destruct pc'; tauto.
  - destruct pc'; tauto.
  - intros Hc. rewrite (Hmap Hc). apply inv_stored0.
    rewrite existsb_app in Hc. apply orb_false_iff in Hc. tauto.
  - rewrite List.filter_app, length_app. simpl. rewrite Hl. simpl. lia.
  - rewrite List.filter_app, length_app. simpl. rewrite Hn. simpl. lia.
  - intros i g Hg. destruct (inv_moves0 i g Hg) as [H1 H2].
    split; intros H; apply in_or_app; left; auto.
Qed.

(** A move of goroutine [i] from [g] to [g']. *)
Lemma Inv_update hist s a i g g' rg' wg' ch' :
  Inv hist s ->
  goroutines s !! i = Some g ->
  gApp g' = gApp g -> isDone g = false -> sentBy g = [] -> isStored g = false ->
  constructed g' ->
  wg' = wg s - (if isDone g' then 1 else 0) ->
  Permutation ch' (sentBy g' ++ errChan s) ->
  isLoop a = false -> isClose a = false ->
  (if isNewClient a then 1 else 0) + (if started g then 1 else 0)
    = (if started g' then 1 else 0) ->
  (started g' = true -> In (ANewClient i) (hist ++ [a])) ->
  (isStored g' = true -> In (AClientReady i) (hist ++ [a])) ->
  ready rg' = ready (reg s) ->
  (forall app, is_Some (clientMap rg' !! app) ->
               is_Some (clientMap (reg s) !! app) \/ app = gApp g) ->
  (forall app, is_Some (clientMap (reg s) !! app) -> is_Some (clientMap rg' !! app)) ->
  (isStored g' = true -> is_Some (clientMap rg' !! gApp g)) ->
  Inv (hist ++ [a]) (mkState rg' (pc s) wg' (<[i := g']> (goroutines s)) ch').
Proof.
  intros [] Hi Happ Hdone Hsent Hnst Hcon Hwg Hch Hl Hc Hn Hm1 Hm2 Hready Hkeys Hmono Hst.
  destruct (lookup_middle _ _ _ Hi) as (l1 & l2 & Hgs & ->).
  rewrite Hgs in *. rewrite insert_middle. clear Hgs Hi.
  rewrite List.map_app in inv_apps0. simpl in inv_apps0.
  rewrite List.filter_app, length_app in inv_wg0, inv_news0. simpl in inv_wg0, inv_news0.
  rewrite Hdone in inv_wg0. simpl in inv_wg0.
  rewrite List.map_app, List.concat_app in inv_errChan0. simpl in inv_errChan0.
  rewrite Hsent in inv_errChan0. simpl in inv_errChan0.
  apply Forall_app in inv_constructed0 as [Hc1 Hc2]. apply Forall_cons in Hc2 as [_ Hc2].
  assert (Hin : In (gApp g) InboundApps).
  { destruct (pc s); [destruct inv_apps0 as [H _]; destruct l1; discriminate| |];
      rewrite <- inv_apps0; rewrite ?in_app_iff; simpl; tauto. }
  constructor; simpl.
  - destruct (pc s); [destruct inv_apps0 as [H _]; destruct l1; discriminate| |];
      rewrite List.map_app; simpl; rewrite Happ; exact inv_apps0.
  - apply Forall_app. split; [exact Hc1|]. apply Forall_cons. split; assumption.
  - rewrite List.filter_app, length_app. simpl. subst wg'.
    destruct (isDone g'); simpl; lia.
  - rewrite List.map_app, List.concat_app. simpl.
    rewrite Hch, inv_errChan0, !app_assoc.
    apply Permutation_app_tail, Permutation_app_comm.
  - rewrite Hready. exact inv_ready0.
  - destruct (pc s) as [| |err]; [exact I|exact I|].
    destruct inv_returned0 as [Hall _]. apply Forall_app in Hall as [_ Hall].
    apply Forall_cons in Hall as [Hg _]. congruence.
  - intros app Happ'. destruct (Hkeys app Happ') as [H| ->]; auto.
  - intros Hcl. rewrite existsb_app in Hcl. apply orb_false_iff in Hcl as [Hcl _].
    specialize (inv_stored0 Hcl).
    apply Forall_app in inv_stored0 as [Hs1 Hs2]. apply Forall_cons in Hs2 as [_ Hs2].
    apply Forall_app. split; [|apply Forall_cons; split].
    + eapply Forall_impl; [exact Hs1|]. simpl. intros x Hx Hxs. apply Hmono, Hx, Hxs.
    + rewrite Happ. exact Hst.
    + eapply Forall_impl; [exact Hs2|]. simpl. intros x Hx Hxs. apply Hmono, Hx, Hxs.
  - rewrite List.filter_app, !length_app. simpl. rewrite Hl. simpl.
    rewrite !length_app in inv_loops0. simpl in *. lia.
  - rewrite !List.filter_app, !length_app. simpl.
    destruct (isNewClient a), (started g), (started g'); simpl in *; lia.
  - intros j x Hx. destruct (lookup_middle_inv _ _ _ _ _ Hx) as [[-> ->]|[Hne Hother]].
    + split; assumption.
    + destruct (inv_moves0 j x (Hother g)) as [H1 H2].
      split; intros H; apply in_or_app; left; auto.
Qed.

Lemma Inv_loop hist s appName rest :
  Inv hist s -> pc s = InitLoop (appName :: rest) ->
  Inv (hist ++ [ALoop])
    (mkState (reg s) (InitLoop rest) (S (wg s))
       (goroutines s ++ [mkGoroutine appName GSpawned]) (errChan s)).
Proof.
  intros [] Hpc. rewrite Hpc in *.
  constructor; simpl.
  - rewrite List.map_app, <- app_assoc. exact inv_apps0.
  - apply Forall_app. split; [exact inv_constructed0|].
    apply Forall_cons. split; [exact I|constructor].
  - rewrite List.filter_app, length_app. simpl. lia.
  - rewrite List.map_app, List.concat_app. simpl. rewrite app_nil_r. exact inv_errChan0.
  - exact inv_ready0.
  - exact I.
  - exact inv_keys0.
  - intros Hc. rewrite existsb_app in Hc. apply orb_false_iff in Hc as [Hc _].
    apply Forall_app. split; [exact (inv_stored0 Hc)|].
    apply Forall_cons. split; [discriminate|constructor].
  - rewrite List.filter_app, !length_app. simpl. lia.
  - rewrite !List.filter_app, !length_app. simpl. lia.
  - intros i g Hg.
    destruct (Nat.lt_ge_cases i (length (goroutines s))) as [Hlt|Hge].
    + rewrite lookup_app_l in Hg by exact Hlt.
      destruct (inv_moves0 i g Hg) as [H1 H2].
      split; intros H; apply in_or_app; left; auto.
    + rewrite lookup_app_r in Hg by exact Hge.
      destruct (i - length (goroutines s)) as [|k]; [|destruct k; discriminate].
      inversion Hg; subst. split; discriminate.
Qed.

Lemma state_eta (s : state) :
  mkState (reg s) (pc s) (wg s) (goroutines s) (errChan s) = s.
Proof. destruct s; reflexivity. Qed.

(** Every move keeps the invariant. *)
Lemma Inv_step hist s a s' :
  Inv hist s -> step a s = Some s' -> Inv (hist ++ [a]) s'.
Proof.
  intros HI Hstep. destruct a; simpl in Hstep.
  - (* ACallInitialize *)
    destruct (pc s) eqn:Hpc; try discriminate. inversion Hstep; subst. clear Hstep.
    pose proof (inv_apps _ _ HI) as Happs. rewrite Hpc in Happs.
    destruct Happs as (Hg & He & Hw).
    assert (Heq : mkState (reg s) (InitLoop InboundApps) 0 [] []
                  = mkState (reg s) (InitLoop InboundApps) (wg s) (goroutines s) (errChan s))
      by (rewrite Hg, He, Hw; reflexivity).
    rewrite Heq. apply Inv_frame; auto.
    + pose proof (inv_ready _ _ HI) as Hr. rewrite Hpc in Hr. exact Hr.
    + rewrite Hg. reflexivity.
  - (* ALoop *)
    destruct (pc s) as [|[|appName rest]|] eqn:Hpc; try discriminate.
    inversion Hstep; subst. apply Inv_loop; assumption.
  - (* ANewClient *)
    destruct (goroutines s !! i) as [[app []]|] eqn:Hi; try discriminate.
    destruct (NewClient (clientOptions app)) as [client|err] eqn:Hnew.
    + inversion Hstep; subst. clear Hstep.
      replace (wg s) with (wg s - 0) at 1 by lia.
      eapply Inv_update; eauto; simpl; auto; try discriminate.
      intros _. apply in_or_app. right. left. reflexivity.
    + destruct (length (errChan s) <? length InboundApps)%nat; [|discriminate].
      inversion Hstep; subst. clear Hstep.
      replace (Nat.pred (wg s)) with (wg s - 1) by lia.
      eapply Inv_update; eauto; simpl; auto; try discriminate.
      * apply Permutation_sym, Permutation_cons_append.
      * intros _. apply in_or_app. right. left. reflexivity.
  - (* AClientReady *)
    destruct (goroutines s !! i) as [[app [|client| |]]|] eqn:Hi; try discriminate.
    inversion Hstep; subst. clear Hstep.
    replace (Nat.pred (wg s)) with (wg s - 1) by lia.
    pose proof (inv_constructed _ _ HI) as Hcon.
    rewrite Forall_forall in Hcon.
    specialize (Hcon _ (list_elem_of_lookup_2 _ _ _ Hi)).
    eapply Inv_update; eauto; simpl; auto.
    + destruct (inv_moves _ _ HI i _ Hi) as [H1 _].
      intros _. apply in_or_app. left. apply H1. reflexivity.
    + intros _. apply in_or_app. right. left. reflexivity.
    + intros app' [c Hc]. destruct (decide (app = app')) as [->|Hne]; [auto|].
      rewrite lookup_insert_ne in Hc by exact Hne. left. eauto.
    + intros app' [c Hc]. destruct (decide (app = app')) as [->|Hne].
      * rewrite lookup_insert_eq. eauto.
      * rewrite lookup_insert_ne by exact Hne. eauto.
    + intros _. rewrite lookup_insert_eq. eauto.
  - (* AWaitReturn *)
    destruct (pc s) as [|[|]|] eqn:Hpc; try discriminate.
    destruct (wg s =? 0)%nat eqn:Hwg; [|discriminate]. apply Nat.eqb_eq in Hwg.
    pose proof (inv_apps _ _ HI) as Happs. rewrite Hpc, app_nil_r in Happs.
    assert (Hall : Forall (fun g => isDone g = true) (goroutines s)).
    { pose proof (inv_wg _ _ HI) as Hw. rewrite Hwg in Hw.
      symmetry in Hw. apply length_zero_iff_nil in Hw.
      apply Forall_forall. intros g Hg.
      destruct (isDone g) eqn:Hd; [reflexivity|]. exfalso.
      assert (In g (List.filter (fun g => negb (isDone g)) (goroutines s))) as Hin.
      { apply List.filter_In. rewrite Hd. apply list_elem_of_In in Hg. auto. }
      rewrite Hw in Hin. destruct Hin. }
    destruct (errChan s) as [|e errs] eqn:Hch; simpl in Hstep;
      inversion Hstep; subst; clear Hstep; rewrite <- Hch.
    + apply Inv_frame; auto; simpl; rewrite ?Hch; auto.
    + pose proof (inv_ready _ _ HI) as Hr. rewrite Hpc in Hr.
      apply Inv_frame; auto; simpl; rewrite ?Hch; auto.
  - (* AGet *)
    inversion Hstep; subst. rewrite <- (state_eta s').
    apply Inv_frame; auto.
    + apply (inv_ready _ _ HI).
    + pose proof (inv_apps _ _ HI) as Ha. pose proof (inv_returned _ _ HI) as Hr.
      destruct (pc s'); tauto.
  - (* AReady *)
    inversion Hstep; subst. rewrite <- (state_eta s').
    apply Inv_frame; auto.
    + apply (inv_ready _ _ HI).
    + pose proof (inv_apps _ _ HI) as Ha. pose proof (inv_returned _ _ HI) as Hr.
      destruct (pc s'); tauto.
  - (* AClose *)
    inversion Hstep; subst. apply Inv_frame; auto.
    + rewrite existsb_app. simpl. rewrite orb_true_r. discriminate.
    + simpl. intros app [c Hc]. rewrite lookup_empty in Hc. discriminate.
    + apply (inv_ready _ _ HI).
    + pose proof (inv_apps _ _ HI) as Ha. pose proof (inv_returned _ _ HI) as Hr.
      destruct (pc s); tauto.
Qed.

Lemma Inv_run sched : forall hist s s',
  Inv hist s -> run sched s = Some s' -> Inv (hist ++ sched) s'.
Proof.
  induction sched as [|a sched IH]; intros hist s s' HI Hrun; simpl in Hrun.
  - inversion Hrun; subst. rewrite app_nil_r. exact HI.
  - destruct (step a s) as [s1|] eqn:Hstep; [|discriminate].
    replace (hist ++ a :: sched) with ((hist ++ [a]) ++ sched)
      by (rewrite <- app_assoc; reflexivity).
    eapply IH; [|exact Hrun]. eapply Inv_step; eassumption.
Qed.

(** Every state reached from the initial one satisfies the invariant. *)
Lemma Inv_reachable sched s : run sched initState = Some s -> Inv sched s.
Proof. intros H. exact (Inv_run sched [] initState s Inv_init H). Qed.

(** Once [Initialize] has returned, its result stays. *)
Lemma step_returned a s s' err :
  step a s = Some s' -> pc s = InitReturned err -> pc s' = InitReturned err.
Proof.
  intros Hstep Hpc. destruct a; simpl in Hstep; rewrite ?Hpc in Hstep;
    try discriminate; try (inversion Hstep; subst; first [exact Hpc|reflexivity]).
  - destruct (goroutines s !! i) as [[app []]|]; try discriminate.
    destruct (NewClient (clientOptions app)).
    + inversion Hstep; subst; first [exact Hpc|reflexivity].
    + destruct (_ <? _)%nat; [|discriminate]. inversion Hstep; subst; first [exact Hpc|reflexivity].
  - destruct (goroutines s !! i) as [[app []]|]; try discriminate.
    inversion Hstep; subst; first [exact Hpc|reflexivity].
Qed.

Lemma run_returned sched : forall s s' err,
  run sched s = Some s' -> pc s = InitReturned err -> pc s' = InitReturned err.
Proof.
  induction sched as [|a sched IH]; intros s s' err Hrun Hpc; simpl in Hrun.
  - inversion Hrun; subst. exact Hpc.
  - destruct (step a s) as [s1|] eqn:Hstep; [|discriminate].
    eapply IH; [exact Hrun|]. eapply step_returned; eassumption.
Qed.

(** Only the return of [Initialize] makes its program counter [InitReturned]. *)
Lemma step_returns a s s' err :
  step a s = Some s' -> pc s' = InitReturned err ->
  (forall e, pc s <> InitReturned e) -> a = AWaitReturn.
Proof.
  intros Hstep Hpc' Hpc. destruct a; simpl in Hstep; try reflexivity; exfalso.
  - destruct (pc s); try discriminate. inversion Hstep; subst. discriminate.
  - destruct (pc s) as [|[|]|]; try discriminate. inversion Hstep; subst. discriminate.
  - destruct (goroutines s !! i) as [[app []]|]; try discriminate.
    destruct (NewClient (clientOptions app)).
    + inversion Hstep; subst. eapply Hpc; eassumption.
    + destruct (_ <? _)%nat; [|discriminate]. inversion Hstep; subst. eapply Hpc; eassumption.
  - destruct (goroutines s !! i) as [[app []]|]; try discriminate.
    inversion Hstep; subst. eapply Hpc; eassumption.
  - inversion Hstep; subst. eapply Hpc; eassumption.
  - inversion Hstep; subst. eapply Hpc; eassumption.
  - inversion Hstep; subst. eapply Hpc; eassumption.
Qed.

(** A run that ends after the return of [Initialize] splits at that return. *)
Lemma run_split sched : forall s s' err,
  run sched s = Some s' -> pc s' = InitReturned err ->
  (forall e, pc s <> InitReturned e) ->
  exists pre post s1 s2,
    sched = pre ++ AWaitReturn :: post /\ run pre s = Some s1
    /\ step AWaitReturn s1 = Some s2 /\ run post s2 = Some s'
    /\ pc s2 = InitReturned err.
Proof.
  induction sched as [|a sched IH]; intros s s' err Hrun Hpc' Hpc; simpl in Hrun.
  - inversion Hrun; subst. exfalso. eapply Hpc; eassumption.
  - destruct (step a s) as [s1|] eqn:Hstep; [|discriminate].
    destruct (pc s1) as [| |e1] eqn:Hpc1.
    + destruct (IH s1 s' err Hrun Hpc') as (pre & post & t1 & t2 & -> & H1 & H2 & H3 & H4).
      { intros e. rewrite Hpc1. discriminate. }
      exists (a :: pre), post, t1, t2. simpl. rewrite Hstep. auto.
    + destruct (IH s1 s' err Hrun Hpc') as (pre & post & t1 & t2 & -> & H1 & H2 & H3 & H4).
      { intros e. rewrite Hpc1. discriminate. }
      exists (a :: pre), post, t1, t2. simpl. rewrite Hstep. auto.
    + pose proof (step_returns a s s1 e1 Hstep Hpc1 Hpc) as ->.
      pose proof (run_returned sched s1 s' e1 Hrun Hpc1) as Hpc''.
      exists [], sched, s, s1. simpl. repeat split; auto. congruence.
Qed.

(** What the goroutines that returned sent is what [failures] lists. *)
Lemma sent_failures (gs : list goroutine) :
  Forall constructed gs -> Forall (fun g => isDone g = true) gs ->
  List.concat (List.map sentBy gs)
  = List.map (fun f => createError (fst f) (snd f)) (failures (List.map gApp gs)).
Proof.
  induction gs as [|[app st] gs IH]; intros Hc Hd; simpl; [reflexivity|].
  apply Forall_cons in Hc as [Hc Hcs]. apply Forall_cons in Hd as [Hd Hds].
  unfold constructed in Hc. unfold isDone in Hd. unfold sentBy at 1. simpl in *.
  destruct st; try discriminate; rewrite Hc; simpl; rewrite (IH Hcs Hds); reflexivity.
Qed.

Lemma failures_nil (apps : list string) :
  failures apps = [] <->
  forall app, In app apps -> exists c, NewClient (clientOptions app) = inl c.
Proof.
  induction apps as [|a apps IH]; simpl.
  - split; [intros _ app []|reflexivity].
  - destruct (NewClient (clientOptions a)) as [c|e] eqn:Hn.
    + rewrite IH. split.
      * intros H app [<-|Hin]; eauto.
      * intros H app Hin. apply H. right. exact Hin.
    + split; [discriminate|]. intros H.
      destruct (H a (or_introl eq_refl)) as [c Hc]. congruence.
Qed.

(** *** [Initialize] can always finish

    From every state that the invariant holds of, once [Initialize] has
    been called, some continuation leads to its return: no goroutine is
    blocked for good on [errChan], whose buffer has room for one error per
    inbound application. *)

Lemma run_loops (rest : list string) : forall hist s,
  Inv hist s -> pc s = InitLoop rest ->
  exists hist' s', run (List.repeat ALoop (length rest)) s = Some s'
                   /\ Inv hist' s' /\ pc s' = InitLoop [].
Proof.
  induction rest as [|app rest IH]; intros hist s HI Hpc; simpl.
  - eauto.
  - rewrite Hpc.
    apply (IH (hist ++ [ALoop])); [|reflexivity].
    apply Inv_loop; assumption.
Qed.

Lemma sent_bound (gs : list goroutine) :
  length (List.concat (List.map sentBy gs))
  + length (List.filter (fun g => negb (isDone g)) gs) <= length gs.
Proof.
  induction gs as [|[app st] gs IH]; simpl; [lia|].
  rewrite length_app. unfold sentBy at 1, isDone at 1. simpl.
  destruct st; simpl; lia.
Qed.

Lemma finish_goroutines (n : nat) : forall hist s,
  Inv hist s -> pc s = InitLoop [] -> wg s = n ->
  exists sched s' err, run sched s = Some s' /\ pc s' = InitReturned err.
Proof.
  induction n as [|n IH]; intros hist s HI Hpc Hwg.
  - exists [AWaitReturn]. simpl. rewrite Hpc, Hwg. simpl.
    destruct (0 <? length (errChan s))%nat; eauto.
  - (* some goroutine has not returned *)
    pose proof (inv_wg _ _ HI) as Hw. rewrite Hwg in Hw.
    destruct (List.filter (fun g => negb (isDone g)) (goroutines s)) as [|g rest] eqn:Hf;
      [discriminate|].
    assert (Hin : In g (List.filter (fun g => negb (isDone g)) (goroutines s)))
      by (rewrite Hf; left; reflexivity).
    apply List.filter_In in Hin as [Hin Hnd]. apply negb_true_iff in Hnd.
    apply list_elem_of_In, list_elem_of_lookup in Hin as [i Hi].
    (* the buffer of errChan has room *)
    assert (Hcap : (length (errChan s) <? length InboundApps)%nat = true).
    { apply Nat.ltb_lt.
      pose proof (Permutation_length (inv_errChan _ _ HI)) as Hlen.
      pose proof (sent_bound (goroutines s)) as Hb. rewrite Hf in Hb. simpl in Hb.
      pose proof (inv_apps _ _ HI) as Ha. rewrite Hpc, app_nil_r in Ha.
      rewrite <- Ha, length_map. lia. }
    assert (Hready : forall c, goroutines s !! i = Some (mkGoroutine (gApp g) (GWaitForReady c)) ->
              exists s1, step (AClientReady i) s = Some s1 /\ pc s1 = InitLoop [] /\ wg s1 = n).
    { intros c Hc. simpl. rewrite Hc. eexists. split; [reflexivity|].
      simpl. split; [exact Hpc|]. rewrite Hwg. reflexivity. }
    destruct g as [app st]. unfold isDone in Hnd. cbn [gApp gState] in *.
    destruct st as [|c| |]; try discriminate.
    + destruct (NewClient (clientOptions app)) as [c|e] eqn:Hnew.
      * assert (Hs1 : step (ANewClient i) s
                      = Some (mkState (reg s) (pc s) (wg s)
                                (<[i := mkGoroutine app (GWaitForReady c)]> (goroutines s))
                                (errChan s))).
        { simpl. rewrite Hi, Hnew. reflexivity. }
        pose proof (Inv_step _ _ _ _ HI Hs1) as HI1.
        set (s1 := mkState (reg s) (pc s) (wg s)
                     (<[i := mkGoroutine app (GWaitForReady c)]> (goroutines s))
                     (errChan s)) in *.
        assert (Hs2 : exists s2, step (AClientReady i) s1 = Some s2
                                 /\ pc s2 = InitLoop [] /\ wg s2 = n).
        { simpl. rewrite list_lookup_insert_eq by (eapply lookup_lt_Some; exact Hi).
          eexists. split; [reflexivity|]. simpl. split; [exact Hpc|].
          rewrite Hwg. reflexivity. }
        destruct Hs2 as (s2 & Hs2 & Hpc2 & Hwg2).
        destruct (IH _ s2 (Inv_step _ _ _ _ HI1 Hs2) Hpc2 Hwg2) as (sched & s' & err & Hrun & Hret).
        exists (ANewClient i :: AClientReady i :: sched), s', err.
        split; [|exact Hret]. cbn [run]. rewrite Hs1. cbn [run]. rewrite Hs2. exact Hrun.
      * assert (Hs1 : exists s1, step (ANewClient i) s = Some s1
                                 /\ pc s1 = InitLoop [] /\ wg s1 = n).
        { simpl. rewrite Hi, Hnew, Hcap. eexists. split; [reflexivity|].
          simpl. split; [exact Hpc|]. rewrite Hwg. reflexivity. }
        destruct Hs1 as (s1 & Hs1 & Hpc1 & Hwg1).
        destruct (IH _ s1 (Inv_step _ _ _ _ HI Hs1) Hpc1 Hwg1) as (sched & s' & err & Hrun & Hret).
        exists (ANewClient i :: sched), s', err.
        split; [|exact Hret]. cbn [run]. rewrite Hs1. exact Hrun.
    + destruct (Hready c Hi) as (s1 & Hs1 & Hpc1 & Hwg1).
      destruct (IH _ s1 (Inv_step _ _ _ _ HI Hs1) Hpc1 Hwg1) as (sched & s' & err & Hrun & Hret).
      exists (AClientReady i :: sched), s', err.
      split; [|exact Hret]. cbn [run]. rewrite Hs1. exact Hrun.
Qed.

Lemma Initialize_can_finish (sched : list action) (s : state) :
  run sched initState = Some s -> pc s <> InitNotCalled ->
  exists sched' s' err, run sched' s = Some s' /\ pc s' = InitReturned err.
Proof.
  intros Hrun Hcalled. pose proof (Inv_reachable _ _ Hrun) as HI.
  destruct (pc s) as [|rest|err] eqn:Hpc; [contradiction| |].
  - destruct (run_loops rest _ _ HI Hpc) as (hist' & s1 & Hrun1 & HI1 & Hpc1).
    destruct (finish_goroutines (wg s1) _ _ HI1 Hpc1 eq_refl)
      as (sched2 & s' & err & Hrun2 & Hret).
    exists (List.repeat ALoop (length rest) ++ sched2), s', err.
    rewrite run_app, Hrun1. auto.
  - exists [], s, err. auto.
Qed.

(** C5.  In every state reached from the initial one, whatever moves of
    [Initialize], of its goroutines and whatever calls of [Get], [Ready]
    and [Close] led there, every key of the client map is an inbound
    application; and every further move leads to such a state again. *)
Theorem clientMap_within_allow_list (sched : list action) (s : state) :
  run sched initState = Some s ->
  (forall app, is_Some (Get (reg s) app) ->
               In app InboundApps /\ IsValidApp app = true)
  /\ (forall a s' app, step a s = Some s' ->
        is_Some (Get (reg s') app) -> In app InboundApps).
Proof.
  intros Hrun. pose proof (Inv_reachable _ _ Hrun) as HI. split.
  - intros app Happ. pose proof (inv_keys _ _ HI app Happ) as Hin.
    split; [exact Hin|]. unfold IsValidApp. apply existsb_exists.
    exists app. split; [exact Hin|apply String.eqb_refl].
  - intros a s' app Hstep Happ.
    exact (inv_keys _ _ (Inv_step _ _ _ _ HI Hstep) app Happ).
Qed.

(** C1.  Let [Initialize] have returned.  If no construction fails, it
    returned nil and set the readiness flag, so [Ready] is true, and, as
    long as [Close] has not been called, [Get] finds a client for every
    inbound application.  If some construction fails, it returned the
    aggregate error, whose list holds the error of every failed
    construction with its application and cause, and it did not set the
    readiness flag: [Ready] is false then and after every further move.
    ([Initialize] is called once: the scheduler has no second call.) *)
Theorem Initialize_result (sched : list action) (s : state) (err : option string) :
  run sched initState = Some s ->
  pc s = InitReturned err ->
  (failures InboundApps = [] ->
     err = None /\ Ready (reg s) = true
     /\ (existsb isClose sched = false ->
         forall app, In app InboundApps -> is_Some (Get (reg s) app)))
  /\ (failures InboundApps <> [] ->
        (exists errs,
           err = Some (aggregateError errs)
           /\ Permutation errs
                (List.map (fun f => createError (fst f) (snd f)) (failures InboundApps))
           /\ forall app cause, In (app, cause) (failures InboundApps) ->
                 occursIn (createError app cause) (aggregateError errs))
        /\ Ready (reg s) = false
        /\ forall sched' s', run sched' s = Some s' -> Ready (reg s') = false).
Proof.
  intros Hrun Hpc. pose proof (Inv_reachable _ _ Hrun) as HI.
  pose proof (inv_apps _ _ HI) as Happs. rewrite Hpc in Happs.
  pose proof (inv_returned _ _ HI) as Hret. rewrite Hpc in Hret.
  destruct Hret as [Hdone Herr].
  pose proof (inv_errChan _ _ HI) as Hch.
  rewrite (sent_failures _ (inv_constructed _ _ HI) Hdone), Happs in Hch.
  pose proof (inv_ready _ _ HI) as Hready. rewrite Hpc in Hready.
  split.
  - intros Hnone. rewrite Hnone in Hch. simpl in Hch.
    apply Permutation_sym, Permutation_nil in Hch. rewrite Hch in Herr. subst err.
    split; [reflexivity|]. split; [exact Hready|].
    intros Hnc app Hin.
    pose proof (inv_stored _ _ HI Hnc) as Hst.
    pose proof (inv_constructed _ _ HI) as Hcon.
    rewrite <- Happs in Hin. apply in_map_iff in Hin as (g & <- & Hg).
    apply list_elem_of_In in Hg.
    rewrite Forall_forall in Hst, Hcon, Hdone.
    apply (Hst g Hg). specialize (Hcon g Hg). specialize (Hdone g Hg).
    unfold isDone in Hdone. unfold constructed in Hcon. unfold isStored.
    destruct (gState g) eqn:Hgs; try discriminate; [|reflexivity].
    exfalso. apply (proj1 (failures_nil InboundApps)) with (app := gApp g) in Hnone.
    + destruct Hnone as [c Hc]. congruence.
    + rewrite <- Happs. apply in_map, list_elem_of_In, Hg.
  - intros Hsome.
    assert (Hne : errChan s <> []).
    { intros Hnil. rewrite Hnil in Hch. apply Permutation_nil in Hch.
      apply map_eq_nil in Hch. contradiction. }
    destruct (errChan s) as [|e errs] eqn:Herrs; [contradiction|]. subst err.
    split.
    { exists (e :: errs). split; [reflexivity|]. split; [exact Hch|].
      intros app cause Hin. unfold aggregateError.
      apply occursIn_append_l, occursIn_append_r, occursIn_Join.
      apply (Permutation_in _ (Permutation_sym Hch)).
      apply in_map_iff. exists (app, cause). split; [reflexivity|exact Hin]. }
    split; [exact Hready|].
    intros sched' s' Hrun'.
    pose proof (run_returned _ _ _ _ Hrun' Hpc) as Hpc'.
    pose proof (Inv_run _ _ _ _ HI Hrun') as HI'.
    pose proof (inv_ready _ _ HI') as Hready'. rewrite Hpc' in Hready'. exact Hready'.
Qed.

(** C6.  From every state reached after its call, [Initialize] can run to
    its return (no goroutine stays blocked on [errChan]), and whenever it
    has returned:
    up to the return, the loop started exactly one goroutine per inbound
    application, [unleash.NewClient] returned exactly once in each of
    them, and each of them had finished, either with the error of its
    construction or, after its client had signalled readiness, by storing
    the client.  A failed construction stops none of the others. *)
Theorem Initialize_barrier :
  (forall (sched : list action) (s : state),
     run sched initState = Some s -> pc s <> InitNotCalled ->
     exists sched' s' err, run sched' s = Some s' /\ pc s' = InitReturned err)
  /\ forall (sched : list action) (s : state) (err : option string),
       run sched initState = Some s -> pc s = InitReturned err ->
       exists pre post s1,
         sched = pre ++ AWaitReturn :: post
         /\ run pre initState = Some s1
         /\ List.map gApp (goroutines s1) = InboundApps
         /\ length (List.filter isLoop pre) = length InboundApps
         /\ length (List.filter isNewClient pre) = length InboundApps
         /\ (forall i g, goroutines s1 !! i = Some g ->
               In (ANewClient i) pre
               /\ ((exists cause, gState g = GFailed cause
                      /\ NewClient (clientOptions (gApp g)) = inr cause)
                   \/ (exists client, gState g = GStored client
                         /\ NewClient (clientOptions (gApp g)) = inl client
                         /\ In (AClientReady i) pre))).
Proof.
  split; [exact Initialize_can_finish|].
  intros sched s err Hrun Hpc.
  destruct (run_split sched initState s err Hrun Hpc) as
    (pre & post & s1 & s2 & -> & Hpre & Hstep & Hpost & Hpc2); [discriminate|].
  exists pre, post, s1. split; [reflexivity|]. split; [exact Hpre|].
  pose proof (Inv_reachable _ _ Hpre) as HI1.
  pose proof (Inv_step _ _ _ _ HI1 Hstep) as HI2.
  assert (Hgs : goroutines s2 = goroutines s1).
  { simpl in Hstep. destruct (pc s1) as [|[|]|]; try discriminate.
    destruct (wg s1 =? 0)%nat; [|discriminate].
    destruct (0 <? length (errChan s1))%nat; inversion Hstep; reflexivity. }
  pose proof (inv_apps _ _ HI2) as Happs. rewrite Hpc2, Hgs in Happs.
  pose proof (inv_returned _ _ HI2) as Hret. rewrite Hpc2, Hgs in Hret.
  destruct Hret as [Hdone _].
  assert (Hlen : length (goroutines s1) = length InboundApps).
  { rewrite <- Happs, length_map. reflexivity. }
  split; [exact Happs|]. split; [|split].
  - rewrite (inv_loops _ _ HI1). exact Hlen.
  - rewrite (inv_news _ _ HI1), <- Hlen. f_equal.
    clear -Hdone. induction (goroutines s1) as [|g gs IH]; [reflexivity|].
    apply Forall_cons in Hdone as [Hg Hgs]. simpl.
    assert (started g = true) as ->; [|rewrite (IH Hgs); reflexivity].
    unfold isDone in Hg. unfold started. destruct (gState g); congruence.
  - intros i g Hg.
    destruct (inv_moves _ _ HI1 i g Hg) as [Hnew Hrdy].
    pose proof (inv_constructed _ _ HI1) as Hcon.
    rewrite Forall_forall in Hcon, Hdone.
    specialize (Hcon g (list_elem_of_lookup_2 _ _ _ Hg)).
    specialize (Hdone g (list_elem_of_lookup_2 _ _ _ Hg)).
    unfold isDone in Hdone. unfold constructed in Hcon.
    unfold started in Hnew. unfold isStored in Hrdy.
    destruct (gState g) eqn:Hgs'; try discriminate; (split; [auto|]).
    + left. eauto.
    + right. eauto.
Qed.

(** C9.  [Close] empties the mapping, so that [Get] finds no identity
    afterwards, and leaves the readiness flag as it was; a second [Close]
    finds nothing to close and changes nothing.  In particular, after
    [Initialize] has returned nil, [Ready] is still true once [Close] has
    removed every client. *)
Theorem Close_spec (rg : registry) :
  (forall app, Get (Close rg) app = None)
  /\ Ready (Close rg) = Ready rg
  /\ closedBy (Close rg) = []
  /\ Close (Close rg) = Close rg
  /\ (forall sched s s',
        run sched initState = Some s -> pc s = InitReturned None ->
        step AClose s = Some s' ->
        Ready (reg s') = true
        /\ (forall app, Get (reg s') app = None)
        /\ step AClose s' = Some s').
Proof.
  split; [intros app; apply lookup_empty|].
  split; [reflexivity|].
  split; [apply map_to_list_empty|].
  split; [reflexivity|].
  intros sched s s' Hrun Hpc Hstep. simpl in Hstep. inversion Hstep; subst.
  split; [|split; [intros app; apply lookup_empty|reflexivity]].
  pose proof (inv_ready _ _ (Inv_reachable _ _ Hrun)) as Hr.
  rewrite Hpc in Hr. exact Hr.
Qed.

End RegistryProperties.

(* ===================================================================== *)
(** ** The properties on the stub collaborators *)
(* ===================================================================== *)

Example startup_runs :
  run (U := stubUnleash) (E := twoApps) startup initState
  = Some (finalState stubUnleash twoApps startup).
Proof. vm_compute. reflexivity. Qed.

Example failedStartup_runs :
  run (U := stubUnleash) (E := threeApps) failedStartup initState
  = Some (finalState stubUnleash threeApps failedStartup).
Proof. vm_compute. reflexivity. Qed.

Example startingUp_runs :
  run (U := stubUnleash) (E := twoApps) startingUp initState
  = Some (finalState stubUnleash twoApps startingUp).
Proof. vm_compute. reflexivity. Qed.

(** Scenarios A and E: both constructions succeed; one of three fails. *)
Lemma Initialize_result_witness :
  (Ready (reg (finalState stubUnleash twoApps startup)) = true
   /\ is_Some (Get (reg (finalState stubUnleash twoApps startup)) "app1")
   /\ is_Some (Get (reg (finalState stubUnleash twoApps startup)) "app2")
   /\ Get (reg (finalState stubUnleash twoApps startup)) "app3" = None)
  /\ (pc (finalState stubUnleash threeApps failedStartup)
      = InitReturned (Some
          "failed to initialize some Unleash clients: [failed to create Unleash client for broken: unleash server URL missing]")
      /\ Ready (reg (finalState stubUnleash threeApps failedStartup)) = false).
Proof.
  split.
  - destruct (Initialize_result (U := stubUnleash) (E := twoApps) startup
                (finalState stubUnleash twoApps startup) None)
      as [Hok _]; [vm_compute; reflexivity | vm_compute; reflexivity |].
    destruct Hok as (_ & Hready & Hget); [vm_compute; reflexivity|].
    split; [exact Hready|].
    split; [apply Hget; [vm_compute; reflexivity | vm_compute; auto]|].
    split; [apply Hget; [vm_compute; reflexivity | vm_compute; auto]|].
    vm_compute. reflexivity.
  - destruct (Initialize_result (U := stubUnleash) (E := threeApps) failedStartup
                (finalState stubUnleash threeApps failedStartup)
                (Some (aggregateError [createError "broken" "unleash server URL missing"])))
      as [_ Hfail]; [vm_compute; reflexivity | vm_compute; reflexivity |].
    destruct Hfail as (_ & Hready & _); [vm_compute; discriminate|].
    split; [vm_compute; reflexivity | exact Hready].
Defined.

(** Scenario B. *)
Lemma Handler_success_witness :
  Handler (U := stubUnleash) (E := twoApps)
    (reg (finalState stubUnleash twoApps startup))
    (postFlag "/features/my-flag" (dq "{'appName':'app1','navIdent':'U1'}"))
  = mkOutcome None
      [EvGet "app1";
       EvIsEnabled (U := stubUnleash) "app1" "my-flag"
         (mkUnleashContext "development" "U1" "app1" "10.0.0.7:51234"
            {[ "podName" := "" ]})]
      (mkHttpResponse 200 "application/json" (dq "{'enabled':true}" ++ newline)).
Proof.
  rewrite (Handler_success (U := stubUnleash) (E := twoApps) _ _
             (mkRequest "U1" "app1" "") "app1").
  - vm_compute. reflexivity.
  - left. reflexivity.
  - vm_compute. reflexivity.
  - vm_compute. reflexivity.
  - discriminate.
  - vm_compute. reflexivity.
Defined.


Lemma clientMap_within_allow_list_witness :
  is_Some (Get (reg (finalState stubUnleash twoApps startingUp)) "app1")
  /\ In "app1" (InboundApps (E := twoApps))
  /\ IsValidApp (E := twoApps) "app1" = true.
Proof.
  assert (Happ : is_Some (Get (reg (finalState stubUnleash twoApps startingUp)) "app1"))
    by (vm_compute; eauto).
  destruct (clientMap_within_allow_list (U := stubUnleash) (E := twoApps) startingUp
              (finalState stubUnleash twoApps startingUp)) as [H _];
    [vm_compute; reflexivity|].
  split; [exact Happ|]. exact (H "app1" Happ).
Defined.

(** The three goroutines of the failed startup had all finished when
    [Initialize] returned, the one of [broken] with its error. *)
Lemma Initialize_barrier_witness :
  exists pre post s1,
    failedStartup = (pre ++ AWaitReturn :: post)%list
    /\ run (U := stubUnleash) (E := threeApps) pre initState = Some s1
    /\ List.map gApp (goroutines s1) = ["app1"; "broken"; "app2"]
    /\ length (List.filter isNewClient pre) = 3.
Proof.
  destruct (proj2 (Initialize_barrier (U := stubUnleash) (E := threeApps))
              failedStartup (finalState stubUnleash threeApps failedStartup)
              (Some (aggregateError [createError "broken" "unleash server URL missing"])))
    as (pre & post & s1 & Hsplit & Hrun & Happs & _ & Hnew & _);
    [vm_compute; reflexivity | vm_compute; reflexivity |].
  exists pre, post, s1. repeat split; assumption.
Defined.

(** Scenario C. *)
Lemma Handler_invalid_name_witness :
  Handler (U := stubUnleash) (E := twoApps)
    (reg (finalState stubUnleash twoApps startup))
    (postFlag "/features/../etc" (dq "{'appName':'app1'}"))
  = mkOutcome (Some "invalid feature name") []
      (mkHttpResponse 400 "text/plain; charset=utf-8"
         ("Invalid feature name: must be URL-friendly, 1-100 characters, and not '.' or '..'"
          ++ newline)).
Proof.
  destruct (Handler_invalid_name (U := stubUnleash) (E := twoApps)
              (reg (finalState stubUnleash twoApps startup))
              (postFlag "/features/../etc" (dq "{'appName':'app1'}")))
    as (_ & _ & H); [vm_compute; reflexivity|].
  rewrite H; [reflexivity | reflexivity | discriminate].
Defined.

(** The path [/features/] has an empty flag name, which [IsValidName]
    rejects; the handler answers with the missing-flag-name error, not with
    the invalid-flag-name error. *)
Lemma Handler_invalid_name_counterexample :
  IsValidName (featureOf (postFlag "/features/" (dq "{'appName':'app1'}"))) = false
  /\ Handler (U := stubUnleash) (E := twoApps)
       (reg (finalState stubUnleash twoApps startup))
       (postFlag "/features/" (dq "{'appName':'app1'}"))
     = missingFlagName
  /\ Handler (U := stubUnleash) (E := twoApps)
       (reg (finalState stubUnleash twoApps startup))
       (postFlag "/features/" (dq "{'appName':'app1'}"))
     <> invalidFlagName.
Proof.
  split; [reflexivity|]. split; [reflexivity|]. discriminate.
Qed.

(** Scenario D. *)
Lemma Handler_missing_caller_witness :
  Handler (U := stubUnleash) (E := twoApps)
    (reg (finalState stubUnleash twoApps startup))
    (postFlag "/features/my-flag" (dq "{'appName':'','navIdent':'U1'}"))
  = mkOutcome (Some "missing app_name") []
      (mkHttpResponse 400 "text/plain; charset=utf-8"
         ("app_name is required in request body, must be one of the allowed inbound applications: app1, app2"
          ++ newline)).
Proof.
  destruct (Handler_missing_caller (U := stubUnleash) (E := twoApps)
              (reg (finalState stubUnleash twoApps startup))
              (postFlag "/features/my-flag" (dq "{'appName':'','navIdent':'U1'}"))
              (mkRequest "U1" "" ""))
    as (H & _); [reflexivity | reflexivity | vm_compute; reflexivity | reflexivity |].
  rewrite H. reflexivity.
Defined.

(** [Ready] stays true when the clients of a finished startup are closed. *)
Lemma Close_spec_witness :
  Ready (reg (finalState stubUnleash twoApps (startup ++ [AClose]))) = true
  /\ Get (reg (finalState stubUnleash twoApps (startup ++ [AClose]))) "app1" = None.
Proof.
  destruct (Close_spec (U := stubUnleash) (E := twoApps)
              (reg (finalState stubUnleash twoApps startup)))
    as (_ & _ & _ & _ & H).
  destruct (H startup (finalState stubUnleash twoApps startup)
              (finalState stubUnleash twoApps (startup ++ [AClose])))
    as (Hready & Hget & _);
    [vm_compute; reflexivity | vm_compute; reflexivity | vm_compute; reflexivity |].
  split; [exact Hready | apply Hget].
Defined.

(** A body [{}] followed by other bytes, and a body with members that
    select no field. *)
Lemma Handler_body_witness :
  Handler (U := stubUnleash) (E := twoApps)
    (reg (finalState stubUnleash twoApps startup))
    (postFlag "/features/my-flag" (dq "{}"))
  = missingCallerIdentity (U := stubUnleash) (E := twoApps)
  /\ Decode (dq "{} } not json") = inl zeroRequest
  /\ Decode (dq "{'extra':[1,{'a':null}],'APPNAME':'app1','podName':null} trailing")
     = inl (mkRequest "" "app1" "").
Proof.
  destruct (Handler_body (U := stubUnleash) (E := twoApps)
              (reg (finalState stubUnleash twoApps startup))
              (postFlag "/features/my-flag" (dq "{}")))
    as (_ & _ & Hobj & Hempty); [reflexivity | reflexivity |].
  split; [apply Hempty; reflexivity|].
  destruct (Hobj [] ltac:(vm_compute; reflexivity)) as (Htrail & _).
  split; [exact (Htrail " } not json")|].
  destruct (Handler_body (U := stubUnleash) (E := twoApps)
              (reg (finalState stubUnleash twoApps startup))
              (postFlag "/features/my-flag"
                 (dq "{'extra':[1,{'a':null}],'APPNAME':'app1','podName':null}")))
    as (_ & _ & Hobj' & _); [reflexivity | reflexivity |].
  destruct (Hobj' [("extra", JArray [JNumber "1"; JObject [("a", JNull)]]);
                   ("APPNAME", JString "app1"); ("podName", JNull)]
              ltac:(vm_compute; reflexivity)) as (Htrail' & _).
  etransitivity; [exact (Htrail' " trailing")|]. vm_compute. reflexivity.
Defined.

(** The first value of this body is a well-formed JSON object, and the
    body is rejected as malformed: the member [appName] holds a number. *)
Lemma Handler_body_counterexample :
  firstValue (dq "{'appName':1}") = Some (JObject [("appName", JNumber "1")])
  /\ Handler (U := stubUnleash) (E := twoApps)
       (reg (finalState stubUnleash twoApps startup))
       (postFlag "/features/my-flag" (dq "{'appName':1}"))
     = malformedBody.
Proof. split; vm_compute; reflexivity. Qed.

(* ===================================================================== *)
(** * Further properties of the code *)
(* ===================================================================== *)

(** ** The flag names [IsValidName] accepts *)

Lemma shouldEscape_segment (c : ascii) :
  shouldEscape c encodePathSegment = negb (flagNameByte c).
Proof.
  destruct c as [[] [] [] [] [] [] [] []]; vm_compute; reflexivity.
Qed.

(** X1.  [IsValidName] accepts exactly the names of 1 to 100 bytes, other
    than "." and "..", all of whose bytes are ASCII letters, digits or one
    of the marks [-_.~$&+:=@]. *)
Theorem IsValidName_alphabet (name : string) :
  IsValidName name = true <->
  1 <= String.length name <= 100 /\ name <> "." /\ name <> ".." /\
  forallb flagNameByte (list_ascii_of_string name) = true.
Proof.
  assert (Hesc : PathEscape name = name <->
                 forallb flagNameByte (list_ascii_of_string name) = true).
  { rewrite PathEscape_fixed, hexCount_segment_zero, forallb_forall.
    split; intros H c Hc; specialize (H c Hc);
      rewrite shouldEscape_segment in *; destruct (flagNameByte c); auto; discriminate. }
  rewrite <- Hesc. unfold IsValidName.
  destruct (String.length name <? 1)%nat eqn:H1; simpl.
  { apply Nat.ltb_lt in H1. split; [discriminate|lia]. }
  destruct (100 <? String.length name)%nat eqn:H2; simpl.
  { apply Nat.ltb_lt in H2. split; [discriminate|lia]. }
  apply Nat.ltb_ge in H1, H2.
  destruct (String.eqb name ".") eqn:Hd1; simpl.
  { apply String.eqb_eq in Hd1. split; [discriminate|tauto]. }
  destruct (String.eqb name "..") eqn:Hd2; simpl.
  { apply String.eqb_eq in Hd2. split; [discriminate|tauto]. }
  apply String.eqb_neq in Hd1, Hd2. rewrite String.eqb_eq. tauto.
Qed.

(** ** The flag name of a request *)

Lemma prefix_append (p s : string) : String.prefix p (p ++ s) = true.
Proof.
  induction p as [|c p IH]; [destruct s; reflexivity|].
  change (String c p ++ s) with (String c (p ++ s)). simpl.
  destruct (ascii_dec c c); [exact IH|contradiction].
Qed.

Lemma prefix_split (p s : string) :
  String.prefix p s = true -> exists t, s = p ++ t.
Proof.
  revert s. induction p as [|c p IH]; intros s H.
  - exists s. reflexivity.
  - destruct s as [|d s]; [discriminate|]. simpl in H.
    destruct (ascii_dec c d) as [<-|]; [|discriminate].
    destruct (IH s H) as [t ->]. exists t. reflexivity.
Qed.

Lemma substring_all (s : string) : String.substring 0 (String.length s) s = s.
Proof. induction s as [|c s IH]; simpl; [reflexivity|]. rewrite IH. reflexivity. Qed.

Lemma substring_append (p s : string) :
  String.substring (String.length p) (String.length (p ++ s) - String.length p) (p ++ s) = s.
Proof.
  induction p as [|c p IH].
  - change ("" ++ s) with s. simpl. rewrite Nat.sub_0_r. apply substring_all.
  - change (String c p ++ s) with (String c (p ++ s)). simpl. exact IH.
Qed.

Lemma TrimPrefix_append (p s : string) : TrimPrefix (p ++ s) p = s.
Proof. unfold TrimPrefix. rewrite prefix_append. apply substring_append. Qed.

(** X2.  The flag name the handler works with is what follows the prefix
    [/features/] in the path, byte for byte; a path that does not start
    with the prefix is taken whole. *)
Theorem featureOf_spec (r : HttpRequest) :
  (exists name, URLPath r = PathPrefix ++ name /\ featureOf r = name)
  \/ ((forall name, URLPath r <> PathPrefix ++ name) /\ featureOf r = URLPath r).
Proof.
  unfold featureOf.
  destruct (String.prefix PathPrefix (URLPath r)) eqn:Hp.
  - left. destruct (prefix_split _ _ Hp) as [t Ht]. exists t. split; [exact Ht|].
    rewrite Ht. apply TrimPrefix_append.
  - right. split.
    + intros name Hname. rewrite Hname, prefix_append in Hp. discriminate.
    + unfold TrimPrefix. rewrite Hp. reflexivity.
Qed.

(** ** The handler, branch by branch *)

Section HandlerCoverage.

Context {U : Unleash} {E : Env}.

Lemma Handler_cases (rg : registry) (r : HttpRequest) :
  Handler rg r =
    if negb (accepted r) then methodNotAllowed
    else if String.eqb (featureOf r) "" then missingFlagName
    else if negb (IsValidName (featureOf r)) then invalidFlagName
    else
      match Decode (Body r) with
      | inr _ => malformedBody
      | inl req =>
          if String.eqb (AppName req) "" then missingCallerIdentity
          else
            match Get rg (AppName req) with
            | None => unknownCaller (AppName req)
            | Some client =>
                mkOutcome None
                  [EvGet (AppName req);
                   EvIsEnabled client (featureOf r) (unleashCtx r req)]
                  (mkHttpResponse StatusOK "application/json"
                     (encodeResponse (IsEnabled client (featureOf r) (unleashCtx r req))))
            end
      end.
Proof.
  unfold Handler, accepted, featureOf. rewrite negb_orb. reflexivity.
Qed.

(** A reply with status 200 comes with a client found in the registry. *)
Lemma Handler_ok_lookup (rg : registry) (r : HttpRequest) :
  StatusCode (response (Handler rg r)) = 200 ->
  exists req, Decode (Body r) = inl req /\ is_Some (Get rg (AppName req)).
Proof.
  rewrite Handler_cases.
  destruct (accepted r); simpl; [|discriminate].
  destruct (String.eqb (featureOf r) ""); simpl; [discriminate|].
  destruct (IsValidName (featureOf r)); simpl; [|discriminate].
  destruct (Decode (Body r)) as [req|e]; simpl; [|discriminate].
  destruct (String.eqb (AppName req) ""); simpl; [discriminate|].
  destruct (Get rg (AppName req)) as [c|] eqn:Hg; simpl; [|discriminate].
  intros _. exists req. rewrite Hg. eauto.
Qed.

(** X3.  The handler answers with status 200, 400 or 405 and no other:
    405 exactly when the method is neither POST nor QUERY; 200 exactly when
    the method is accepted, the flag name is valid, the body decodes, its
    [appName] is not empty and the registry holds a client for it, which is
    also exactly when no error status is set on the span. *)
Theorem Handler_status (rg : registry) (r : HttpRequest) :
  (StatusCode (response (Handler rg r)) = 200
   \/ StatusCode (response (Handler rg r)) = 400
   \/ StatusCode (response (Handler rg r)) = 405)
  /\ (StatusCode (response (Handler rg r)) = 405 <-> accepted r = false)
  /\ (StatusCode (response (Handler rg r)) = 200 <->
        accepted r = true /\ IsValidName (featureOf r) = true
        /\ exists req, Decode (Body r) = inl req /\ AppName req <> ""
                       /\ is_Some (Get rg (AppName req)))
  /\ (StatusCode (response (Handler rg r)) = 200 <-> spanStatus (Handler rg r) = None).
Proof.
  rewrite Handler_cases.
  destruct (accepted r) eqn:Ha; simpl.
  2:{ repeat split; auto; try discriminate; intros (H & _); discriminate. }
  destruct (String.eqb (featureOf r) "") eqn:Hf; simpl.
  { apply String.eqb_eq in Hf. rewrite Hf.
    repeat split; auto; try discriminate; intros (_ & H & _); discriminate. }
  destruct (IsValidName (featureOf r)) eqn:Hv; simpl.
  2:{ repeat split; auto; try discriminate; intros (_ & H & _); discriminate. }
  destruct (Decode (Body r)) as [req|e] eqn:Hd; simpl.
  2:{ repeat split; auto; try discriminate; intros (_ & _ & req & H & _); discriminate. }
  destruct (String.eqb (AppName req) "") eqn:He; simpl.
  { apply String.eqb_eq in He.
    repeat split; auto; try discriminate.
    intros (_ & _ & req' & H & Hne & _). inversion H; subst. contradiction. }
  apply String.eqb_neq in He.
  destruct (Get rg (AppName req)) as [c|] eqn:Hg; simpl.
  - repeat split; auto; try discriminate. exists req. repeat split; eauto.
  - repeat split; auto; try discriminate.
    intros (_ & _ & req' & H & _ & Hs). inversion H; subst.
    rewrite Hg in Hs. destruct Hs; discriminate.
Qed.

(** X4.  The handler makes no call at all, or one lookup that finds
    nothing, or one lookup followed by one evaluation; it makes a call only
    for an accepted method and a valid flag name, looks up the non-empty
    [appName] of the decoded body, and evaluates the request's flag name
    with the client that lookup returned, in a context that holds the
    body's [navIdent], [appName] and [podName] and the request's remote
    address. *)
Theorem Handler_calls (rg : registry) (r : HttpRequest) :
  (events (Handler rg r) = []
   \/ (exists req, Decode (Body r) = inl req /\ AppName req <> ""
         /\ Get rg (AppName req) = None
         /\ events (Handler rg r) = [EvGet (AppName req)])
   \/ (exists req client, Decode (Body r) = inl req /\ AppName req <> ""
         /\ Get rg (AppName req) = Some client
         /\ events (Handler rg r)
            = [EvGet (AppName req);
               EvIsEnabled client (featureOf r)
                 (mkUnleashContext UnleashServerAPIEnv (NavIdent req) (AppName req)
                    (RemoteAddr r) {[ "podName" := PodName req ]})]))
  /\ (events (Handler rg r) <> [] ->
        accepted r = true /\ IsValidName (featureOf r) = true).
Proof.
  rewrite Handler_cases.
  destruct (accepted r) eqn:Ha; simpl; [|split; [auto|congruence]].
  destruct (String.eqb (featureOf r) "") eqn:Hf; simpl; [split; [auto|congruence]|].
  destruct (IsValidName (featureOf r)) eqn:Hv; simpl; [|split; [auto|congruence]].
  destruct (Decode (Body r)) as [req|e] eqn:Hd; simpl; [|split; [auto|congruence]].
  destruct (String.eqb (AppName req) "") eqn:He; simpl; [split; [auto|congruence]|].
  apply String.eqb_neq in He.
  destruct (Get rg (AppName req)) as [c|] eqn:Hg; simpl; (split; [|auto]).
  - right. right. exists req, c. auto.
  - right. left. exists req. auto.
Qed.

(** X5.  The handler reads nothing of the registry but the entry of the
    body's [appName]: against two registries that agree on that entry (they
    may differ in every other entry and in the readiness flag) it makes the
    same calls and gives the same reply. *)
Theorem Handler_frame (rg rg' : registry) (r : HttpRequest) :
  (forall req, Decode (Body r) = inl req ->
     Get rg (AppName req) = Get rg' (AppName req)) ->
  Handler rg r = Handler rg' r.
Proof.
  intros H. rewrite !Handler_cases.
  destruct (Decode (Body r)) as [req|e]; [|reflexivity].
  rewrite (H req eq_refl). reflexivity.
Qed.

(** X6.  A reply with status 200 has the content type application/json and
    a body that is the encoding of [{"enabled": b}] for a boolean [b], which
    the JSON parser of the decoder reads back as that object; every other
    reply is plain text, one of six messages followed by a newline, which
    the request has no part in (two of them list the inbound
    applications). *)
Theorem Handler_reply (rg : registry) (r : HttpRequest) :
  (StatusCode (response (Handler rg r)) = 200 ->
     ContentType (response (Handler rg r)) = "application/json"
     /\ exists enabled,
          ResponseBody (response (Handler rg r)) = encodeResponse enabled
          /\ firstValue (ResponseBody (response (Handler rg r)))
             = Some (JObject [("enabled", JBool enabled)]))
  /\ (StatusCode (response (Handler rg r)) <> 200 ->
        ContentType (response (Handler rg r)) = "text/plain; charset=utf-8"
        /\ In (ResponseBody (response (Handler rg r)))
             (List.map (fun msg => msg ++ newline)
                ["Method not allowed"; "Feature name is required";
                 invalidFeatureMessage; "Invalid JSON body";
                 missingAppNameMessage; unknownAppNameMessage])).
Proof.
  rewrite Handler_cases.
  destruct (accepted r); simpl; [|split; [discriminate|intros _; split; auto]].
  destruct (String.eqb (featureOf r) ""); simpl;
    [split; [discriminate|intros _; split; auto]|].
  destruct (IsValidName (featureOf r)); simpl;
    [|split; [discriminate|intros _; split; auto]].
  destruct (Decode (Body r)) as [req|e]; simpl;
    [|split; [discriminate|intros _; split; auto 10]].
  destruct (String.eqb (AppName req) ""); simpl;
    [split; [discriminate|intros _; split; auto 10]|].
  destruct (Get rg (AppName req)) as [c|]; simpl.
  - split; [|intros H; exfalso; apply H; reflexivity]. intros _. split; [reflexivity|].
    exists (IsEnabled c (featureOf r) (unleashCtx r req)). split; [reflexivity|].
    destruct (IsEnabled c (featureOf r) (unleashCtx r req)); vm_compute; reflexivity.
  - split; [discriminate|]. intros _. split; auto 10.
Qed.

End HandlerCoverage.

(** ** The decoder: white space, the documented body, the member names *)

Lemma skipSpace_spaces (ws s : string) :
  forallb isSpace (list_ascii_of_string ws) = true ->
  skipSpace (ws ++ s) = skipSpace s.
Proof.
  induction ws as [|c ws IH]; intros H; [reflexivity|].
  simpl in H. apply andb_true_iff in H as [Hc Hws].
  change (String c ws ++ s) with (String c (ws ++ s)). simpl.
  rewrite Hc. exact (IH Hws).
Qed.

Lemma parseValue_spaces (fuel : nat) (d : N) (ws s : string) :
  forallb isSpace (list_ascii_of_string ws) = true ->
  parseValue fuel d (ws ++ s) = parseValue fuel d s.
Proof.
  intros H. destruct fuel as [|fuel]; [reflexivity|].
  simpl. rewrite (skipSpace_spaces ws s H). reflexivity.
Qed.

(** X7.  Spaces, tabs, carriage returns and newlines before the first JSON
    value of the body change nothing: the decoder reads the same value and
    returns the same request or the same error. *)
Theorem Decode_leading_space (ws body : string) :
  forallb isSpace (list_ascii_of_string ws) = true ->
  firstValue (ws ++ body) = firstValue body
  /\ Decode (ws ++ body) = Decode body.
Proof.
  intros H.
  assert (Hf : firstValue (ws ++ body) = firstValue body).
  { unfold firstValue. rewrite (parseValue_spaces _ _ ws body H).
    rewrite (fuelFor_enough body (fuelFor (ws ++ body))); [reflexivity|].
    unfold fuelFor. rewrite length_app_string. lia. }
  split; [exact Hf|]. unfold Decode. rewrite Hf. reflexivity.
Qed.

Lemma plainByte_scan (c : ascii) :
  plainByte c = true ->
  Ascii.eqb c dquote = false /\ Ascii.eqb c backslash = false
  /\ (byteZ c <? 0x20)%Z = false /\ (byteZ c <? 0x80)%Z = true.
Proof.
  unfold plainByte. rewrite !andb_true_iff, !negb_true_iff.
  intros [[[H1 H2] H3] H4]. repeat split; auto.
  apply Z.ltb_ge, Z.leb_le, H1.
Qed.

Lemma scanString_plain (s rest : string) :
  plain s = true ->
  scanString InString (s ++ String dquote rest) = Some (s, rest).
Proof.
  unfold plain. induction s as [|c s IH]; intros H.
  - reflexivity.
  - simpl in H. apply andb_true_iff in H as [Hc Hs].
    destruct (plainByte_scan c Hc) as (Hq & Hb & Hlow & _).
    change (String c s ++ String dquote rest) with (String c (s ++ String dquote rest)).
    simpl. rewrite Hq, Hb, Hlow, (IH Hs). reflexivity.
Qed.

Lemma unquote_plain (s : string) : plain s = true -> unquote s = s.
Proof.
  unfold plain, unquote. induction s as [|c s IH]; intros H; [reflexivity|].
  simpl in H. apply andb_true_iff in H as [Hc Hs].
  destruct (plainByte_scan c Hc) as (_ & Hb & _ & Hhigh).
  simpl. rewrite Hb, Hhigh. simpl. rewrite (IH Hs). reflexivity.
Qed.

Lemma parseValue_quoted (fuel : nat) (d : N) (s rest : string) :
  plain s = true ->
  parseValue (S fuel) d (quoted s rest) = Some (JString s, rest).
Proof.
  intros H. unfold quoted. simpl.
  rewrite (scanString_plain s rest H), (unquote_plain s H). reflexivity.
Qed.

Lemma parseMembers_more (fuel : nat) (d : N) (k s : string) (v : json)
    (rest : string) :
  plain k = true ->
  parseValue fuel d s = Some (v, String "," rest) ->
  parseMembers (S fuel) d (quoted k (String ":" s))
  = match parseMembers fuel d rest with
    | Some (ms, rest') => Some ((k, v) :: ms, rest')
    | None => None
    end.
Proof.
  intros Hk Hv. unfold quoted. simpl.
  rewrite (scanString_plain k _ Hk), (unquote_plain k Hk). simpl.
  rewrite Hv. simpl. reflexivity.
Qed.

Lemma parseMembers_last (fuel : nat) (d : N) (k s : string) (v : json)
    (rest : string) :
  plain k = true ->
  parseValue fuel d s = Some (v, String "}" rest) ->
  parseMembers (S fuel) d (quoted k (String ":" s)) = Some ([(k, v)], rest).
Proof.
  intros Hk Hv. unfold quoted. simpl.
  rewrite (scanString_plain k _ Hk), (unquote_plain k Hk). simpl.
  rewrite Hv. simpl. reflexivity.
Qed.

Lemma parseValue_object (fuel : nat) (s : string) (ms : list (string * json))
    (rest : string) :
  parseMembers fuel 1 (String dquote s) = Some (ms, rest) ->
  parseValue (S fuel) 0 (String "{" (String dquote s)) = Some (JObject ms, rest).
Proof.
  intros H. simpl. change (0 + 1)%N with 1%N. rewrite H. reflexivity.
Qed.

Lemma requestBody_parse (n a p : string) :
  plain n = true -> plain a = true -> plain p = true ->
  firstValue (requestBody n a p)
  = Some (JObject [("navIdent", JString n); ("appName", JString a);
                   ("podName", JString p)]).
Proof.
  intros Hn Ha Hp.
  assert (H5 : parseValue 5 0 (requestBody n a p)
               = Some (JObject [("navIdent", JString n); ("appName", JString a);
                                ("podName", JString p)], "")).
  { unfold requestBody. apply parseValue_object.
    change (String dquote ("navIdent" ++ String dquote ?r)) with (quoted "navIdent" r).
    rewrite (parseMembers_more 3 1 "navIdent" _ (JString n) _ eq_refl
               (parseValue_quoted 2 1 n _ Hn)).
    rewrite (parseMembers_more 2 1 "appName" _ (JString a) _ eq_refl
               (parseValue_quoted 1 1 a _ Ha)).
    rewrite (parseMembers_last 1 1 "podName" _ (JString p) _ eq_refl
               (parseValue_quoted 0 1 p _ Hp)).
    reflexivity. }
  unfold firstValue.
  destruct (parse_fuel 5) as [Hv _].
  destruct (Hv _ _ _ _ H5) as [_ Hf].
  rewrite (Hf (fuelFor (requestBody n a p))); [reflexivity|].
  unfold fuelFor. simpl. lia.
Qed.

(** X8.  The body the README documents decodes to what it says: for
    strings of printable ASCII without quote and backslash, the object with
    the members [navIdent], [appName] and [podName] is decoded to the
    request with exactly these three strings. *)
Theorem Decode_requestBody (navIdent appName podName : string) :
  plain navIdent = true -> plain appName = true -> plain podName = true ->
  Decode (requestBody navIdent appName podName)
  = inl (mkRequest navIdent appName podName).
Proof.
  intros Hn Ha Hp. unfold Decode.
  rewrite (requestBody_parse _ _ _ Hn Ha Hp). reflexivity.
Qed.

(** A member name selects a field exactly when the two names are equal up
    to ASCII case. *)
Lemma lookupField_fold (key : string) (f : field) :
  lookupField key = Some f <-> foldName key = foldName (fieldName f).
Proof.
  unfold lookupField. cbn [List.find fieldName].
  change (foldName "navIdent") with "NAVIDENT".
  change (foldName "appName") with "APPNAME".
  change (foldName "podName") with "PODNAME".
  destruct (String.eqb key "navIdent") eqn:H1.
  { apply String.eqb_eq in H1. subst key.
    split; [intros [= <-]; reflexivity|]. destruct f; [reflexivity|discriminate..]. }
  destruct (String.eqb key "appName") eqn:H2.
  { apply String.eqb_eq in H2. subst key.
    split; [intros [= <-]; reflexivity|]. destruct f; [discriminate|reflexivity|discriminate]. }
  destruct (String.eqb key "podName") eqn:H3.
  { apply String.eqb_eq in H3. subst key.
    split; [intros [= <-]; reflexivity|]. destruct f; [discriminate..|reflexivity]. }
  destruct (String.eqb (foldName key) "NAVIDENT") eqn:F1.
  { apply String.eqb_eq in F1. rewrite F1.
    split; [intros [= <-]; reflexivity|]. destruct f; [reflexivity|discriminate..]. }
  destruct (String.eqb (foldName key) "APPNAME") eqn:F2.
  { apply String.eqb_eq in F2. rewrite F2.
    split; [intros [= <-]; reflexivity|]. destruct f; [discriminate|reflexivity|discriminate]. }
  destruct (String.eqb (foldName key) "PODNAME") eqn:F3.
  { apply String.eqb_eq in F3. rewrite F3.
    split; [intros [= <-]; reflexivity|]. destruct f; [discriminate..|reflexivity]. }
  apply String.eqb_neq in F1, F2, F3.
  split; [discriminate|]. destruct f; intros H; contradiction.
Qed.

Lemma storeMembers_app (ms ms' : list (string * json)) st :
  storeMembers (ms ++ ms')%list st = storeMembers ms' (storeMembers ms st).
Proof.
  revert st. induction ms as [|[k v] ms IH]; intros st; simpl; [reflexivity|].
  destruct (lookupField k); apply IH.
Qed.

Lemma getField_setField_same f s req : getField f (setField f s req) = s.
Proof. destruct f; reflexivity. Qed.

(** X9.  Member names are matched without regard to ASCII case, and the
    last member that names a field decides it: when the last member of the
    body's object holds a string under a name equal, up to case, to the
    name of a field, and the members before it raise no type error, the
    body decodes and that field holds that string, whatever the earlier
    members stored. *)
Theorem Decode_member (body : string) (ms : list (string * json))
    (key value : string) (f : field) :
  firstValue body = Some (JObject (ms ++ [(key, JString value)])%list) ->
  foldName key = foldName (fieldName f) ->
  forallb storable ms = true ->
  exists req, Decode body = inl req /\ getField f req = value.
Proof.
  intros Hbody Hkey Hms.
  apply lookupField_fold in Hkey.
  unfold Decode. rewrite Hbody. simpl. rewrite storeMembers_app.
  destruct (storeMembers ms (zeroRequest, None)) as [req saved] eqn:Hst.
  assert (Hsaved : saved = None).
  { apply (storeMembers_storable ms zeroRequest) in Hms. rewrite Hst in Hms. exact Hms. }
  subst saved. simpl. rewrite Hkey. simpl.
  exists (setField f value req). split; [reflexivity|apply getField_setField_same].
Qed.

(** ** The registry during and after the startup *)

Section RegistryCoverage.

Context {U : Unleash} {E : Env}.

Local Open Scope list_scope.

Ltac step_cases Hstep :=
  simpl in Hstep;
  repeat match type of Hstep with
         | context [match ?x with _ => _ end] => destruct x eqn:?; try discriminate
         end;
  try (injection Hstep as <-); simpl in *.

Lemma step_ready a s s' :
  step a s = Some s' -> ready (reg s) = true -> ready (reg s') = true.
Proof.
  intros Hstep Hr. destruct a; step_cases Hstep; auto.
Qed.

Lemma run_ready sched : forall s s',
  run sched s = Some s' -> ready (reg s) = true -> ready (reg s') = true.
Proof.
  induction sched as [|a sched IH]; intros s s' Hrun Hr; simpl in Hrun.
  - injection Hrun as <-. exact Hr.
  - destruct (step a s) as [s1|] eqn:Hstep; [|discriminate].
    exact (IH _ _ Hrun (step_ready _ _ _ Hstep Hr)).
Qed.

(** What a move does to the client map. *)
Lemma step_clientMap a s s' :
  step a s = Some s' ->
  clientMap (reg s') = clientMap (reg s)
  \/ (a = AClose /\ clientMap (reg s') = ∅)
  \/ (exists i app client,
        a = AClientReady i
        /\ goroutines s !! i = Some (mkGoroutine app (GWaitForReady client))
        /\ clientMap (reg s') = <[app := client]> (clientMap (reg s))).
Proof.
  intros Hstep. destruct a; simpl in Hstep.
  - destruct (pc s); try discriminate. injection Hstep as <-. left. reflexivity.
  - destruct (pc s) as [|[|]|]; try discriminate. injection Hstep as <-. left. reflexivity.
  - destruct (goroutines s !! i) as [[app []]|]; try discriminate.
    destruct (NewClient (clientOptions app)).
    + injection Hstep as <-. left. reflexivity.
    + destruct (length (errChan s) <? length InboundApps)%nat; [|discriminate].
      injection Hstep as <-. left. reflexivity.
  - destruct (goroutines s !! i) as [[app [|client| |]]|] eqn:Hi; try discriminate.
    injection Hstep as <-. right. right. exists i, app, client. auto.
  - destruct (pc s) as [|[|]|]; try discriminate.
    destruct (wg s =? 0)%nat; [|discriminate].
    destruct (0 <? length (errChan s))%nat; injection Hstep as <-; left; reflexivity.
  - injection Hstep as <-. left. reflexivity.
  - injection Hstep as <-. left. reflexivity.
  - injection Hstep as <-. right. left. auto.
Qed.

Lemma step_grows a s s' app :
  step a s = Some s' -> isClose a = false ->
  is_Some (clientMap (reg s) !! app) -> is_Some (clientMap (reg s') !! app).
Proof.
  intros Hstep Hc Happ.
  destruct (step_clientMap _ _ _ Hstep) as [->|[[-> _]|(i & g & c & _ & _ & ->)]];
    [exact Happ|discriminate|].
  destruct (decide (app = g)) as [->|Hne].
  - rewrite lookup_insert_eq. eauto.
  - rewrite lookup_insert_ne by congruence. exact Happ.
Qed.

Lemma run_grows sched : forall s s' app,
  run sched s = Some s' -> existsb isClose sched = false ->
  is_Some (clientMap (reg s) !! app) -> is_Some (clientMap (reg s') !! app).
Proof.
  induction sched as [|a sched IH]; intros s s' app Hrun Hc Happ; simpl in Hrun, Hc.
  - injection Hrun as <-. exact Happ.
  - apply orb_false_iff in Hc as [Ha Hc].
    destruct (step a s) as [s1|] eqn:Hstep; [|discriminate].
    exact (IH _ _ _ Hrun Hc (step_grows _ _ _ _ Hstep Ha Happ)).
Qed.

Lemma ownClients_step hist a s s' :
  Inv hist s -> ownClients (reg s) -> step a s = Some s' -> ownClients (reg s').
Proof.
  intros HI Hown Hstep app c Hc.
  destruct (step_clientMap _ _ _ Hstep) as [Heq|[[_ Heq]|(i & g & c' & _ & Hi & Heq)]];
    rewrite Heq in Hc.
  - exact (Hown _ _ Hc).
  - rewrite lookup_empty in Hc. discriminate.
  - destruct (decide (app = g)) as [->|Hne].
    + rewrite lookup_insert_eq in Hc. injection Hc as <-.
      pose proof (inv_constructed _ _ HI) as Hcon.
      rewrite Forall_forall in Hcon.
      exact (Hcon _ (list_elem_of_lookup_2 _ _ _ Hi)).
    + rewrite lookup_insert_ne in Hc by congruence. exact (Hown _ _ Hc).
Qed.

Lemma ownClients_run sched : forall hist s s',
  Inv hist s -> ownClients (reg s) -> run sched s = Some s' -> ownClients (reg s').
Proof.
  induction sched as [|a sched IH]; intros hist s s' HI Hown Hrun; simpl in Hrun.
  - injection Hrun as <-. exact Hown.
  - destruct (step a s) as [s1|] eqn:Hstep; [|discriminate].
    exact (IH _ _ _ (Inv_step _ _ _ _ HI Hstep) (ownClients_step _ _ _ _ HI Hown Hstep) Hrun).
Qed.

Lemma ownClients_reachable sched s :
  run sched initState = Some s -> ownClients (reg s).
Proof.
  apply (ownClients_run sched [] initState s Inv_init).
  intros app c Hc. simpl in Hc. rewrite lookup_empty in Hc. discriminate.
Qed.

(** The error [Initialize] returns is nil exactly when no construction
    fails. *)
Lemma returned_error hist s err :
  Inv hist s -> pc s = InitReturned err ->
  (err = None <-> failures InboundApps = []).
Proof.
  intros HI Hpc.
  pose proof (inv_apps _ _ HI) as Happs. rewrite Hpc in Happs.
  pose proof (inv_returned _ _ HI) as Hret. rewrite Hpc in Hret.
  destruct Hret as [Hdone Herr].
  pose proof (inv_errChan _ _ HI) as Hch.
  rewrite (sent_failures _ (inv_constructed _ _ HI) Hdone), Happs in Hch.
  destruct (errChan s) as [|e errs].
  - apply Permutation_nil, map_eq_nil in Hch. rewrite Hch. subst err. tauto.
  - subst err. split; [discriminate|]. intros Hnil. rewrite Hnil in Hch.
    apply Permutation_sym, Permutation_nil in Hch. discriminate.
Qed.

Lemma ready_returned hist s :
  Inv hist s -> (ready (reg s) = true <-> pc s = InitReturned None).
Proof.
  intros HI. rewrite (inv_ready _ _ HI).
  destruct (pc s) as [| |[e|]]; split; congruence.
Qed.

(** Once [Initialize] has returned nil and until [Close] is called, every
    inbound application has its client in the map. *)
Lemma ready_all_stored hist s :
  Inv hist s -> ready (reg s) = true -> existsb isClose hist = false ->
  forall app, In app InboundApps -> is_Some (clientMap (reg s) !! app).
Proof.
  intros HI Hr Hnc app Hin.
  apply (ready_returned _ _ HI) in Hr.
  pose proof (proj1 (returned_error _ _ _ HI Hr) eq_refl) as Hnone.
  pose proof (inv_apps _ _ HI) as Happs. rewrite Hr in Happs.
  pose proof (inv_returned _ _ HI) as Hret. rewrite Hr in Hret.
  destruct Hret as [Hdone _].
  pose proof (inv_stored _ _ HI Hnc) as Hst.
  pose proof (inv_constructed _ _ HI) as Hcon.
  rewrite <- Happs in Hin. apply in_map_iff in Hin as (g & <- & Hg).
  apply list_elem_of_In in Hg.
  rewrite Forall_forall in Hst, Hcon, Hdone.
  apply (Hst g Hg). specialize (Hcon g Hg). specialize (Hdone g Hg).
  unfold isDone in Hdone. unfold constructed in Hcon. unfold isStored.
  destruct (gState g) eqn:Hgs; try discriminate; [|reflexivity].
  exfalso. apply (proj1 (failures_nil InboundApps)) with (app := gApp g) in Hnone.
  - destruct Hnone as [c Hc]. congruence.
  - rewrite <- Happs. apply in_map, list_elem_of_In, Hg.
Qed.

Lemma InboundApps_In (app : string) :
  In app InboundApps <-> In app Rules /\ app <> "".
Proof.
  unfold InboundApps. rewrite List.filter_In, negb_true_iff, String.eqb_neq. tauto.
Qed.

Lemma IsValidApp_In (app : string) :
  IsValidApp app = true <-> In app InboundApps.
Proof.
  unfold IsValidApp. rewrite existsb_exists. split.
  - intros (x & Hx & Heq). apply String.eqb_eq in Heq. subst x. exact Hx.
  - intros H. exists app. split; [exact H|apply String.eqb_refl].
Qed.

Lemma goroutines_bound hist s :
  Inv hist s -> length (goroutines s) <= length InboundApps.
Proof.
  intros HI. pose proof (inv_apps _ _ HI) as Ha.
  destruct (pc s).
  - destruct Ha as (-> & _). simpl. lia.
  - rewrite <- Ha, length_app, length_map. lia.
  - rewrite <- Ha, length_map. lia.
Qed.

(** X10.  In every state of the startup, [/isReady] answers 200 with the
    reply of [/isAlive] exactly when [Initialize] has returned nil, and 503
    NOT READY in every other state: before the call, during the
    constructions, and after a return with an error.  When the construction
    fails for some inbound application, [/isReady] answers 503 in every
    state. *)
Theorem readinessHandler_reachable (sched : list action) (s : state) :
  run sched initState = Some s ->
  readinessHandler (reg s)
  = match pc s with
    | InitReturned None => livenessHandler
    | _ => mkHttpResponse 503 "text/plain" "NOT READY"
    end
  /\ (failures InboundApps <> [] -> StatusCode (readinessHandler (reg s)) = 503).
Proof.
  intros Hrun. pose proof (Inv_reachable _ _ Hrun) as HI.
  unfold readinessHandler, Ready. split.
  - rewrite (inv_ready _ _ HI). destruct (pc s) as [| |[e|]]; reflexivity.
  - intros Hf. destruct (ready (reg s)) eqn:Hr; [|reflexivity].
    exfalso. apply Hf.
    apply (ready_returned _ _ HI) in Hr.
    exact (proj1 (returned_error _ _ _ HI Hr) eq_refl).
Qed.

(** X11.  No move clears the readiness flag: from a state in which [Ready]
    is true, whatever is run ([Close] included), [Ready] is true afterwards
    and [/isReady] answers as [/isAlive] does. *)
Theorem Ready_stays (sched : list action) (s s' : state) :
  run sched s = Some s' -> Ready (reg s) = true ->
  Ready (reg s') = true /\ readinessHandler (reg s') = livenessHandler.
Proof.
  intros Hrun Hr. pose proof (run_ready _ _ _ Hrun Hr) as Hr'.
  split; [exact Hr'|]. unfold readinessHandler, Ready. rewrite Hr'. reflexivity.
Qed.

Lemma lookup_map {A B} (f : A -> B) (l : list A) (i : nat) (x : A) :
  l !! i = Some x -> List.map f l !! i = Some (f x).
Proof.
  revert i. induction l as [|y l IH]; intros [|i] H; try discriminate; simpl in *.
  - injection H as ->. reflexivity.
  - exact (IH i H).
Qed.

Lemma storedBy_step hist a s s' :
  Inv hist s -> storedBy s -> step a s = Some s' -> storedBy s'.
Proof.
  intros HI Hst Hstep. pose proof (inv_apps _ _ HI) as Happs.
  destruct a; simpl in Hstep.
  - destruct (pc s) eqn:Hpc; try discriminate. injection Hstep as <-.
    intros app c Hc. simpl in Hc. destruct (Hst _ _ Hc) as [i Hi].
    destruct Happs as (Hnil & _). rewrite Hnil in Hi. discriminate.
  - destruct (pc s) as [|[|app0 rest]|] eqn:Hpc; try discriminate. injection Hstep as <-.
    intros app c Hc. simpl in Hc. destruct (Hst _ _ Hc) as [i Hi].
    exists i. simpl. apply lookup_app_l_Some. exact Hi.
  - destruct (goroutines s !! i) as [[app0 []]|] eqn:Hi; try discriminate.
    assert (Hkeep : forall st app c,
              clientMap (reg s) !! app = Some c ->
              exists j, <[i := mkGoroutine app0 st]> (goroutines s) !! j
                        = Some (mkGoroutine app (GStored c))).
    { intros st app c Hc. destruct (Hst _ _ Hc) as [j Hj]. exists j.
      rewrite list_lookup_insert_ne; [exact Hj|]. intros ->. congruence. }
    destruct (NewClient (clientOptions app0)) as [c0|e].
    + injection Hstep as <-. intros app c Hc. apply Hkeep. exact Hc.
    + destruct (length (errChan s) <? length InboundApps)%nat; [|discriminate].
      injection Hstep as <-. intros app c Hc. apply Hkeep. exact Hc.
  - destruct (goroutines s !! i) as [[app0 [|c0| |]]|] eqn:Hi; try discriminate.
    injection Hstep as <-. intros app c Hc. simpl in Hc. simpl.
    destruct (decide (app = app0)) as [->|Hne].
    + rewrite lookup_insert_eq in Hc. injection Hc as <-. exists i.
      apply list_lookup_insert_eq. eapply lookup_lt_Some. exact Hi.
    + rewrite lookup_insert_ne in Hc by congruence.
      destruct (Hst _ _ Hc) as [j Hj]. exists j.
      rewrite list_lookup_insert_ne; [exact Hj|]. intros ->. congruence.
  - destruct (pc s) as [|[|]|]; try discriminate.
    destruct (wg s =? 0)%nat; [|discriminate].
    destruct (0 <? length (errChan s))%nat; injection Hstep as <-;
      intros app c Hc; exact (Hst _ _ Hc).
  - injection Hstep as <-. exact Hst.
  - injection Hstep as <-. exact Hst.
  - injection Hstep as <-. intros app c Hc. simpl in Hc.
    rewrite lookup_empty in Hc. discriminate.
Qed.

Lemma storedBy_run sched : forall hist s s',
  Inv hist s -> storedBy s -> run sched s = Some s' -> storedBy s'.
Proof.
  induction sched as [|a sched IH]; intros hist s s' HI Hst Hrun; simpl in Hrun.
  - injection Hrun as <-. exact Hst.
  - destruct (step a s) as [s1|] eqn:Hstep; [|discriminate].
    exact (IH _ _ _ (Inv_step _ _ _ _ HI Hstep) (storedBy_step _ _ _ _ HI Hst Hstep) Hrun).
Qed.

Lemma storedBy_reachable sched s : run sched initState = Some s -> storedBy s.
Proof.
  apply (storedBy_run sched [] initState s Inv_init).
  intros app c Hc. simpl in Hc. rewrite lookup_empty in Hc. discriminate.
Qed.

(** The goroutines are those of distinct applications when the inbound
    applications are distinct. *)
Lemma goroutines_NoDup hist s :
  Inv hist s -> NoDup InboundApps -> NoDup (List.map gApp (goroutines s)).
Proof.
  intros HI Hnd. pose proof (inv_apps _ _ HI) as Ha.
  destruct (pc s).
  - destruct Ha as (-> & _). constructor.
  - rewrite <- Ha in Hnd. apply NoDup_app in Hnd. tauto.
  - rewrite Ha. exact Hnd.
Qed.

Lemma stable_step hist a s s' app c :
  Inv hist s -> storedBy s -> NoDup InboundApps -> isClose a = false ->
  step a s = Some s' ->
  clientMap (reg s) !! app = Some c -> clientMap (reg s') !! app = Some c.
Proof.
  intros HI Hst Hnd Hnc Hstep Hc.
  destruct (step_clientMap _ _ _ Hstep) as [->|[[-> _]|(i & g & c' & _ & Hi & ->)]];
    [exact Hc|discriminate|].
  destruct (decide (app = g)) as [->|Hne]; [|rewrite lookup_insert_ne by congruence; exact Hc].
  exfalso. destruct (Hst _ _ Hc) as [j Hj].
  pose proof (goroutines_NoDup _ _ HI Hnd) as Hgs.
  pose proof (lookup_map gApp _ _ _ Hi) as Hi'.
  pose proof (lookup_map gApp _ _ _ Hj) as Hj'.
  simpl in Hi', Hj'.
  pose proof (NoDup_lookup _ _ _ _ Hgs Hi' Hj') as ->. congruence.
Qed.

Lemma stable_run sched : forall hist s s' app c,
  Inv hist s -> storedBy s -> NoDup InboundApps -> existsb isClose sched = false ->
  run sched s = Some s' ->
  clientMap (reg s) !! app = Some c -> clientMap (reg s') !! app = Some c.
Proof.
  induction sched as [|a sched IH]; intros hist s s' app c HI Hst Hnd Hnc Hrun Hc;
    simpl in Hrun, Hnc.
  - injection Hrun as <-. exact Hc.
  - apply orb_false_iff in Hnc as [Ha Hnc].
    destruct (step a s) as [s1|] eqn:Hstep; [|discriminate].
    exact (IH _ _ _ _ _ (Inv_step _ _ _ _ HI Hstep) (storedBy_step _ _ _ _ HI Hst Hstep)
             Hnd Hnc Hrun (stable_step _ _ _ _ _ _ HI Hst Hnd Ha Hstep Hc)).
Qed.

(** X12.  Until [Close] is called, an identity that [Get] finds stays
    found, and, when no application is listed twice among the inbound
    applications, with the same client: the client [Get] returns for an
    identity in a state of the startup is the client [Get] returns for it
    after any further moves among which there is no [Close].  (An
    application that is listed twice has two goroutines, and the entry is
    the client of the one that stored last: a goroutine that is waiting
    for its client stores it under its application whatever the map
    holds.) *)
Theorem Get_stable (sched sched' : list action) (s s' : state) (app : string) :
  run sched initState = Some s -> run sched' s = Some s' ->
  existsb isClose sched' = false ->
  (is_Some (Get (reg s) app) -> is_Some (Get (reg s') app))
  /\ (NoDup InboundApps ->
      forall c, Get (reg s) app = Some c -> Get (reg s') app = Some c)
  /\ (forall j c, goroutines s !! j = Some (mkGoroutine app (GWaitForReady c)) ->
        exists s1, step (AClientReady j) s = Some s1 /\ Get (reg s1) app = Some c).
Proof.
  intros Hrun Hrun' Hnc. unfold Get. split; [|split].
  - exact (run_grows _ _ _ app Hrun' Hnc).
  - intros Hnd c Hc.
    exact (stable_run _ _ _ _ _ _ (Inv_reachable _ _ Hrun) (storedBy_reachable _ _ Hrun)
             Hnd Hnc Hrun' Hc).
  - intros j c Hj. simpl. rewrite Hj. eexists. split; [reflexivity|].
    simpl. apply lookup_insert_eq.
Qed.

(** X13.  The client [Get] returns for an identity is the one
    [unleash.NewClient] returned for the options of that identity: the
    identity as application name and as the listener's name, the URL of the
    server followed by [/api], and the token as authorization. *)
Theorem Get_own_client (sched : list action) (s : state) (app : string) (c : Client) :
  run sched initState = Some s -> Get (reg s) app = Some c ->
  NewClient (mkClientOptions app app (UnleashServerAPIURL ++ "/api")%string
               UnleashServerAPIToken) = inl c.
Proof.
  intros Hrun Hget. exact (ownClients_reachable _ _ Hrun _ _ Hget).
Qed.

(** X14.  No goroutine of [Initialize] is ever blocked: while a goroutine
    has not returned, [errChan] holds fewer errors than its capacity, the
    number of inbound applications, so the goroutine's next move (the
    return of [NewClient], with the send of its error if it fails, or the
    store of its client) is enabled. *)
Theorem goroutine_not_blocked (sched : list action) (s : state) (i : nat)
    (g : goroutine) :
  run sched initState = Some s -> goroutines s !! i = Some g -> isDone g = false ->
  length (errChan s) < length InboundApps
  /\ exists a s', (a = ANewClient i \/ a = AClientReady i) /\ step a s = Some s'.
Proof.
  intros Hrun Hi Hnd. pose proof (Inv_reachable _ _ Hrun) as HI.
  assert (Hcap : length (errChan s) < length InboundApps).
  { pose proof (Permutation_length (inv_errChan _ _ HI)) as Hlen.
    pose proof (sent_bound (goroutines s)) as Hb.
    pose proof (goroutines_bound _ _ HI) as Hgs.
    assert (Hin : In g (List.filter (fun g => negb (isDone g)) (goroutines s))).
    { apply List.filter_In. split.
      - apply list_elem_of_In. exact (list_elem_of_lookup_2 _ _ _ Hi).
      - rewrite Hnd. reflexivity. }
    destruct (List.filter (fun g => negb (isDone g)) (goroutines s)); [destruct Hin|].
    simpl in Hb. lia. }
  split; [exact Hcap|].
  destruct g as [app st]. unfold isDone in Hnd. simpl in Hnd.
  destruct st as [|c| |]; try discriminate.
  - exists (ANewClient i). simpl. rewrite Hi.
    destruct (NewClient (clientOptions app)); [eauto|].
    apply Nat.ltb_lt in Hcap. rewrite Hcap. eauto.
  - exists (AClientReady i). simpl. rewrite Hi. eauto.
Qed.

(** X15.  Once [Ready] is true and as long as [Close] has not been called,
    [Get] finds a client exactly for the identities [IsValidApp] accepts,
    and a request with an accepted method, a valid flag name and a body
    that decodes with such an identity as [appName] is answered with
    status 200. *)
Theorem Ready_serves (sched : list action) (s : state) :
  run sched initState = Some s -> existsb isClose sched = false ->
  Ready (reg s) = true ->
  (forall app, is_Some (Get (reg s) app) <-> IsValidApp app = true)
  /\ (forall r req,
        accepted r = true -> IsValidName (featureOf r) = true ->
        Decode (Body r) = inl req -> IsValidApp (AppName req) = true ->
        StatusCode (response (Handler (reg s) r)) = 200).
Proof.
  intros Hrun Hnc Hr. pose proof (Inv_reachable _ _ Hrun) as HI.
  assert (Hget : forall app, is_Some (Get (reg s) app) <-> IsValidApp app = true).
  { intros app. rewrite IsValidApp_In. split.
    - apply (inv_keys _ _ HI).
    - apply (ready_all_stored _ _ HI Hr Hnc). }
  split; [exact Hget|].
  intros r req Ha Hv Hd Happ.
  rewrite (Handler_checked _ _ Ha Hv), Hd.
  assert (Hne : String.eqb (AppName req) "" = false).
  { apply String.eqb_neq. intros He. rewrite He in Happ.
    apply IsValidApp_In, InboundApps_In in Happ. tauto. }
  rewrite Hne. apply Hget in Happ. destruct Happ as [c ->]. reflexivity.
Qed.

(** X16.  [InboundApps] holds exactly the non-empty applications of the
    rules, and [IsValidApp] accepts exactly its members, so never the empty
    identity; [init] panics exactly when no rule names an application, and
    otherwise leaves a list that is not empty; and in no state of the
    startup does the registry hold a client under the empty identity. *)
Theorem InboundApps_spec :
  (forall app, In app InboundApps <-> In app Rules /\ app <> "")
  /\ (forall app, IsValidApp app = true <-> In app InboundApps)
  /\ IsValidApp "" = false
  /\ (init = None <-> forall app, In app Rules -> app = "")
  /\ (forall apps, init = Some apps -> apps = InboundApps /\ apps <> [])
  /\ (forall sched s, run sched initState = Some s -> Get (reg s) "" = None).
Proof.
  split; [exact InboundApps_In|]. split; [exact IsValidApp_In|].
  assert (Hempty : ~ In "" InboundApps).
  { intros H. apply InboundApps_In in H. tauto. }
  split.
  { destruct (IsValidApp "") eqn:Hv; [|reflexivity].
    apply IsValidApp_In in Hv. contradiction. }
  split.
  { unfold init. destruct InboundApps as [|a apps] eqn:Happs; simpl.
    - split; [intros _|reflexivity]. intros app Hin.
      destruct (String.eqb app "") eqn:He; [apply String.eqb_eq; exact He|].
      apply String.eqb_neq in He.
      assert (In app InboundApps) by (apply InboundApps_In; auto).
      rewrite Happs in *. contradiction.
    - split; [discriminate|]. intros H.
      assert (Ha : In a InboundApps) by (rewrite Happs; left; reflexivity).
      apply InboundApps_In in Ha as [Hin Hne]. specialize (H a Hin). contradiction. }
  split.
  { unfold init. intros apps. destruct InboundApps; simpl; [discriminate|].
    intros [= <-]. split; [reflexivity|discriminate]. }
  intros sched s Hrun. pose proof (Inv_reachable _ _ Hrun) as HI.
  unfold Get. destruct (clientMap (reg s) !! "") as [c|] eqn:Hc; [|reflexivity].
  exfalso. apply Hempty. apply (inv_keys _ _ HI). eauto.
Qed.

(** X17.  When [Initialize] has returned, [initializeClients] ends the
    process with exit status 1 exactly when the construction fails for some
    inbound application, and returns to [main] exactly when [Ready] is
    true. *)
Theorem initializeClients_exit (sched : list action) (s : state) (err : option string) :
  run sched initState = Some s -> pc s = InitReturned err ->
  (initializeClients err = Some 1 <-> failures InboundApps <> [])
  /\ (initializeClients err = None <-> Ready (reg s) = true).
Proof.
  intros Hrun Hpc. pose proof (Inv_reachable _ _ Hrun) as HI.
  pose proof (returned_error _ _ _ HI Hpc) as Herr.
  pose proof (ready_returned _ _ HI) as Hready. rewrite Hpc in Hready.
  unfold Ready. destruct err as [e|]; simpl.
  - split.
    + split; [intros _ Hf|reflexivity]. apply Herr in Hf. discriminate.
    + rewrite Hready. split; discriminate.
  - split.
    + split; [discriminate|]. intros Hf. exfalso. apply Hf, Herr. reflexivity.
    + rewrite Hready. tauto.
Qed.

Lemma movesLeft_insert (gs : list goroutine) (i : nat) (g g' : goroutine) :
  gs !! i = Some g ->
  list_sum (List.map movesLeft (<[i := g']> gs)) + movesLeft g
  = list_sum (List.map movesLeft gs) + movesLeft g'.
Proof.
  intros Hi. destruct (lookup_middle _ _ _ Hi) as (l1 & l2 & -> & ->).
  rewrite insert_middle, !List.map_app, !list_sum_app. simpl. lia.
Qed.

(** Every move of [Initialize] and of its goroutines uses up one of the
    moves left. *)
Lemma step_potential hist a s s' :
  Inv hist s -> step a s = Some s' ->
  potential s' + (if isInternal a then 1 else 0) <= potential s.
Proof.
  intros HI Hstep. pose proof (inv_apps _ _ HI) as Happs.
  destruct a; simpl in Hstep.
  - destruct (pc s) eqn:Hpc; try discriminate. injection Hstep as <-.
    unfold potential. rewrite Hpc. simpl. lia.
  - destruct (pc s) as [|[|app rest]|] eqn:Hpc; try discriminate. injection Hstep as <-.
    unfold potential. rewrite Hpc. simpl pc. simpl goroutines.
    rewrite List.map_app, list_sum_app. simpl. lia.
  - destruct (goroutines s !! i) as [[app []]|] eqn:Hi; try discriminate.
    assert (Hsum : forall st, movesLeft (mkGoroutine app st) <= 1 ->
              match pc s with
              | InitNotCalled => False
              | _ => list_sum (List.map movesLeft (<[i := mkGoroutine app st]> (goroutines s))) + 1
                     <= list_sum (List.map movesLeft (goroutines s))
              end).
    { intros st Hst.
      pose proof (movesLeft_insert _ _ _ (mkGoroutine app st) Hi) as Hm.
      change (movesLeft (mkGoroutine app GSpawned)) with 2 in Hm.
      destruct (pc s); [|lia..].
      destruct Happs as (Hnil & _). rewrite Hnil in Hi. discriminate. }
    destruct (NewClient (clientOptions app)) as [c|e].
    + injection Hstep as <-.
      specialize (Hsum (GWaitForReady c) ltac:(unfold movesLeft; simpl; lia)).
      unfold potential. simpl. destruct (pc s); [contradiction|lia..].
    + destruct (length (errChan s) <? length InboundApps)%nat; [|discriminate].
      injection Hstep as <-.
      specialize (Hsum (GFailed e) ltac:(unfold movesLeft; simpl; lia)).
      unfold potential. simpl. destruct (pc s); [contradiction|lia..].
  - destruct (goroutines s !! i) as [[app [|c| |]]|] eqn:Hi; try discriminate.
    injection Hstep as <-.
    pose proof (movesLeft_insert _ _ _ (mkGoroutine app (GStored c)) Hi) as Hm.
    change (movesLeft (mkGoroutine app (GWaitForReady c))) with 1 in Hm.
    change (movesLeft (mkGoroutine app (GStored c))) with 0 in Hm.
    unfold potential. simpl. destruct (pc s); [|lia..].
    destruct Happs as (Hnil & _). rewrite Hnil in Hi. discriminate.
  - destruct (pc s) as [|[|]|] eqn:Hpc; try discriminate.
    destruct (wg s =? 0)%nat; [|discriminate].
    destruct (0 <? length (errChan s))%nat; injection Hstep as <-;
      unfold potential; rewrite Hpc; simpl; lia.
  - injection Hstep as <-. simpl. lia.
  - injection Hstep as <-. simpl. lia.
  - injection Hstep as <-. unfold potential. simpl. lia.
Qed.

Lemma run_potential sched : forall hist s s',
  Inv hist s -> run sched s = Some s' ->
  potential s' + length (List.filter isInternal sched) <= potential s.
Proof.
  induction sched as [|a sched IH]; intros hist s s' HI Hrun; simpl in Hrun.
  - injection Hrun as <-. simpl. lia.
  - destruct (step a s) as [s1|] eqn:Hstep; [|discriminate].
    pose proof (step_potential _ _ _ _ HI Hstep) as H1.
    pose proof (IH _ _ _ (Inv_step _ _ _ _ HI Hstep) Hrun) as H2.
    simpl. destruct (isInternal a); simpl; lia.
Qed.

(** A goroutine that has not returned has its next move enabled. *)
Lemma pending_move hist s i g :
  Inv hist s -> goroutines s !! i = Some g -> isDone g = false ->
  exists a s', (a = ANewClient i \/ a = AClientReady i) /\ step a s = Some s'.
Proof.
  intros HI Hi Hnd.
  assert (Hcap : length (errChan s) < length InboundApps).
  { pose proof (Permutation_length (inv_errChan _ _ HI)) as Hlen.
    pose proof (sent_bound (goroutines s)) as Hb.
    pose proof (goroutines_bound _ _ HI) as Hgs.
    assert (Hin : In g (List.filter (fun g => negb (isDone g)) (goroutines s))).
    { apply List.filter_In. split.
      - apply list_elem_of_In. exact (list_elem_of_lookup_2 _ _ _ Hi).
      - rewrite Hnd. reflexivity. }
    destruct (List.filter (fun g => negb (isDone g)) (goroutines s)); [destruct Hin|].
    simpl in Hb. lia. }
  destruct g as [app st]. unfold isDone in Hnd. simpl in Hnd.
  destruct st as [|c| |]; try discriminate.
  - exists (ANewClient i). simpl. rewrite Hi.
    destruct (NewClient (clientOptions app)); [eauto|].
    apply Nat.ltb_lt in Hcap. rewrite Hcap. eauto.
  - exists (AClientReady i). simpl. rewrite Hi. eauto.
Qed.

(** Between its call and its return, [Initialize] or one of its goroutines
    can move. *)
Lemma internal_progress hist s :
  Inv hist s -> pc s <> InitNotCalled -> (forall err, pc s <> InitReturned err) ->
  exists a s', isInternal a = true /\ step a s = Some s'.
Proof.
  intros HI Hcalled Hnot.
  destruct (pc s) as [|[|app rest]|err] eqn:Hpc;
    [contradiction| | |exfalso; exact (Hnot err eq_refl)].
  - destruct (wg s) as [|n] eqn:Hwg.
    + exists AWaitReturn. simpl. rewrite Hpc, Hwg. simpl.
      destruct (0 <? length (errChan s))%nat; eauto.
    + pose proof (inv_wg _ _ HI) as Hw. rewrite Hwg in Hw.
      destruct (List.filter (fun g => negb (isDone g)) (goroutines s)) as [|g l] eqn:Hf;
        [discriminate|].
      assert (Hin : In g (List.filter (fun g => negb (isDone g)) (goroutines s)))
        by (rewrite Hf; left; reflexivity).
      apply List.filter_In in Hin as [Hin Hnd]. apply negb_true_iff in Hnd.
      apply list_elem_of_In, list_elem_of_lookup in Hin as [i Hi].
      destruct (pending_move _ _ _ _ HI Hi Hnd) as (a & s' & [->| ->] & Hstep);
        eexists _, s'; (split; [|exact Hstep]); reflexivity.
  - exists ALoop. simpl. rewrite Hpc. eauto.
Qed.

(** A goroutine stays as it is while it makes no move. *)
Lemma goroutine_kept hist a s s' i g :
  Inv hist s -> step a s = Some s' ->
  a <> ANewClient i -> a <> AClientReady i ->
  goroutines s !! i = Some g -> goroutines s' !! i = Some g.
Proof.
  intros HI Hstep Hn Hr Hi. pose proof (inv_apps _ _ HI) as Happs.
  destruct a; simpl in Hstep.
  - destruct (pc s) eqn:Hpc; try discriminate.
    destruct Happs as (Hnil & _). rewrite Hnil in Hi. discriminate.
  - destruct (pc s) as [|[|app0 rest]|]; try discriminate. injection Hstep as <-.
    simpl. apply lookup_app_l_Some. exact Hi.
  - destruct (goroutines s !! i0) as [[app0 []]|]; try discriminate.
    assert (i0 <> i) by congruence.
    destruct (NewClient (clientOptions app0)).
    + injection Hstep as <-. simpl. rewrite list_lookup_insert_ne; auto.
    + destruct (length (errChan s) <? length InboundApps)%nat; [|discriminate].
      injection Hstep as <-. simpl. rewrite list_lookup_insert_ne; auto.
  - destruct (goroutines s !! i0) as [[app0 [|c0| |]]|]; try discriminate.
    assert (i0 <> i) by congruence.
    injection Hstep as <-. simpl. rewrite list_lookup_insert_ne; auto.
  - destruct (pc s) as [|[|]|]; try discriminate.
    destruct (wg s =? 0)%nat; [|discriminate].
    destruct (0 <? length (errChan s))%nat; injection Hstep as <-; exact Hi.
  - injection Hstep as <-. exact Hi.
  - injection Hstep as <-. exact Hi.
  - injection Hstep as <-. exact Hi.
Qed.

Lemma goroutine_kept_run sched : forall hist s s' i g,
  Inv hist s -> run sched s = Some s' ->
  (forall a, In a sched -> a <> ANewClient i /\ a <> AClientReady i) ->
  goroutines s !! i = Some g -> goroutines s' !! i = Some g.
Proof.
  induction sched as [|a sched IH]; intros hist s s' i g HI Hrun Hno Hi; simpl in Hrun.
  - injection Hrun as <-. exact Hi.
  - destruct (step a s) as [s1|] eqn:Hstep; [|discriminate].
    destruct (Hno a (or_introl eq_refl)) as [Hn Hr].
    apply (IH _ _ _ _ _ (Inv_step _ _ _ _ HI Hstep) Hrun).
    + intros b Hb. apply Hno. right. exact Hb.
    + exact (goroutine_kept _ _ _ _ _ _ HI Hstep Hn Hr Hi).
Qed.

(** X18.  With K inbound applications, [Initialize] and its goroutines
    make at most 3K + 2 moves in any run (the call, K iterations of the
    loop, at most two moves for each goroutine, the return), and none once
    [Initialize] has returned.  Between the call and the return some move
    of theirs is enabled: the startup never stops by itself.  But the moves
    of a goroutine are events of the SDK (the return of [NewClient], the
    readiness of the client), and [Initialize] waits for them without a
    time limit: as long as a goroutine that has not returned makes no
    move, whatever else happens, [Initialize] does not return. *)
Theorem Initialize_moves_bounded (sched : list action) (s : state) :
  run sched initState = Some s ->
  length (List.filter isInternal sched) <= 3 * length InboundApps + 2
  /\ (forall err a, pc s = InitReturned err -> isInternal a = true -> step a s = None)
  /\ (pc s <> InitNotCalled -> (forall err, pc s <> InitReturned err) ->
      exists a s', isInternal a = true /\ step a s = Some s')
  /\ (forall i g sched' s',
        goroutines s !! i = Some g -> isDone g = false ->
        run sched' s = Some s' ->
        (forall a, In a sched' -> a <> ANewClient i /\ a <> AClientReady i) ->
        forall err, pc s' <> InitReturned err).
Proof.
  intros Hrun. pose proof (Inv_reachable _ _ Hrun) as HI. split; [|split; [|split]].
  - pose proof (run_potential _ _ _ _ Inv_init Hrun) as H.
    change (potential initState) with (3 * length InboundApps + 2) in H. lia.
  - intros err a Hpc Ha.
    pose proof (inv_returned _ _ HI) as Hret. rewrite Hpc in Hret.
    destruct Hret as [Hdone _]. rewrite Forall_forall in Hdone.
    destruct a; try discriminate; simpl; rewrite ?Hpc; try reflexivity.
    + destruct (goroutines s !! i) as [[app st]|] eqn:Hi; [|reflexivity].
      specialize (Hdone _ (list_elem_of_lookup_2 _ _ _ Hi)).
      destruct st; try reflexivity; discriminate.
    + destruct (goroutines s !! i) as [[app st]|] eqn:Hi; [|reflexivity].
      specialize (Hdone _ (list_elem_of_lookup_2 _ _ _ Hi)).
      destruct st; try reflexivity; discriminate.
  - exact (internal_progress _ _ HI).
  - intros i g sched' s' Hi Hnd Hrun' Hno err Hpc.
    pose proof (goroutine_kept_run _ _ _ _ _ _ HI Hrun' Hno Hi) as Hi'.
    pose proof (Inv_run _ _ _ _ HI Hrun') as HI'.
    pose proof (inv_returned _ _ HI') as Hret. rewrite Hpc in Hret.
    destruct Hret as [Hdone _]. rewrite Forall_forall in Hdone.
    specialize (Hdone _ (list_elem_of_lookup_2 _ _ _ Hi')). congruence.
Qed.

End RegistryCoverage.

(** ** The registry at shutdown *)

Section ShutdownProperties.

Context {U : Unleash} {E : Env}.

Local Open Scope list_scope.

(** After the return of [Initialize] nothing is stored any more. *)
Lemma returned_step hist a s s' err :
  Inv hist s -> pc s = InitReturned err -> step a s = Some s' ->
  ready (reg s') = ready (reg s)
  /\ (clientMap (reg s') = clientMap (reg s) \/ clientMap (reg s') = ∅).
Proof.
  intros HI Hpc Hstep.
  pose proof (inv_returned _ _ HI) as Hret. rewrite Hpc in Hret.
  destruct Hret as [Hdone _]. rewrite Forall_forall in Hdone.
  destruct a; simpl in Hstep; rewrite ?Hpc in Hstep; try discriminate.
  - destruct (goroutines s !! i) as [[app st]|] eqn:Hi; [|discriminate].
    specialize (Hdone _ (list_elem_of_lookup_2 _ _ _ Hi)).
    destruct st; discriminate.
  - destruct (goroutines s !! i) as [[app st]|] eqn:Hi; [|discriminate].
    specialize (Hdone _ (list_elem_of_lookup_2 _ _ _ Hi)).
    destruct st; discriminate.
  - injection Hstep as <-. auto.
  - injection Hstep as <-. auto.
  - injection Hstep as <-. simpl. auto.
Qed.

Lemma returned_run sched : forall hist s s' err,
  Inv hist s -> pc s = InitReturned err -> run sched s = Some s' ->
  ready (reg s') = ready (reg s)
  /\ (clientMap (reg s) = ∅ -> clientMap (reg s') = ∅).
Proof.
  induction sched as [|a sched IH]; intros hist s s' err HI Hpc Hrun; simpl in Hrun.
  - injection Hrun as <-. auto.
  - destruct (step a s) as [s1|] eqn:Hstep; [|discriminate].
    destruct (returned_step _ _ _ _ _ HI Hpc Hstep) as [Hr Hm].
    destruct (IH _ _ _ err (Inv_step _ _ _ _ HI Hstep)
                (step_returned _ _ _ _ Hstep Hpc) Hrun) as [Hr' Hm'].
    split; [congruence|]. intros Hempty. apply Hm'.
    destruct Hm as [Hm|Hm]; congruence.
Qed.

(** X21.  After [Initialize] has returned, [Close] ends the service of
    flags for good while the readiness probe goes on as before: whatever
    moves follow the [Close], [Get] finds no identity, no request to the
    handler is answered with status 200, and [Ready] and the reply of
    [/isReady] are what they were before the [Close] (200 after a startup
    without error). *)
Theorem closed_registry_serves_nothing (sched sched' : list action) (s s' : state)
    (err : option string) :
  run sched initState = Some s -> pc s = InitReturned err ->
  run (AClose :: sched') s = Some s' ->
  (forall app, Get (reg s') app = None)
  /\ (forall r, StatusCode (response (Handler (reg s') r)) <> 200)
  /\ Ready (reg s') = Ready (reg s)
  /\ readinessHandler (reg s') = readinessHandler (reg s).
Proof.
  intros Hrun Hpc Hrun'. pose proof (Inv_reachable _ _ Hrun) as HI.
  change (AClose :: sched') with ([AClose] ++ sched') in Hrun'.
  rewrite run_app in Hrun'. simpl in Hrun'.
  set (s1 := mkState (Close (reg s)) (pc s) (wg s) (goroutines s) (errChan s)) in *.
  assert (Hstep : step AClose s = Some s1) by reflexivity.
  destruct (returned_run sched' _ s1 s' err (Inv_step _ _ _ _ HI Hstep) Hpc Hrun')
    as [Hr Hm].
  specialize (Hm eq_refl).
  assert (Hget : forall app, Get (reg s') app = None).
  { intros app. unfold Get. rewrite Hm. apply lookup_empty. }
  split; [exact Hget|]. split.
  - intros r H200.
    destruct (Handler_ok_lookup (reg s') r H200) as (req & _ & Hs).
    rewrite Hget in Hs. destruct Hs; discriminate.
  - unfold readinessHandler, Ready. rewrite Hr. auto.
Qed.

(** X22.  [Close] does not stop a construction that is under way: when a
    goroutine of [Initialize] is waiting for its client to become ready
    while [Close] is called, it stores the client afterwards, into the map
    [Close] has left empty, where [Get] then finds it.  (In [main], [Close]
    is called after [initializeClients] has returned only.) *)
Theorem Close_leaves_pending (s : state) (i : nat) (app : string) (c : Client) :
  goroutines s !! i = Some (mkGoroutine app (GWaitForReady c)) ->
  exists s', run [AClose; AClientReady i] s = Some s'
             /\ clientMap (reg s') = {[ app := c ]}
             /\ Get (reg s') app = Some c.
Proof.
  intros Hi. simpl. rewrite Hi. eexists. split; [reflexivity|]. simpl.
  split; [reflexivity|]. unfold Get. simpl. apply lookup_insert_eq.
Qed.

End ShutdownProperties.

(** ** The telemetry configuration and the server address *)

Section TelemetryProperties.

Context {E : Env} {V : ServerEnv}.

(** X19.  Whatever the environment holds, the service name, the service
    version and the deployment environment of the telemetry configuration
    are not empty and the server address names a port; a service name, a
    cluster name or a port that the environment sets is used as it is, and
    the collector endpoint is the one of the environment. *)
Theorem ConfigFromEnv_nonempty :
  ServiceName ConfigFromEnv <> ""
  /\ ServiceVersion ConfigFromEnv <> ""
  /\ Environment ConfigFromEnv <> ""
  /\ OTLPEndpoint ConfigFromEnv = OtelExporterOTLPEndpoint
  /\ (OtelServiceName <> "" -> ServiceName ConfigFromEnv = OtelServiceName)
  /\ (NaisClusterName <> "" -> Environment ConfigFromEnv = NaisClusterName)
  /\ serverAddr <> ":"
  /\ (Port <> "" -> serverAddr = ":" ++ Port).
Proof.
  unfold ConfigFromEnv, serverAddr. simpl.
  destruct (String.eqb OtelServiceName "") eqn:H1;
  destruct (String.eqb NaisAppName "") eqn:H2;
  destruct (String.eqb OtelServiceVersion "") eqn:H3;
  destruct (String.eqb NaisClusterName "") eqn:H4;
  destruct (String.eqb UnleashServerAPIEnv "") eqn:H5;
  destruct (String.eqb Port "") eqn:H6;
  rewrite ?H1, ?H2, ?H3, ?H4, ?H5, ?H6; simpl;
  rewrite ?String.eqb_eq, ?String.eqb_neq in *;
  repeat split; try assumption; try discriminate; try contradiction; try reflexivity.
  all: try (intros Hc; injection Hc; intros; contradiction).
Qed.

End TelemetryProperties.

(** ** The request log *)

Lemma last_cons {A} (a d : A) (l : list A) : List.last (a :: l) d = List.last l a.
Proof.
  revert a d. induction l as [|b l IH]; intros a d; [reflexivity|].
  change (List.last (b :: l) d = List.last (b :: l) a). rewrite !IH. reflexivity.
Qed.

Lemma callOn_fold (calls : list writerCall) : forall rw,
  passedOn (fold_left callOn calls rw) = (passedOn rw ++ calls)%list
  /\ statusCode (fold_left callOn calls rw) = List.last (headerCodes calls) (statusCode rw).
Proof.
  induction calls as [|c calls IH]; intros rw; simpl.
  - rewrite app_nil_r. auto.
  - destruct (IH (callOn rw c)) as [-> ->].
    destruct c; simpl; rewrite <- ?app_assoc; simpl; split; auto.
    symmetry. apply last_cons.
Qed.

(** X20.  The logging middleware passes every call of the inner handler on
    to the outer writer, unchanged and in order.  It logs nothing for the
    paths /isAlive, /isReady and /metrics and one line for every other
    path, so for every path under /features/; the line holds the method,
    the path and the remote address of the request and, as status, the code
    of the handler's last call of WriteHeader, 200 if it made none, which
    for a handler that writes its reply as the handlers of the proxy do is
    the status of the reply. *)
Theorem Middleware_spec (next : HttpRequest -> list writerCall) (r : HttpRequest) :
  fst (Middleware next r) = next r
  /\ snd (Middleware next r)
     = (if shouldSkipLogging (URLPath r) then None
        else Some (mkLogEntry (Method r) (URLPath r)
                     (List.last (headerCodes (next r)) 200) (RemoteAddr r)))
  /\ (forall resp, next r = writeReply resp ->
        List.last (headerCodes (next r)) 200 = StatusCode resp)
  /\ (snd (Middleware next r) = None <->
        URLPath r = "/isAlive" \/ URLPath r = "/isReady" \/ URLPath r = "/metrics")
  /\ (String.prefix PathPrefix (URLPath r) = true -> snd (Middleware next r) <> None).
Proof.
  unfold Middleware.
  destruct (callOn_fold (next r) (mkResponseWriter [] StatusOK)) as [Hp Hs].
  simpl in Hp, Hs.
  assert (Hskip : shouldSkipLogging (URLPath r) = true <->
            URLPath r = "/isAlive" \/ URLPath r = "/isReady" \/ URLPath r = "/metrics").
  { unfold shouldSkipLogging. rewrite !orb_true_iff, !String.eqb_eq. tauto. }
  destruct (shouldSkipLogging (URLPath r)) eqn:Hk; simpl.
  - split; [reflexivity|]. split; [reflexivity|].
    split; [intros resp ->; reflexivity|].
    split; [split; [intros _; apply Hskip; reflexivity|reflexivity]|].
    intros Hpre. exfalso.
    destruct (proj1 Hskip eq_refl) as [H|[H|H]]; rewrite H in Hpre; discriminate.
  - split; [exact Hp|]. split; [rewrite Hs; reflexivity|].
    split; [intros resp ->; reflexivity|].
    split; [|discriminate].
    split; [discriminate|]. intros H. apply Hskip in H. discriminate.
Qed.

(** ** The further properties on the stub collaborators *)

Lemma Handler_frame_witness :
  Handler (U := stubUnleash) (E := twoApps)
    (reg (finalState stubUnleash twoApps startingUp))
    (postFlag "/features/my-flag" (dq "{'appName':'app1','navIdent':'U1'}"))
  = Handler (U := stubUnleash) (E := twoApps)
      (reg (finalState stubUnleash twoApps startup))
      (postFlag "/features/my-flag" (dq "{'appName':'app1','navIdent':'U1'}")).
Proof.
  apply Handler_frame. intros req H. vm_compute in H. injection H as <-.
  vm_compute. reflexivity.
Defined.

Lemma Decode_leading_space_witness :
  Decode ((newline ++ "  ") ++ dq "{'appName':'app1'}") = Decode (dq "{'appName':'app1'}").
Proof.
  exact (proj2 (Decode_leading_space (newline ++ "  ") (dq "{'appName':'app1'}") eq_refl)).
Defined.

(** The example of the README. *)
Lemma Decode_requestBody_witness :
  Decode (dq "{'navIdent':'A123456','appName':'kabal-api','podName':'kabal-api-abc123'}")
  = inl (mkRequest "A123456" "kabal-api" "kabal-api-abc123").
Proof.
  exact (Decode_requestBody "A123456" "kabal-api" "kabal-api-abc123"
           eq_refl eq_refl eq_refl).
Defined.

Lemma Decode_member_witness :
  exists req,
    Decode (dq "{'appName':'app1','podName':null,'APPNAME':'app2'}") = inl req
    /\ getField FAppName req = "app2".
Proof.
  exact (Decode_member (dq "{'appName':'app1','podName':null,'APPNAME':'app2'}")
           [("appName", JString "app1"); ("podName", JNull)] "APPNAME" "app2" FAppName
           ltac:(vm_compute; reflexivity) eq_refl eq_refl).
Defined.

Lemma readinessHandler_reachable_witness :
  readinessHandler (reg (finalState stubUnleash twoApps startingUp))
  = mkHttpResponse 503 "text/plain" "NOT READY"
  /\ readinessHandler (reg (finalState stubUnleash twoApps startup))
     = mkHttpResponse 200 "text/plain" "OK"
  /\ StatusCode (readinessHandler (reg (finalState stubUnleash threeApps failedStartup)))
     = 503.
Proof.
  destruct (readinessHandler_reachable (U := stubUnleash) (E := twoApps) startingUp
              (finalState stubUnleash twoApps startingUp)) as [H1 _];
    [vm_compute; reflexivity|].
  destruct (readinessHandler_reachable (U := stubUnleash) (E := twoApps) startup
              (finalState stubUnleash twoApps startup)) as [H2 _];
    [vm_compute; reflexivity|].
  destruct (readinessHandler_reachable (U := stubUnleash) (E := threeApps) failedStartup
              (finalState stubUnleash threeApps failedStartup)) as [_ H3];
    [vm_compute; reflexivity|].
  split; [rewrite H1; reflexivity|]. split; [rewrite H2; reflexivity|].
  apply H3. vm_compute. discriminate.
Defined.

Lemma Ready_stays_witness :
  Ready (reg (finalState stubUnleash twoApps (startup ++ [AClose; AGet "app1"]))) = true
  /\ readinessHandler (reg (finalState stubUnleash twoApps (startup ++ [AClose; AGet "app1"])))
     = mkHttpResponse 200 "text/plain" "OK".
Proof.
  apply (Ready_stays (U := stubUnleash) (E := twoApps) [AClose; AGet "app1"]
           (finalState stubUnleash twoApps startup)).
  - vm_compute. reflexivity.
  - vm_compute. reflexivity.
Defined.

Lemma Get_stable_witness :
  Get (reg (finalState stubUnleash twoApps (startingUp ++ [AClientReady 1; AWaitReturn])))
    "app1"
  = Some "app1".
Proof.
  destruct (Get_stable (U := stubUnleash) (E := twoApps) startingUp
              [AClientReady 1; AWaitReturn] (finalState stubUnleash twoApps startingUp)
              (finalState stubUnleash twoApps (startingUp ++ [AClientReady 1; AWaitReturn]))
              "app1") as (_ & H & _);
    [vm_compute; reflexivity | vm_compute; reflexivity | reflexivity |].
  apply H; [|vm_compute; reflexivity].
  apply (bool_decide_unpack _). vm_compute. exact I.
Defined.

Lemma Get_own_client_witness :
  NewClient (Unleash := stubUnleash)
    (mkClientOptions "app1" "app1" "http://unleash/api" "token") = inl "app1".
Proof.
  exact (Get_own_client (U := stubUnleash) (E := twoApps) startingUp
           (finalState stubUnleash twoApps startingUp) "app1" "app1"
           ltac:(vm_compute; reflexivity) ltac:(vm_compute; reflexivity)).
Defined.

(** The goroutine of [broken] has sent its error; the one of [app1] can
    still move. *)
Lemma goroutine_not_blocked_witness :
  length (errChan (finalState stubUnleash threeApps
                     [ACallInitialize; ALoop; ALoop; ALoop; ANewClient 1])) < 3
  /\ exists a s',
       (a = ANewClient 0 \/ a = AClientReady 0)
       /\ step (U := stubUnleash) (E := threeApps) a
            (finalState stubUnleash threeApps
               [ACallInitialize; ALoop; ALoop; ALoop; ANewClient 1]) = Some s'.
Proof.
  exact (goroutine_not_blocked (U := stubUnleash) (E := threeApps)
           [ACallInitialize; ALoop; ALoop; ALoop; ANewClient 1]
           (finalState stubUnleash threeApps
              [ACallInitialize; ALoop; ALoop; ALoop; ANewClient 1])
           0 (mkGoroutine "app1" GSpawned)
           ltac:(vm_compute; reflexivity) ltac:(vm_compute; reflexivity) eq_refl).
Defined.

Lemma Ready_serves_witness :
  StatusCode (response (Handler (U := stubUnleash) (E := twoApps)
                          (reg (finalState stubUnleash twoApps startup))
                          (postFlag "/features/my-flag" (dq "{'appName':'app2'}"))))
  = 200.
Proof.
  destruct (Ready_serves (U := stubUnleash) (E := twoApps) startup
              (finalState stubUnleash twoApps startup)) as [_ H];
    [vm_compute; reflexivity | reflexivity | vm_compute; reflexivity |].
  apply (H _ (mkRequest "" "app2" ""));
    [reflexivity | reflexivity | vm_compute; reflexivity | reflexivity].
Defined.

Lemma initializeClients_exit_witness :
  initializeClients
    (Some (aggregateError [createError "broken" "unleash server URL missing"])) = Some 1
  /\ initializeClients None = None.
Proof.
  destruct (initializeClients_exit (U := stubUnleash) (E := threeApps) failedStartup
              (finalState stubUnleash threeApps failedStartup)
              (Some (aggregateError [createError "broken" "unleash server URL missing"])))
    as [[_ H1] _]; [vm_compute; reflexivity | vm_compute; reflexivity |].
  destruct (initializeClients_exit (U := stubUnleash) (E := twoApps) startup
              (finalState stubUnleash twoApps startup) None)
    as [_ [_ H2]]; [vm_compute; reflexivity | vm_compute; reflexivity |].
  split; [apply H1; vm_compute; discriminate | apply H2; vm_compute; reflexivity].
Defined.

(** The startup with two applications makes all of its eight moves; while
    the client of [app2] is not ready, a move is enabled and [Initialize]
    does not return. *)
Lemma Initialize_moves_bounded_witness :
  length (List.filter isInternal startup) <= 8
  /\ step (U := stubUnleash) (E := twoApps) AWaitReturn
       (finalState stubUnleash twoApps startup) = None
  /\ (exists a s', isInternal a = true
        /\ step (U := stubUnleash) (E := twoApps) a
             (finalState stubUnleash twoApps startingUp) = Some s')
  /\ forall err,
       pc (finalState stubUnleash twoApps (startingUp ++ [AGet "app2"; AReady]))
       <> InitReturned err.
Proof.
  destruct (Initialize_moves_bounded (U := stubUnleash) (E := twoApps) startup
              (finalState stubUnleash twoApps startup)) as (H1 & H2 & _);
    [vm_compute; reflexivity|].
  destruct (Initialize_moves_bounded (U := stubUnleash) (E := twoApps) startingUp
              (finalState stubUnleash twoApps startingUp)) as (_ & _ & H3 & H4);
    [vm_compute; reflexivity|].
  split; [exact H1|].
  split; [apply (H2 None); [vm_compute; reflexivity | reflexivity]|].
  split; [apply H3; [vm_compute; discriminate | intros err; vm_compute; discriminate]|].
  apply (H4 1 (mkGoroutine (U := stubUnleash) "app2"
                 (GWaitForReady (U := stubUnleash) "app2"))
            [AGet "app2"; AReady]);
    [vm_compute; reflexivity | reflexivity | vm_compute; reflexivity |].
  intros a [<-|[<-|[]]]; split; discriminate.
Defined.

(** After the shutdown of a finished startup. *)
Lemma closed_registry_serves_nothing_witness :
  StatusCode (response (Handler (U := stubUnleash) (E := twoApps)
                (reg (finalState stubUnleash twoApps (startup ++ [AClose; AReady])))
                (postFlag "/features/my-flag" (dq "{'appName':'app1'}")))) <> 200
  /\ readinessHandler (reg (finalState stubUnleash twoApps (startup ++ [AClose; AReady])))
     = mkHttpResponse 200 "text/plain" "OK".
Proof.
  destruct (closed_registry_serves_nothing (U := stubUnleash) (E := twoApps) startup
              [AReady] (finalState stubUnleash twoApps startup)
              (finalState stubUnleash twoApps (startup ++ [AClose; AReady])) None)
    as (_ & H & _ & Hr);
    [vm_compute; reflexivity | vm_compute; reflexivity | vm_compute; reflexivity |].
  split; [apply H | rewrite Hr; vm_compute; reflexivity].
Defined.

(** The client of [app2], which was not ready when [Close] was called. *)
Lemma Close_leaves_pending_witness :
  exists s',
    run (U := stubUnleash) (E := twoApps) [AClose; AClientReady 1]
      (finalState stubUnleash twoApps startingUp) = Some s'
    /\ clientMap (reg s') = {[ "app2" := "app2" ]}
    /\ Get (reg s') "app2" = Some "app2".
Proof.
  exact (Close_leaves_pending (U := stubUnleash) (E := twoApps)
           (finalState stubUnleash twoApps startingUp) 1 "app2" "app2"
           ltac:(vm_compute; reflexivity)).
Defined.
